(** * cdk8s scope metadata: a shallow embedding of [lib/metadata.ts]

    The development follows the TypeScript source:

    - JavaScript objects used as string-keyed records ([Labels]) are
      association lists in own-property order, with the ECMAScript rule
      that array-index keys are enumerated first, in ascending numeric
      order, and the other string keys after them in creation order;
    - a spread defines the properties it copies, while an assignment
      [o[k] = v] goes through the prototype, where the key [__proto__]
      is an accessor;
    - strings are compared as JavaScript compares them, by their UTF-16
      code units;
    - the construct tree is a store of construct objects addressed by
      references; [Metadata] objects are constructs with two extra fields;
    - the static and instance methods of [Metadata] are written in a small
      state-and-failure monad over that store. *)

From Stdlib Require Import NArith Ascii.
From stdpp Require Import base option list strings gmap fin_maps sorting.

(** ** JavaScript objects as ordered records *)

Module Js.

(** Decimal value of a digit character. *)
Definition digit (c : ascii) : option N :=
  let n := N_of_ascii c in
  if ((48 <=? n) && (n <=? 57))%N then Some (n - 48)%N else None.

Fixpoint digits (s : string) (acc : N) : option N :=
  match s with
  | EmptyString => Some acc
  | String c s' =>
      match digit c with
      | Some d => digits s' (10 * acc + d)%N
      | None => None
      end
  end.

(** [array_index k] is [Some n] when the property key [k] is an array
    index: the canonical decimal spelling of an integer [n] below
    [2^32 - 1]. *)
Definition array_index (k : string) : option N :=
  match k with
  | EmptyString => None
  | String c rest =>
      if decide (c = "0"%char)
      then (if decide (rest = EmptyString) then Some 0%N else None)
      else match digits k 0 with
           | Some n => if (n <? 4294967295)%N then Some n else None
           | None => None
           end
  end.

Section object.
Context {V : Type}.

(** Own property read: the first entry with the key. *)
Fixpoint own (o : list (string * V)) (k : string) : option V :=
  match o with
  | [] => None
  | (k', v) :: o' => if decide (k' = k) then Some v else own o' k
  end.

(** Overwriting an existing property keeps its position. *)
Fixpoint replace (o : list (string * V)) (k : string) (v : V)
  : list (string * V) :=
  match o with
  | [] => []
  | (k', v') :: o' =>
      if decide (k' = k) then (k', v) :: o'
      else (k', v') :: replace o' k v
  end.

(** A new array-index key goes after the smaller array indices and
    before everything else. *)
Fixpoint insert_index (o : list (string * V)) (n : N) (k : string) (v : V)
  : list (string * V) :=
  match o with
  | [] => [(k, v)]
  | (k', v') :: o' =>
      match array_index k' with
      | Some n' =>
          if (n' <? n)%N then (k', v') :: insert_index o' n k v
          else (k, v) :: o
      | None => (k, v) :: o
      end
  end.

(** Defining the own property [k] of [o] with the value [v], as an object
    literal and a spread do: an existing property is overwritten, a new
    one is created at its place in the own-property order. *)
Definition set (o : list (string * V)) (k : string) (v : V)
  : list (string * V) :=
  match own o k with
  | Some _ => replace o k v
  | None =>
      match array_index k with
      | Some n => insert_index o n k v
      | None => o ++ [(k, v)]
      end
  end.

(** The assignment [o[k] = v] on a plain object (its prototype is
    [Object.prototype]), for a value that is a string or [undefined].
    An own property is overwritten.  Without one, the key [__proto__] is
    found on the prototype as an accessor, whose setter ignores a value
    that is neither an object nor [null]: the assignment creates no
    property.  Every other key becomes a new own property. *)
Definition put (o : list (string * V)) (k : string) (v : V)
  : list (string * V) :=
  match own o k with
  | Some _ => replace o k v
  | None => if decide (k = "__proto__") then o else set o k v
  end.

(** Spreading [src] into [target]: the entries of [src] are copied in
    their own order. *)
Definition assign (target src : list (string * V)) : list (string * V) :=
  fold_left (λ t kv, set t kv.1 kv.2) src target.

(** The record read by key, forgetting the order. *)
Definition to_map (o : list (string * V)) : gmap string V := list_to_map o.

End object.

(** [Object.keys(o)]. *)
Definition keys {V} (o : list (string * V)) : list string := o.*1.

(** *** The order of strings

    A string of the model is the UTF-8 spelling of a JavaScript string,
    as a string literal is.  JavaScript compares strings by their UTF-16
    code units. *)

(** The code units of a code point: itself in the basic plane, a
    surrogate pair above it. *)
Definition utf16 (cp : N) : list N :=
  if (cp <? 65536)%N then [cp]
  else [(55296 + (cp - 65536) / 1024)%N; (56320 + (cp - 65536) mod 1024)%N].

(** Decoding the bytes: [need] bytes of the current character are still
    to come and [acc] holds the bits read of it. *)
Fixpoint code_units_from (s : string) (need : nat) (acc : N) : list N :=
  match s with
  | EmptyString => []
  | String c s' =>
      let b := N_of_ascii c in
      match need with
      | O =>
          if (b <? 128)%N then b :: code_units_from s' 0 0
          else if (b <? 224)%N then code_units_from s' 1 (b mod 32)%N
          else if (b <? 240)%N then code_units_from s' 2 (b mod 16)%N
          else code_units_from s' 3 (b mod 8)%N
      | S need' =>
          let acc' := (64 * acc + b mod 64)%N in
          match need' with
          | O => utf16 acc' ++ code_units_from s' 0 0
          | S _ => code_units_from s' need' acc'
          end
      end
  end.

Definition code_units (s : string) : list N := code_units_from s 0 0.

(** Strings of ASCII characters. *)
Fixpoint is_ascii (s : string) : bool :=
  match s with
  | EmptyString => true
  | String c s' => (N_of_ascii c <? 128)%N && is_ascii s'
  end.

(** [s1 <= s2] as [Array.prototype.sort] without a comparator reads it:
    the first code unit that differs decides, and a proper prefix comes
    first.  Two JavaScript strings with the same code units are the same
    string; the comparison of the bytes only decides between byte
    sequences that are not the UTF-8 spelling of a string, so that the
    relation is an order on all of them. *)
Definition leb (s1 s2 : string) : bool :=
  match list_compare N.compare (code_units s1) (code_units s2) with
  | Lt => true
  | Eq => String.leb s1 s2
  | Gt => false
  end.

Definition le (s1 s2 : string) : Prop := leb s1 s2.

#[global] Instance le_dec : RelDecision le := λ s1 s2, Is_true_dec (leb s1 s2).

End Js.

Abbreviation JsObject V := (list (string * V)).

(** [type Labels = Record<string, string | undefined>]; [None] is
    [undefined]. *)
Abbreviation Labels := (list (string * option string)).

(** [{ ...a, ...b }] where [a] may be [undefined]. *)
Definition spread2 {V} (a : option (JsObject V)) (b : JsObject V) : JsObject V :=
  Js.assign (Js.assign [] (default [] a)) b.

(** [obj[key]] for an own key of a [Labels] object, the only reads the
    module makes; [undefined] when the key is absent. *)
Definition get (obj : Labels) (key : string) : option string :=
  default None (Js.own obj key).

(** [Object.keys(obj).sort()] orders the own keys as strings, code unit
    by code unit; [result[key] = obj[key]] then assigns them in that order
    to an object that starts empty. *)
Definition sortByKey (obj : Labels) : Labels :=
  fold_left (λ result key, Js.put result key (get obj key))
            (merge_sort Js.le (Js.keys obj)) [].

(** [Object.entries(obj)] walks the own properties in their order;
    [result[n] = v] assigns the ones that hold a string. *)
Definition filterUndefined (obj : Labels) : JsObject string :=
  fold_left (λ result nv,
               match nv.2 with
               | None => result
               | Some v => Js.put result nv.1 v
               end) obj [].

(** [key_before k1 k2]: [k1] may be enumerated before [k2]. *)
Definition key_before (k1 k2 : string) : Prop :=
  match Js.array_index k1, Js.array_index k2 with
  | Some n1, Some n2 => (n1 < n2)%N
  | None, Some _ => False
  | _, None => True
  end.

(** The own-property order of an object. *)
Definition ordered {V} (o : JsObject V) : Prop :=
  NoDup (Js.keys o) ∧ StronglySorted key_before (Js.keys o).

(** Resolved labels, whose values are strings, seen as a [Labels]
    object. *)
Definition lift (P : JsObject string) : Labels :=
  prod_map (λ k, k) Some <$> P.

(** The entries of a [Labels] object that hold a string. *)
Definition defined (o : Labels) : JsObject string :=
  omap (λ kv, pair kv.1 <$> kv.2) o.

(** The entries of an object under the keys other than [__proto__]. *)
Definition without_proto {V} (o : JsObject V) : JsObject V :=
  filter (λ kv, kv.1 ≠ "__proto__") o.

(** ** The construct tree

    Constructs are objects of a store, addressed by references.  A
    reference is the position of the object in the store, so an object
    created later has a larger reference. *)

Abbreviation ref := nat.

(** The two private fields of a [Metadata] object; [None] is [undefined]. *)
Record MetadataFields := {
  labels : option Labels;
  namespace : option string
}.

(** A construct with the part of its [Node] the module reads.  [fields]
    is [Some _] exactly for the instances of [Metadata]. *)
Record Construct := {
  node_scope : option ref;
  node_id : string;
  node_children : JsObject ref;
  fields : option MetadataFields
}.

Abbreviation Heap := (list Construct).

(** Computations over the store; [None] is an exception or a walk that
    did not end within its fuel. *)
Definition M (A : Type) : Type := Heap → option (A * Heap).

Definition ret {A} (a : A) : M A := λ h, Some (a, h).

Definition bind {A B} (m : M A) (f : A → M B) : M B :=
  λ h, match m h with
       | Some (a, h') => f a h'
       | None => None
       end.

Definition throw {A} : M A := λ _, None.

Notation "'let*' x ':=' m 'in' k" := (bind m (λ x, k))
  (at level 10, x name, m at level 100, k at level 200).

(** Reading and writing an object of the store. *)
Definition deref (r : ref) : M Construct :=
  λ h, match h !! r with
       | Some c => Some (c, h)
       | None => None
       end.

Definition store (r : ref) (c : Construct) : M unit :=
  λ h, Some (tt, <[r := c]> h).

Definition alloc (c : Construct) : M ref :=
  λ h, Some (length h, h ++ [c]).

Module Node.

(** Modelled from the spec: the parent lookup of the scope tree,
    [Node.of(c).scope], from the [constructs] package. *)
Definition scope (c : ref) : M (option ref) :=
  let* o := deref c in ret (node_scope o).

(** Modelled from the spec: the child lookup by identifier,
    [Node.of(c).tryFindChild(id)], from the [constructs] package. *)
Definition tryFindChild (c : ref) (id : string) : M (option ref) :=
  let* o := deref c in ret (Js.own (node_children o) id).

(** Modelled from the spec: child attachment, the constructor of
    [Construct] in the [constructs] package.  The new object becomes a
    child of its scope under [id]; children are uniquely identified, so
    a second child with the same identifier is refused. *)
Definition create (sc : option ref) (id : string)
    (f : option MetadataFields) : M ref :=
  match sc with
  | None =>
      alloc {| node_scope := None; node_id := id;
               node_children := []; fields := f |}
  | Some p =>
      let* o := deref p in
      match Js.own (node_children o) id with
      | Some _ => throw
      | None =>
          let* r := alloc {| node_scope := Some p; node_id := id;
                             node_children := []; fields := f |} in
          let* _ := store p {| node_scope := node_scope o;
                               node_id := node_id o;
                               node_children := Js.set (node_children o) id r;
                               fields := fields o |} in
          ret r
      end
  end.

End Node.

(** ** The [Metadata] class *)

Module Metadata.

(** The id of the Metadata construct added to scopes in which metadata
    is defined. *)
Definition id : string := "$cdk8s.Metadata".

(** [md.namespace] and [md.labels] read through a reference that was
    cast to [Metadata]: a construct without the field gives
    [undefined]. *)
Definition get_namespace (md : ref) : M (option string) :=
  let* o := deref md in
  ret (match fields o with Some f => namespace f | None => None end).

Definition get_labels (md : ref) : M (option Labels) :=
  let* o := deref md in
  ret (match fields o with Some f => labels f | None => None end).

(** The receiver of an instance method is a [Metadata] object. *)
Definition this_fields (this : ref) : M (Construct * MetadataFields) :=
  let* o := deref this in
  match fields o with
  | Some f => ret (o, f)
  | None => throw
  end.

Definition set_fields (this : ref) (o : Construct) (f : MetadataFields)
  : M unit :=
  store this {| node_scope := node_scope o; node_id := node_id o;
                node_children := node_children o; fields := Some f |}.

(** [this.labels = v] and [this.namespace = v]. *)
Definition put_labels (this : ref) (v : Labels) : M unit :=
  let* o := this_fields this in
  set_fields this o.1 {| labels := Some v; namespace := namespace o.2 |}.

Definition put_namespace (this : ref) (v : string) : M unit :=
  let* o := this_fields this in
  set_fields this o.1 {| labels := labels o.2; namespace := Some v |}.

Definition tryGetMetadata (scope : ref) : M (option ref) :=
  Node.tryFindChild scope id.

Definition new (scope : ref) (id : string) : M ref :=
  Node.create (Some scope) id (Some {| labels := None; namespace := None |}).

(** [Metadata.of(scope)]; [of] is a keyword here. *)
Definition of_ (scope : ref) : M ref :=
  let* md := tryGetMetadata scope in
  match md with
  | Some m => ret m
  | None => new scope id
  end.

Fixpoint lookupMetadata (fuel : nat) (scope : option ref) : M (option ref) :=
  match scope with
  | None => ret None
  | Some s =>
      match fuel with
      | 0 => throw
      | S fuel' =>
          let* md := tryGetMetadata s in
          match md with
          | Some m => ret (Some m)
          | None => let* p := Node.scope s in lookupMetadata fuel' p
          end
      end
  end.

Fixpoint resolveNamespace (fuel : nat) (scope : option ref)
  : M (option string) :=
  match scope with
  | None => ret None
  | Some s =>
      match fuel with
      | 0 => throw
      | S fuel' =>
          let* md := lookupMetadata fuel (Some s) in
          let* ns := match md with
                     | Some m => get_namespace m
                     | None => ret None
                     end in
          let* resolved :=
            match ns with
            | Some v => ret (Some v)
            | None => let* p := Node.scope s in resolveNamespace fuel' p
            end in
          ret (if decide (resolved = Some EmptyString) then None else resolved)
      end
  end.

Fixpoint resolveLabels (fuel : nat) (scope : option ref)
  : M (JsObject string) :=
  match scope with
  | None => ret []
  | Some s =>
      match fuel with
      | 0 => throw
      | S fuel' =>
          let* p := Node.scope s in
          let* inherited := resolveLabels fuel' p in
          let* md := lookupMetadata fuel (Some s) in
          let* own := match md with
                      | Some m => get_labels m
                      | None => ret None
                      end in
          ret (filterUndefined
                 (spread2 (Some (lift inherited))
                          (default [] own)))
      end
  end.

Definition addLabels (this : ref) (labels : Labels) : M unit :=
  let* _ := this_fields this in
  (* merge with existing *)
  let* existing := get_labels this in
  put_labels this (sortByKey (spread2 existing labels)).

Definition removeLabel (this : ref) (label : string) : M unit :=
  addLabels this [(label, None)].

Definition addNamespace (this : ref) (value : option string) : M unit :=
  let* _ := this_fields this in
  (* treat undefined as an empty string, which represents a "deleted"
     namespace *)
  let value := match value with None => EmptyString | Some v => v end in
  put_namespace this value.

Definition removeNamespace (this : ref) : M unit :=
  addNamespace this None.

End Metadata.

(** ** Vocabulary of the specification *)

(** The record attached directly to a scope, if any. *)
Definition own_record (h : Heap) (s : ref) : option ref :=
  c ← h !! s; Js.own (node_children c) Metadata.id.

Definition record_fields (h : Heap) (m : ref) : option MetadataFields :=
  c ← h !! m; fields c.

Definition record_namespace (h : Heap) (m : option ref) : option string :=
  f ← (m ≫= record_fields h); namespace f.

Definition record_labels (h : Heap) (m : option ref) : option Labels :=
  f ← (m ≫= record_fields h); labels f.

(** The three states of a namespace override. *)
Inductive NamespaceOverride :=
  | Unset
  | Tombstone
  | Value (s : string).

Definition override_of (ns : option string) : NamespaceOverride :=
  match ns with
  | None => Unset
  | Some v => if decide (v = EmptyString) then Tombstone else Value v
  end.

Definition namespaceOverride (h : Heap) (s : ref) : NamespaceOverride :=
  override_of (record_namespace h (own_record h s)).

(** The label overrides of a scope, read by key; a scope without a record,
    or whose record has no labels yet, has none. *)
Definition labelOverrides (h : Heap) (s : ref) : gmap string (option string) :=
  Js.to_map (default [] (record_labels h (own_record h s))).

(** [ancestry h s path]: [path] lists [s] and its ancestors, from [s] up
    to the root.  A scope of a finite acyclic tree has one. *)
Inductive ancestry (h : Heap) : ref → list ref → Prop :=
  | ancestry_root s c :
      h !! s = Some c → node_scope c = None → ancestry h s [s]
  | ancestry_step s c p path :
      h !! s = Some c → node_scope c = Some p → ancestry h p path →
      ancestry h s (s :: path).

(** The decision of the first scope of a path that takes one. *)
Fixpoint first_decision (ds : list NamespaceOverride) : NamespaceOverride :=
  match ds with
  | [] => Unset
  | Unset :: ds' => first_decision ds'
  | d :: _ => d
  end.

Definition decided (d : NamespaceOverride) : option string :=
  match d with
  | Value s => Some s
  | Unset | Tombstone => None
  end.

(** The first record met on a path. *)
Fixpoint first_record (h : Heap) (path : list ref) : option ref :=
  match path with
  | [] => None
  | s :: path' =>
      match own_record h s with
      | Some m => Some m
      | None => first_record h path'
      end
  end.

(** Overlaying overrides on an inherited mapping: an override replaces the
    inherited entry of its key, an unset override deletes it. *)
Definition overlay (inherited : gmap string string)
    (overrides : gmap string (option string)) : gmap string string :=
  omap (λ v, v) (overrides ∪ (Some <$> inherited)).

(** The labels of a path, resolved from the root down. *)
Fixpoint resolved_labels (h : Heap) (path : list ref) : gmap string string :=
  match path with
  | [] => ∅
  | s :: path' => overlay (resolved_labels h path') (labelOverrides h s)
  end.

(** The variant of [resolveLabels] that overlays only the record attached
    directly to the scope. *)
Fixpoint resolveLabels_direct (fuel : nat) (scope : option ref)
  : M (JsObject string) :=
  match scope with
  | None => ret []
  | Some s =>
      match fuel with
      | 0 => throw
      | S fuel' =>
          let* p := Node.scope s in
          let* inherited := resolveLabels_direct fuel' p in
          let* md := Metadata.tryGetMetadata s in
          let* own := match md with
                      | Some m => Metadata.get_labels m
                      | None => ret None
                      end in
          ret (filterUndefined
                 (spread2 (Some (lift inherited))
                          (default [] own)))
      end
  end.

(** [n] successive calls of [Metadata.of] on one scope, with the handles
    they return. *)
Fixpoint of_times (n : nat) (scope : ref) : M (list ref) :=
  match n with
  | 0 => ret []
  | S n' =>
      let* m := Metadata.of_ scope in
      let* ms := of_times n' scope in
      ret (m :: ms)
  end.

(** [Node.of(s).id]. *)
Definition name_of (h : Heap) (s : ref) : option string :=
  node_id <$> h !! s.

(** [Node.of(s).children.length]. *)
Definition child_count (h : Heap) (s : ref) : nat :=
  match h !! s with
  | Some c => length (node_children c)
  | None => 0
  end.

(** ** Reachable stores *)

(** The calls a client can make. *)
Inductive call :=
  | NewConstruct (scope : option ref) (id : string)
  | Of (scope : ref)
  | AddLabels (md : ref) (labels : Labels)
  | RemoveLabel (md : ref) (label : string)
  | AddNamespace (md : ref) (value : option string)
  | RemoveNamespace (md : ref).

Definition run (c : call) : M unit :=
  match c with
  | NewConstruct sc id => let* _ := Node.create sc id None in ret tt
  | Of s => let* _ := Metadata.of_ s in ret tt
  | AddLabels md l => Metadata.addLabels md l
  | RemoveLabel md l => Metadata.removeLabel md l
  | AddNamespace md v => Metadata.addNamespace md v
  | RemoveNamespace md => Metadata.removeNamespace md
  end.

Fixpoint run_all (cs : list call) : M unit :=
  match cs with
  | [] => ret tt
  | c :: cs' => let* _ := run c in run_all cs'
  end.

Inductive reachable : Heap → Prop :=
  | reachable_empty : reachable []
  | reachable_step h c h' :
      reachable h → run c h = Some (tt, h') → reachable h'.

(** The shape every reachable store has: a scope is created before its
    children, a child found under a scope has that scope as its parent,
    the keys of stored labels are distinct, and [__proto__] is not one of
    them (stored labels are results of [sortByKey], whose assignments
    create no such property). *)
Record wf_heap (h : Heap) : Prop := {
  wf_scope : ∀ s c p, h !! s = Some c → node_scope c = Some p → p < s;
  wf_child : ∀ p c id k,
    h !! p = Some c → Js.own (node_children c) id = Some k →
    ∃ ck, h !! k = Some ck ∧ node_scope ck = Some p;
  wf_labels : ∀ m c f L,
    h !! m = Some c → fields c = Some f → labels f = Some L →
    NoDup (Js.keys L);
  wf_proto : ∀ m c f L,
    h !! m = Some c → fields c = Some f → labels f = Some L →
    Js.own L "__proto__" = None
}.

(** ** Stores used in the statements *)

(** The labels of the first record met on a path, read by key. *)
Definition nearest_labels (h : Heap) (path : list ref)
  : gmap string (option string) :=
  Js.to_map (default [] (record_labels h (first_record h path))).

(** The store after the fields of the [Metadata] object [m] were set. *)
Definition update_fields (h : Heap) (m : ref) (c : Construct)
    (f : MetadataFields) : Heap :=
  <[m := {| node_scope := node_scope c; node_id := node_id c;
            node_children := node_children c; fields := Some f |}]> h.

(** The store after a construct was created under [p]. *)
Definition attach (h : Heap) (p : ref) (o : Construct) (id : string)
    (f : option MetadataFields) : Heap :=
  <[p := {| node_scope := node_scope o; node_id := node_id o;
            node_children := Js.set (node_children o) id (length h);
            fields := fields o |}]>
    (h ++ [{| node_scope := Some p; node_id := id;
              node_children := []; fields := f |}]).

(** The store a run of calls builds from nothing. *)
Definition exec (cs : list call) : Heap :=
  match run_all cs [] with
  | Some (_, h) => h
  | None => []
  end.

(** The tree [root → parent → child] of the tests: the root sets the
    namespace ["root"] and a label, the parent clears the namespace. *)
Definition family : Heap :=
  exec [NewConstruct None "root"; NewConstruct (Some 0) "parent";
        NewConstruct (Some 1) "child";
        Of 0; AddNamespace 3 (Some "root");
        AddLabels 3 [("my_label", Some "root")];
        Of 1; RemoveNamespace 4].

(** The store after the unset marker was stored under [k] in the labels
    of the [Metadata] object [this]. *)
Definition with_unset (h : Heap) (this : ref) (c : Construct)
    (f : MetadataFields) (k : string) : Heap :=
  update_fields h this c
    {| labels := Some (sortByKey (spread2 (labels f) [(k, None)]));
       namespace := namespace f |}.

(** The tree of the tests:
    [root → group → {child1, child2, childgroup → {child3, child4}}],
    with the references 0 to 6 in that order. *)
Definition createTree : list call :=
  [NewConstruct None "root"; NewConstruct (Some 0) "group";
   NewConstruct (Some 1) "child1"; NewConstruct (Some 1) "child2";
   NewConstruct (Some 1) "childgroup";
   NewConstruct (Some 4) "child3"; NewConstruct (Some 4) "child4"].

(** The answers of the two resolvers for a list of scopes. *)
Definition namespaces (h : Heap) (scopes : list ref)
  : list (option (option string)) :=
  (λ s, fst <$> Metadata.resolveNamespace (S s) (Some s) h) <$> scopes.

Definition all_labels (h : Heap) (scopes : list ref)
  : list (option (JsObject string)) :=
  (λ s, fst <$> Metadata.resolveLabels (S s) (Some s) h) <$> scopes.

(** The labels a scope stores in its own record, as the resolver spreads
    them: nothing without a record or before the first [addLabels]. *)
Definition own_labels (h : Heap) (s : ref) : Labels :=
  default [] (record_labels h (own_record h s)).

(** The entry for the key [k] of the first scope of a path whose own
    labels have one. *)
Fixpoint label_decision (h : Heap) (k : string) (path : list ref)
  : option string :=
  match path with
  | [] => None
  | s :: path' =>
      match Js.own (own_labels h s) k with
      | Some v => v
      | None => label_decision h k path'
      end
  end.
(** The fields of a [Metadata] object as its constructor leaves them. *)
Definition empty_record : option MetadataFields :=
  Some {| labels := None; namespace := None |}.

(** Unfolding the reads of the store. *)
Ltac run_monad :=
  unfold Metadata.tryGetMetadata, Node.tryFindChild, Node.scope,
    Metadata.get_namespace, Metadata.get_labels, Metadata.this_fields,
    bind, deref, ret, throw.

(** * Properties *)

(** ** Objects *)

Section js_facts.
Context {V : Type}.
Implicit Types (o t s : list (string * V)) (k : string) (v : V).

Lemma to_map_lookup o k : Js.to_map o !! k = Js.own o k.
Proof.
  unfold Js.to_map. induction o as [|[k' v'] o IH]; simpl; [done|].
  case_decide; subst; [by rewrite lookup_insert_eq|].
  by rewrite lookup_insert_ne.
Qed.

Lemma own_None o k : Js.own o k = None ↔ k ∉ Js.keys o.
Proof.
  rewrite <-to_map_lookup. unfold Js.to_map, Js.keys.
  by rewrite not_elem_of_list_to_map.
Qed.

Lemma own_Some_elem o k v : Js.own o k = Some v → (k, v) ∈ o.
Proof.
  induction o as [|[k' v'] o IH]; simpl; [done|].
  case_decide; intros; simplify_eq; [left | right; auto].
Qed.

Lemma keys_replace o k v : Js.keys (Js.replace o k v) = Js.keys o.
Proof.
  unfold Js.keys. induction o as [|[k' v'] o IH]; simpl; [done|].
  case_decide; simpl; [done | by f_equal].
Qed.

Lemma keys_insert_index o n k v :
  Js.keys (Js.insert_index o n k v) ≡ₚ k :: Js.keys o.
Proof.
  unfold Js.keys. induction o as [|[k' v'] o IH]; simpl; [done|].
  destruct (Js.array_index k') as [n'|]; [|done].
  destruct (n' <? n)%N; simpl; [|done].
  rewrite IH. apply Permutation_swap.
Qed.

Lemma keys_set o k v :
  Js.keys (Js.set o k v) ≡ₚ
    if Js.own o k is Some _ then Js.keys o else k :: Js.keys o.
Proof.
  unfold Js.set. destruct (Js.own o k); simpl.
  - by rewrite keys_replace.
  - destruct (Js.array_index k); [apply keys_insert_index|].
    unfold Js.keys. rewrite fmap_app. simpl.
    by rewrite Permutation_app_comm.
Qed.

Lemma NoDup_set o k v : NoDup (Js.keys o) → NoDup (Js.keys (Js.set o k v)).
Proof.
  intros Ho. rewrite keys_set.
  destruct (Js.own o k) eqn:E; [done|].
  apply NoDup_cons. split; [by apply own_None | done].
Qed.

Lemma to_map_replace o k v :
  is_Some (Js.own o k) → Js.to_map (Js.replace o k v) = <[k:=v]> (Js.to_map o).
Proof.
  unfold Js.to_map. induction o as [|[k' v'] o IH]; simpl.
  - by intros [? ?].
  - case_decide; subst; simpl; intros Hk.
    + by rewrite insert_insert_eq.
    + rewrite IH; [|done]. by apply insert_insert_ne.
Qed.

Lemma to_map_insert_index o n k v :
  Js.own o k = None →
  Js.to_map (Js.insert_index o n k v) = <[k:=v]> (Js.to_map o).
Proof.
  unfold Js.to_map. induction o as [|[k' v'] o IH]; simpl; [done|].
  case_decide; [done|]. intros Hk.
  destruct (Js.array_index k') as [n'|]; [|done].
  destruct (n' <? n)%N; simpl; [|done].
  rewrite IH; [|done]. by apply insert_insert_ne.
Qed.

Lemma to_map_set o k v : Js.to_map (Js.set o k v) = <[k:=v]> (Js.to_map o).
Proof.
  unfold Js.set. destruct (Js.own o k) eqn:E.
  - apply to_map_replace. by rewrite E.
  - destruct (Js.array_index k); [by apply to_map_insert_index|].
    unfold Js.to_map. rewrite list_to_map_app. simpl.
    rewrite insert_empty. symmetry. apply insert_union_singleton_r.
    fold (Js.to_map o). by rewrite to_map_lookup.
Qed.

Lemma own_set o k v k' :
  Js.own (Js.set o k v) k' = if decide (k = k') then Some v else Js.own o k'.
Proof.
  rewrite <-!to_map_lookup, to_map_set.
  case_decide; subst; [by rewrite lookup_insert_eq|].
  by rewrite lookup_insert_ne.
Qed.

Lemma to_map_assign t s :
  Js.to_map (Js.assign t s) =
    fold_left (λ m kv, <[kv.1:=kv.2]> m) s (Js.to_map t).
Proof.
  unfold Js.assign. revert t.
  induction s as [|[k v] s IH]; intros t; simpl; [done|].
  by rewrite IH, to_map_set.
Qed.

Lemma NoDup_assign t s : NoDup (Js.keys t) → NoDup (Js.keys (Js.assign t s)).
Proof.
  unfold Js.assign. revert t.
  induction s as [|[k v] s IH]; intros t Ht; simpl; [done|].
  by apply IH, NoDup_set.
Qed.

Lemma fold_insert_NoDup s (m : gmap string V) :
  NoDup (Js.keys s) →
  fold_left (λ m kv, <[kv.1:=kv.2]> m) s m = Js.to_map s ∪ m.
Proof.
  unfold Js.to_map, Js.keys. revert m.
  induction s as [|[k v] s IH]; intros m; simpl.
  - by rewrite (left_id_L ∅ (∪)).
  - intros [Hk Hs]%NoDup_cons. rewrite IH; [|done].
    rewrite <-insert_union_l. symmetry. apply insert_union_r.
    by apply not_elem_of_list_to_map.
Qed.

Lemma to_map_assign_NoDup t s :
  NoDup (Js.keys s) → Js.to_map (Js.assign t s) = Js.to_map s ∪ Js.to_map t.
Proof. intros Hs. by rewrite to_map_assign, fold_insert_NoDup. Qed.

End js_facts.

(** ** The order of strings *)

Lemma N_compare_trans (x y z : N) c :
  (x ?= y)%N = c → (y ?= z)%N = c → (x ?= z)%N = c.
Proof.
  destruct c; rewrite ?N.compare_eq_iff, ?N.compare_lt_iff, ?N.compare_gt_iff;
    [congruence | lia | lia].
Qed.

Lemma le_unfold s1 s2 :
  Js.le s1 s2 ↔
    match list_compare N.compare (Js.code_units s1) (Js.code_units s2) with
    | Lt => True
    | Eq => String.le s1 s2
    | Gt => False
    end.
Proof.
  unfold Js.le, Js.leb.
  by destruct (list_compare N.compare (Js.code_units s1) (Js.code_units s2)).
Qed.

#[local] Instance le_total : Total Js.le.
Proof.
  intros s1 s2. rewrite !le_unfold.
  rewrite (@list_compare_antisym N N.compare N.compare_eq_iff
             (Js.code_units s1) (Js.code_units s2) N.compare_antisym).
  destruct (list_compare N.compare (Js.code_units s1) (Js.code_units s2));
    simpl; [apply (total String.le) | by left | by right].
Qed.

#[local] Instance le_trans : Transitive Js.le.
Proof.
  intros s1 s2 s3. rewrite !le_unfold.
  destruct (list_compare N.compare (Js.code_units s1) (Js.code_units s2)) eqn:E12;
    [| |done];
    destruct (list_compare N.compare (Js.code_units s2) (Js.code_units s3)) eqn:E23;
    try done.
  - apply (@list_compare_refl N N.compare N.compare_eq_iff) in E12, E23.
    rewrite E12, E23.
    rewrite (proj2 (@list_compare_refl N N.compare N.compare_eq_iff _ _) eq_refl).
    apply (transitivity (R := String.le)).
  - apply (@list_compare_refl N N.compare N.compare_eq_iff) in E12.
    by rewrite E12, E23.
  - apply (@list_compare_refl N N.compare N.compare_eq_iff) in E23.
    by rewrite <-E23, E12.
  - by rewrite (@list_compare_trans N N.compare N.compare_eq_iff _ _ _ Lt
                  N_compare_trans N.compare_antisym E12 E23).
Qed.

#[local] Instance le_antisymm : AntiSymm (=) Js.le.
Proof.
  intros s1 s2. rewrite !le_unfold.
  rewrite (@list_compare_antisym N N.compare N.compare_eq_iff
             (Js.code_units s1) (Js.code_units s2) N.compare_antisym).
  destruct (list_compare N.compare (Js.code_units s1) (Js.code_units s2));
    simpl; [apply (anti_symm String.le) | done | done].
Qed.

(** On strings of ASCII characters the code units are the bytes, and
    the order is the order of the bytes. *)
Lemma compare_ascii s1 s2 :
  Js.is_ascii s1 → Js.is_ascii s2 →
  list_compare N.compare (Js.code_units s1) (Js.code_units s2)
    = String.compare s1 s2.
Proof.
  unfold Js.code_units. revert s2.
  induction s1 as [|c1 s1 IH]; intros [|c2 s2]; cbn [Js.is_ascii];
    rewrite ?andb_True; intros H1 H2.
  - done.
  - cbn [Js.code_units_from]. destruct H2 as [H2 _].
    apply Is_true_true in H2. by rewrite H2.
  - cbn [Js.code_units_from]. destruct H1 as [H1 _].
    apply Is_true_true in H1. by rewrite H1.
  - destruct H1 as [H1 H1'], H2 as [H2 H2'].
    apply Is_true_true in H1, H2. cbn [Js.code_units_from].
    rewrite H1, H2. cbn [list_compare String.compare]. unfold Ascii.compare.
    rewrite (IH s2) by done. done.
Qed.

Lemma le_ascii s1 s2 :
  Js.is_ascii s1 → Js.is_ascii s2 → (Js.le s1 s2 ↔ String.le s1 s2).
Proof.
  intros H1 H2. unfold Js.le, Js.leb, String.le.
  rewrite compare_ascii by done. unfold String.leb.
  by destruct (String.compare s1 s2).
Qed.

Example code_units_examples :
  Js.code_units "a~" = [97; 126]%N ∧
  Js.code_units "é" = [233]%N ∧
  Js.code_units "～" = [65374]%N ∧
  Js.code_units "😀" = [55357; 56832]%N ∧
  Js.le "😀" "～" ∧ ¬ Js.le "～" "😀" ∧ String.le "～" "😀".
Proof. vm_compute. repeat split; auto. Qed.

(** ** Assignments *)

Lemma put_other {V} (o : JsObject V) k v :
  k ≠ "__proto__" → Js.put o k v = Js.set o k v.
Proof.
  intros Hk. unfold Js.put, Js.set.
  destruct (Js.own o k); [done|]. by rewrite decide_False.
Qed.

Lemma put_proto {V} (o : JsObject V) v :
  Js.own o "__proto__" = None → Js.put o "__proto__" v = o.
Proof. intros Ho. unfold Js.put. by rewrite Ho. Qed.

Lemma own_put {V} (o : JsObject V) k v k' :
  Js.own o "__proto__" = None →
  Js.own (Js.put o k v) k' =
    if decide (k = k' ∧ k ≠ "__proto__") then Some v else Js.own o k'.
Proof.
  intros Ho. destruct (decide (k = "__proto__")) as [->|Hk].
  - rewrite put_proto by done. rewrite decide_False; [done|]. by intros [_ ?].
  - rewrite put_other, own_set by done.
    destruct (decide (k = k')) as [->|Hne].
    + by rewrite decide_True.
    + rewrite decide_False; [done|]. by intros [? _].
Qed.

Lemma own_without_proto {V} (o : JsObject V) k :
  Js.own (without_proto o) k =
    if decide (k = "__proto__") then None else Js.own o k.
Proof.
  unfold without_proto. induction o as [|[k' v'] o IH]; simpl.
  - by destruct (decide (k = "__proto__")).
  - rewrite filter_cons. simpl.
    destruct (decide (k' ≠ "__proto__")) as [Hk'|Hk']; simpl.
    + destruct (decide (k' = k)) as [->|Hne]; [|done].
      by rewrite decide_False.
    + apply dec_stable in Hk'. subst k'. rewrite IH.
      destruct (decide ("__proto__" = k)) as [<-|Hne]; [by rewrite decide_True|].
      done.
Qed.

Lemma without_proto_id {V} (o : JsObject V) :
  Js.own o "__proto__" = None → without_proto o = o.
Proof.
  unfold without_proto. induction o as [|[k' v'] o IH]; simpl; [done|].
  destruct (decide (k' = "__proto__")) as [->|Hne]; [done|]. intros Ho.
  by rewrite filter_cons_True, IH.
Qed.

Lemma keys_without_proto {V} (o : JsObject V) :
  Js.keys (without_proto o) = filter (λ k, k ≠ "__proto__") (Js.keys o).
Proof.
  unfold without_proto, Js.keys. induction o as [|[k' v'] o IH]; [done|].
  rewrite fmap_cons, !filter_cons. cbn [fst].
  destruct (decide (k' ≠ "__proto__")); by rewrite ?fmap_cons, IH.
Qed.

Lemma NoDup_without_proto {V} (o : JsObject V) :
  NoDup (Js.keys o) → NoDup (Js.keys (without_proto o)).
Proof. rewrite keys_without_proto. apply NoDup_filter. Qed.

(** A spread keeps an own property [__proto__] of its source; the
    assignments of [sortByKey] and [filterUndefined] store none. *)
Example proto_is_not_assigned :
  spread2 (Some [("b", Some "1")]) [("__proto__", Some "x"); ("a", None)]
    = [("b", Some "1"); ("__proto__", Some "x"); ("a", None)] ∧
  sortByKey [("b", Some "1"); ("__proto__", Some "x"); ("a", None)]
    = [("a", None); ("b", Some "1")] ∧
  filterUndefined [("b", Some "1"); ("__proto__", Some "x"); ("a", None)]
    = [("b", "1")].
Proof. by vm_compute. Qed.

(** Keys are sorted by code units: a character outside the basic plane
    starts with a surrogate, which is below the code unit [U+FF5E]. *)
Example sortByKey_code_units :
  sortByKey [("～", Some "w"); ("😀", Some "e"); ("z", Some "1")]
    = [("z", Some "1"); ("😀", Some "e"); ("～", Some "w")].
Proof. by vm_compute. Qed.

(** ** [sortByKey] and [filterUndefined] *)

Lemma fold_set_lookup {V} (f : string → V) ks (r : JsObject V) k :
  Js.own (fold_left (λ res key, Js.set res key (f key)) ks r) k =
    if decide (k ∈ ks) then Some (f k) else Js.own r k.
Proof.
  revert r. induction ks as [|k' ks IH]; intros r; cbn [fold_left].
  - case_decide as Hin; [by apply elem_of_nil in Hin | done].
  - rewrite IH, own_set.
    destruct (decide (k' = k)) as [->|Hne].
    + rewrite (decide_True (P := k ∈ k :: ks)) by left.
      by destruct (decide (k ∈ ks)).
    + destruct (decide (k ∈ ks)) as [Hin|Hin].
      * by rewrite (decide_True (P := k ∈ k' :: ks)) by (by right).
      * rewrite (decide_False (P := k ∈ k' :: ks)); [done|].
        intros [?|?]%elem_of_cons; done.
Qed.

Lemma NoDup_fold_set {V} (f : string → V) ks (r : JsObject V) :
  NoDup (Js.keys r) →
  NoDup (Js.keys (fold_left (λ res key, Js.set res key (f key)) ks r)).
Proof.
  revert r. induction ks as [|k' ks IH]; intros r Hr; simpl; [done|].
  by apply IH, NoDup_set.
Qed.

(** The assignments of [sortByKey] create the properties of the keys other
    than [__proto__]. *)
Lemma fold_put_set {V} (f : string → V) ks (r : JsObject V) :
  Js.own r "__proto__" = None →
  fold_left (λ res key, Js.put res key (f key)) ks r =
    fold_left (λ res key, Js.set res key (f key))
              (filter (λ k, k ≠ "__proto__") ks) r.
Proof.
  revert r. induction ks as [|k ks IH]; intros r Hr; simpl; [done|].
  rewrite filter_cons. destruct (decide (k ≠ "__proto__")) as [Hk|Hk].
  - simpl. rewrite put_other by done. apply IH.
    by rewrite own_set, decide_False.
  - apply dec_stable in Hk. subst k. rewrite put_proto by done. by apply IH.
Qed.

Lemma sortByKey_set obj :
  sortByKey obj =
    fold_left (λ result key, Js.set result key (get obj key))
              (filter (λ k, k ≠ "__proto__")
                      (merge_sort Js.le (Js.keys obj))) [].
Proof. unfold sortByKey. by apply fold_put_set. Qed.

Lemma own_sortByKey obj k :
  Js.own (sortByKey obj) k =
    if decide (k = "__proto__") then None else Js.own obj k.
Proof.
  rewrite sortByKey_set, fold_set_lookup. simpl.
  destruct (decide (k = "__proto__")) as [->|Hk].
  - rewrite decide_False; [done|].
    by intros [? _]%list_elem_of_filter.
  - destruct (decide (k ∈ filter (λ k, k ≠ "__proto__")
                           (merge_sort Js.le (Js.keys obj)))) as [Hin|Hin];
      rewrite list_elem_of_filter, merge_sort_Permutation in Hin.
    + destruct Hin as [_ Hin]. unfold get.
      destruct (Js.own obj k) eqn:E; [done|]. by apply own_None in E.
    + symmetry. apply own_None. tauto.
Qed.

Lemma own_sortByKey_proto obj : Js.own (sortByKey obj) "__proto__" = None.
Proof. by rewrite own_sortByKey, decide_True. Qed.

Lemma to_map_sortByKey obj :
  Js.to_map (sortByKey obj) = delete "__proto__" (Js.to_map obj).
Proof.
  apply map_eq; intros k. rewrite to_map_lookup, own_sortByKey.
  destruct (decide (k = "__proto__")) as [->|Hk].
  - by rewrite lookup_delete_eq.
  - by rewrite lookup_delete_ne, to_map_lookup.
Qed.

Lemma NoDup_sortByKey obj : NoDup (Js.keys (sortByKey obj)).
Proof. rewrite sortByKey_set. apply NoDup_fold_set. constructor. Qed.

(** What [addLabels] stores: distinct keys, none of them [__proto__]. *)
Lemma stored_sortByKey obj :
  NoDup (Js.keys (sortByKey obj)) ∧ Js.own (sortByKey obj) "__proto__" = None.
Proof. split; [apply NoDup_sortByKey | apply own_sortByKey_proto]. Qed.

Lemma NoDup_fold_filter (obj : Labels) (r : JsObject string) :
  NoDup (Js.keys r) →
  NoDup (Js.keys (fold_left (λ result nv,
                               match nv.2 with
                               | None => result
                               | Some v => Js.set result nv.1 v
                               end) obj r)).
Proof.
  revert r. induction obj as [|[n [v|]] obj IH]; intros r Hr; simpl; auto.
  by apply IH, NoDup_set.
Qed.

(** The assignments of [filterUndefined] likewise. *)
Lemma fold_put_filter (obj : Labels) (r : JsObject string) :
  Js.own r "__proto__" = None →
  fold_left (λ result nv,
               match nv.2 with
               | None => result
               | Some v => Js.put result nv.1 v
               end) obj r =
    fold_left (λ result nv,
                 match nv.2 with
                 | None => result
                 | Some v => Js.set result nv.1 v
                 end) (without_proto obj) r.
Proof.
  unfold without_proto.
  revert r. induction obj as [|[n ov] obj IH]; intros r Hr; simpl; [done|].
  rewrite filter_cons. simpl. destruct (decide (n ≠ "__proto__")) as [Hn|Hn].
  - simpl. destruct ov as [v|]; [|by apply IH].
    rewrite put_other by done. apply IH. by rewrite own_set, decide_False.
  - apply dec_stable in Hn. subst n. destruct ov as [v|]; [|by apply IH].
    rewrite put_proto by done. by apply IH.
Qed.

Lemma filterUndefined_set obj :
  filterUndefined obj =
    fold_left (λ result nv,
                 match nv.2 with
                 | None => result
                 | Some v => Js.set result nv.1 v
                 end) (without_proto obj) [].
Proof. unfold filterUndefined. by apply fold_put_filter. Qed.

Lemma NoDup_filterUndefined obj : NoDup (Js.keys (filterUndefined obj)).
Proof. rewrite filterUndefined_set. apply NoDup_fold_filter. constructor. Qed.

Lemma own_fold_filter (obj : Labels) (r : JsObject string) k :
  NoDup (Js.keys obj) →
  Js.own (fold_left (λ result nv,
                       match nv.2 with
                       | None => result
                       | Some v => Js.set result nv.1 v
                       end) obj r) k =
    match Js.own obj k with
    | Some (Some v) => Some v
    | Some None | None => Js.own r k
    end.
Proof.
  revert r. induction obj as [|[n ov] obj IH]; intros r Hobj; simpl; [done|].
  unfold Js.keys in Hobj. simpl in Hobj.
  apply NoDup_cons in Hobj as [Hn Hobj]. rewrite IH by done.
  destruct (decide (n = k)) as [->|Hne].
  - apply (own_None obj k) in Hn. rewrite Hn.
    destruct ov; [|done]. by rewrite own_set, decide_True.
  - destruct (Js.own obj k) as [[?|]|]; try done;
      destruct ov; try done; by rewrite own_set, decide_False.
Qed.

Lemma own_filterUndefined obj k :
  NoDup (Js.keys obj) →
  Js.own (filterUndefined obj) k =
    if decide (k = "__proto__") then None
    else match Js.own obj k with
         | Some (Some v) => Some v
         | Some None | None => None
         end.
Proof.
  intros Hobj. rewrite filterUndefined_set.
  rewrite own_fold_filter by by apply NoDup_without_proto.
  rewrite own_without_proto. by destruct (decide (k = "__proto__")).
Qed.

Lemma own_filterUndefined_proto obj :
  Js.own (filterUndefined obj) "__proto__" = None.
Proof.
  unfold filterUndefined.
  assert (H : ∀ r : JsObject string, Js.own r "__proto__" = None →
            Js.own (fold_left (λ result nv,
                       match nv.2 with
                       | None => result
                       | Some v => Js.put result nv.1 v
                       end) obj r) "__proto__" = None).
  { induction obj as [|[n [v|]] obj IH]; intros r Hr; simpl; [done| |];
      apply IH; [|done].
    rewrite own_put by done. rewrite decide_False; [done|]. by intros [-> ?]. }
  by apply H.
Qed.

Lemma to_map_filterUndefined obj :
  NoDup (Js.keys obj) → Js.own obj "__proto__" = None →
  Js.to_map (filterUndefined obj) = omap (λ v, v) (Js.to_map obj).
Proof.
  intros Hobj Hp. apply map_eq; intros k.
  rewrite lookup_omap, !to_map_lookup, own_filterUndefined by done.
  destruct (decide (k = "__proto__")) as [->|Hk]; [by rewrite Hp|].
  by destruct (Js.own obj k) as [[?|]|].
Qed.

Lemma lookup_overlay inherited overrides k :
  overlay inherited overrides !! k =
    match overrides !! k with
    | Some (Some v) => Some v
    | Some None => None
    | None => inherited !! k
    end.
Proof.
  unfold overlay. rewrite lookup_omap, lookup_union, lookup_fmap.
  destruct (overrides !! k) as [[?|]|], (inherited !! k); done.
Qed.

Lemma overlay_empty inherited : overlay inherited ∅ = inherited.
Proof. apply map_eq; intros k. by rewrite lookup_overlay, lookup_empty. Qed.

(** One level of [resolveLabels]: spreading the inherited labels, then
    the overrides, and filtering, is the overlay. *)
Lemma to_map_resolve_step (inherited : JsObject string) (own : Labels) :
  NoDup (Js.keys inherited) → NoDup (Js.keys own) →
  Js.own inherited "__proto__" = None → Js.own own "__proto__" = None →
  Js.to_map (filterUndefined
               (spread2 (Some (lift inherited)) own))
  = overlay (Js.to_map inherited) (Js.to_map own).
Proof.
  intros Hi Ho Hip Hop.
  assert (Hl : NoDup (Js.keys (lift inherited))).
  { unfold lift, Js.keys. rewrite <-list_fmap_compose.
    by erewrite list_fmap_ext; [exact Hi|intros ? [??]]. }
  assert (Hm : Js.to_map (spread2 (Some (lift inherited)) own)
               = Js.to_map own ∪ (Some <$> Js.to_map inherited)).
  { unfold spread2. simpl. rewrite to_map_assign_NoDup by done. f_equal.
    rewrite to_map_assign_NoDup by done.
    unfold Js.to_map, lift. rewrite list_to_map_nil, (right_id_L ∅ (∪)).
    apply (list_to_map_fmap Some). }
  rewrite to_map_filterUndefined.
  - unfold overlay. by rewrite Hm.
  - apply NoDup_assign, NoDup_assign; constructor.
  - rewrite <-to_map_lookup, Hm, lookup_union, lookup_fmap, !to_map_lookup.
    by rewrite Hip, Hop.
Qed.

(** ** Reads of the store *)

Lemma tryGetMetadata_run h s c :
  h !! s = Some c →
  Metadata.tryGetMetadata s h = Some (own_record h s, h).
Proof. intros Hs. run_monad. unfold own_record. by rewrite Hs. Qed.

Lemma scope_run h s c :
  h !! s = Some c → Node.scope s h = Some (node_scope c, h).
Proof. intros Hs. run_monad. by rewrite Hs. Qed.

Lemma get_namespace_run h m c :
  h !! m = Some c →
  Metadata.get_namespace m h = Some (record_namespace h (Some m), h).
Proof.
  intros Hm. run_monad. unfold record_namespace, record_fields. simpl.
  rewrite Hm. simpl. by destruct (fields c).
Qed.

Lemma get_labels_run h m c :
  h !! m = Some c →
  Metadata.get_labels m h = Some (record_labels h (Some m), h).
Proof.
  intros Hm. run_monad. unfold record_labels, record_fields. simpl.
  rewrite Hm. simpl. by destruct (fields c).
Qed.

Lemma own_record_valid h s m :
  wf_heap h → own_record h s = Some m → is_Some (h !! m).
Proof.
  intros Hwf. unfold own_record. destruct (h !! s) as [c|] eqn:Hs; [|done].
  simpl. intros Hm. destruct (wf_child h Hwf s c _ m Hs Hm) as (ck & -> & _).
  eauto.
Qed.

Lemma first_record_valid h path m :
  wf_heap h → first_record h path = Some m → is_Some (h !! m).
Proof.
  intros Hwf. induction path as [|s path IH]; simpl; [done|].
  destruct (own_record h s) eqn:E; [|done].
  intros; simplify_eq. by eapply own_record_valid.
Qed.

Lemma ancestry_head h s path : ancestry h s path → ∃ path', path = s :: path'.
Proof. destruct 1; eauto. Qed.

Lemma ancestry_valid h s path : ancestry h s path → is_Some (h !! s).
Proof. destruct 1; eauto. Qed.

(** A scope of a well-formed store has an ancestry, no longer than its
    own reference allows. *)
Lemma wf_heap_ancestry h s :
  wf_heap h → s < length h → ∃ path, ancestry h s path ∧ length path ≤ S s.
Proof.
  intros Hwf. induction (lt_wf s) as [s _ IH]. intros Hs.
  destruct (lookup_lt_is_Some_2 h s Hs) as [c Hc].
  destruct (node_scope c) as [p|] eqn:Hp.
  - pose proof (wf_scope h Hwf s c p Hc Hp) as Hlt.
    destruct (IH p Hlt) as (path & Hpath & Hlen); [lia|].
    exists (s :: path). split; [by eapply ancestry_step|]. simpl. lia.
  - exists [s]. split; [by eapply ancestry_root|]. simpl. lia.
Qed.

Lemma lookupMetadata_None fuel h :
  Metadata.lookupMetadata fuel None h = Some (None, h).
Proof. by destruct fuel. Qed.

Lemma resolveNamespace_None fuel h :
  Metadata.resolveNamespace fuel None h = Some (None, h).
Proof. by destruct fuel. Qed.

Lemma resolveLabels_None fuel h :
  Metadata.resolveLabels fuel None h = Some ([], h).
Proof. by destruct fuel. Qed.

Lemma lookupMetadata_run h s path fuel :
  ancestry h s path → length path ≤ fuel →
  Metadata.lookupMetadata fuel (Some s) h = Some (first_record h path, h).
Proof.
  intros Hpath. revert fuel.
  induction Hpath as [s c Hs Hroot|s c p path Hs Hp Hpath IH];
    intros [|fuel] Hfuel; simpl in Hfuel; try lia; simpl.
  - unfold bind. rewrite (tryGetMetadata_run h s c Hs).
    destruct (own_record h s); [done|].
    by rewrite (scope_run h s c Hs), Hroot, lookupMetadata_None.
  - unfold bind. rewrite (tryGetMetadata_run h s c Hs).
    destruct (own_record h s); [done|].
    rewrite (scope_run h s c Hs), Hp. apply IH. lia.
Qed.

(** ** Namespace resolution *)

Lemma namespaceOverride_unfold h s :
  namespaceOverride h s = override_of (record_namespace h (own_record h s)).
Proof. done. Qed.

Lemma first_decision_record h path v :
  record_namespace h (first_record h path) = Some v →
  first_decision (namespaceOverride h <$> path) = override_of (Some v).
Proof.
  induction path as [|s path IH]; [done|].
  rewrite fmap_cons. cbn [first_decision first_record].
  rewrite (namespaceOverride_unfold h s).
  destruct (own_record h s) as [m|] eqn:Hm.
  - intros ->. simpl. by case_decide.
  - intros Hv. simpl. auto.
Qed.

Lemma first_decision_head_unset h s path :
  record_namespace h (first_record h (s :: path)) = None →
  namespaceOverride h s = Unset.
Proof.
  simpl. unfold namespaceOverride.
  destruct (own_record h s) as [m|]; [by intros ->|done].
Qed.

Lemma decided_nonempty h path :
  decided (first_decision (namespaceOverride h <$> path)) ≠ Some EmptyString.
Proof.
  induction path as [|s path IH]; [done|].
  rewrite fmap_cons. cbn [first_decision].
  rewrite (namespaceOverride_unfold h s).
  destruct (record_namespace h (own_record h s)) as [v|]; simpl; [|done].
  case_decide; simpl; congruence.
Qed.

Lemma resolveNamespace_run h s path fuel :
  wf_heap h → ancestry h s path → length path ≤ fuel →
  Metadata.resolveNamespace fuel (Some s) h =
    Some (decided (first_decision (namespaceOverride h <$> path)), h).
Proof.
  intros Hwf Hpath. revert fuel.
  induction Hpath as [s c Hs Hroot|s c p path Hs Hp Hpath IH];
    intros [|fuel] Hfuel; simpl in Hfuel; try lia.
  - cbn [Metadata.resolveNamespace]. unfold bind at 1.
    rewrite (lookupMetadata_run h s [s]) by (by eapply ancestry_root || (simpl; lia)).
    destruct (first_record h [s]) as [m|] eqn:Hm.
    + destruct (first_record_valid h _ m Hwf Hm) as [cm Hcm].
      unfold bind at 1. rewrite (get_namespace_run h m cm Hcm), <-Hm.
      destruct (record_namespace h (first_record h [s])) as [v|] eqn:Hv.
      * rewrite (first_decision_record h [s] v Hv).
        unfold bind, ret. simpl. repeat case_decide; simplify_eq; done.
      * rewrite fmap_cons. simpl.
        rewrite (first_decision_head_unset h s [] Hv).
        unfold bind. by rewrite (scope_run h s c Hs), Hroot, resolveNamespace_None.
    + simpl in Hm. unfold namespaceOverride. simpl.
      destruct (own_record h s); [done|]. simpl.
      unfold bind, ret.
      by rewrite (scope_run h s c Hs), Hroot, resolveNamespace_None.
  - cbn [Metadata.resolveNamespace]. unfold bind at 1.
    rewrite (lookupMetadata_run h s (s :: path))
      by (by eapply ancestry_step || (simpl; lia)).
    assert (Hup : Metadata.resolveNamespace fuel (Some p) h =
              Some (decided (first_decision (namespaceOverride h <$> path)), h))
      by (apply IH; lia).
    assert (Hkeep : ∀ r,
      r = decided (first_decision (namespaceOverride h <$> path)) →
      (if decide (r = Some EmptyString) then None else r) = r).
    { intros r ->. case_decide as E; [|done]. by apply decided_nonempty in E. }
    destruct (first_record h (s :: path)) as [m|] eqn:Hm.
    + destruct (first_record_valid h _ m Hwf Hm) as [cm Hcm].
      unfold bind at 1. rewrite (get_namespace_run h m cm Hcm), <-Hm.
      destruct (record_namespace h (first_record h (s :: path))) as [v|] eqn:Hv.
      * rewrite (first_decision_record h (s :: path) v Hv).
        unfold bind, ret. simpl. repeat case_decide; simplify_eq; done.
      * rewrite fmap_cons. simpl.
        rewrite (first_decision_head_unset h s path Hv).
        unfold bind. rewrite (scope_run h s c Hs), Hp, Hup.
        unfold ret. by rewrite Hkeep.
    + assert (Hunset : namespaceOverride h s = Unset).
      { apply (first_decision_head_unset h s path). by rewrite Hm. }
      rewrite fmap_cons. simpl. rewrite Hunset.
      unfold bind, ret. rewrite (scope_run h s c Hs), Hp, Hup.
      by rewrite Hkeep.
Qed.

(** ** Label resolution *)

Lemma overlay_idemp inherited overrides :
  overlay (overlay inherited overrides) overrides = overlay inherited overrides.
Proof.
  apply map_eq; intros k. rewrite !lookup_overlay.
  by destruct (overrides !! k) as [[?|]|].
Qed.

Lemma NoDup_record_labels h m :
  wf_heap h → NoDup (Js.keys (default [] (record_labels h m))).
Proof.
  intros Hwf. destruct (record_labels h m) as [L|] eqn:HL; [|constructor].
  simpl. unfold record_labels, record_fields in HL.
  destruct m as [m|]; [|done]. simpl in HL.
  destruct (h !! m) as [c|] eqn:Hm; [|done]. simpl in HL.
  destruct (fields c) as [f|] eqn:Hf; [|done]. simpl in HL.
  by eapply (wf_labels h Hwf).
Qed.

Lemma proto_record_labels h m :
  wf_heap h → Js.own (default [] (record_labels h m)) "__proto__" = None.
Proof.
  intros Hwf. destruct (record_labels h m) as [L|] eqn:HL; [|done].
  simpl. unfold record_labels, record_fields in HL.
  destruct m as [m|]; [|done]. simpl in HL.
  destruct (h !! m) as [c|] eqn:Hm; [|done]. simpl in HL.
  destruct (fields c) as [f|] eqn:Hf; [|done]. simpl in HL.
  by eapply (wf_proto h Hwf).
Qed.

Lemma stored_labels h m c f L :
  wf_heap h → h !! m = Some c → fields c = Some f → labels f = Some L →
  NoDup (Js.keys L) ∧ Js.own L "__proto__" = None.
Proof.
  intros Hwf Hm Hf HL.
  split; [by eapply (wf_labels h Hwf) | by eapply (wf_proto h Hwf)].
Qed.

Lemma labelOverrides_unfold h s :
  labelOverrides h s =
    Js.to_map (default [] (record_labels h (own_record h s))).
Proof. done. Qed.

Lemma resolved_labels_proto h path :
  wf_heap h → resolved_labels h path !! "__proto__" = None.
Proof.
  intros Hwf. induction path as [|a path IH]; simpl; [done|].
  rewrite lookup_overlay, labelOverrides_unfold, to_map_lookup.
  by rewrite proto_record_labels.
Qed.

(** One level of the walk: overlaying the labels of the nearest record on
    the labels resolved for the rest of the path. *)
Lemma resolve_level h s path (P : JsObject string) :
  wf_heap h →
  NoDup (Js.keys P) →
  Js.to_map P = resolved_labels h path →
  overlay (Js.to_map P) (nearest_labels h path) = Js.to_map P →
  let X := filterUndefined
             (spread2 (Some (lift P))
                (default [] (record_labels h (first_record h (s :: path))))) in
  NoDup (Js.keys X) ∧
  Js.to_map X = resolved_labels h (s :: path) ∧
  overlay (Js.to_map X) (nearest_labels h (s :: path)) = Js.to_map X.
Proof.
  intros Hwf HP Hres Habs X.
  assert (HX : Js.to_map X =
            overlay (Js.to_map P) (nearest_labels h (s :: path))).
  { apply to_map_resolve_step;
      [done | by apply NoDup_record_labels | | by apply proto_record_labels].
    rewrite <-to_map_lookup, Hres. by apply resolved_labels_proto. }
  split; [apply NoDup_filterUndefined|].
  cbn [resolved_labels]. rewrite labelOverrides_unfold.
  revert HX. unfold nearest_labels. cbn [first_record].
  destruct (own_record h s) as [m|].
  - intros ->. rewrite <-Hres. split; [done | apply overlay_idemp].
  - intros ->. fold (nearest_labels h path). rewrite Habs. simpl.
    by rewrite overlay_empty.
Qed.

Lemma resolveLabels_run h s path fuel :
  wf_heap h → ancestry h s path → length path ≤ fuel →
  ∃ X, Metadata.resolveLabels fuel (Some s) h = Some (X, h) ∧
       NoDup (Js.keys X) ∧
       Js.to_map X = resolved_labels h path ∧
       overlay (Js.to_map X) (nearest_labels h path) = Js.to_map X.
Proof.
  intros Hwf Hpath. revert fuel.
  assert (Hlevel : ∀ s c path fuel (P : JsObject string),
    h !! s = Some c → ancestry h s (s :: path) → length (s :: path) ≤ S fuel →
    Metadata.resolveLabels fuel (node_scope c) h = Some (P, h) →
    NoDup (Js.keys P) →
    Js.to_map P = resolved_labels h path →
    overlay (Js.to_map P) (nearest_labels h path) = Js.to_map P →
    ∃ X, Metadata.resolveLabels (S fuel) (Some s) h = Some (X, h) ∧
         NoDup (Js.keys X) ∧
         Js.to_map X = resolved_labels h (s :: path) ∧
         overlay (Js.to_map X) (nearest_labels h (s :: path)) = Js.to_map X).
  { clear s path Hpath. intros s c path fuel P Hs Hpath Hfuel HP ? ? ?.
    cbn [Metadata.resolveLabels]. unfold bind at 1.
    rewrite (scope_run h s c Hs). unfold bind at 1. rewrite HP.
    unfold bind at 1. rewrite (lookupMetadata_run h s (s :: path)) by done.
    destruct (first_record h (s :: path)) as [m|] eqn:Hm.
    - destruct (first_record_valid h _ m Hwf Hm) as [cm Hcm].
      unfold bind, ret. rewrite (get_labels_run h m cm Hcm), <-Hm.
      eexists. split; [done|]. by apply resolve_level.
    - unfold bind, ret. eexists. split; [done|].
      pose proof (resolve_level h s path P Hwf) as Hl.
      rewrite Hm in Hl. by apply Hl. }
  induction Hpath as [s c Hs Hroot|s c p path Hs Hp Hpath IH];
    intros [|fuel] Hfuel; simpl in Hfuel; try lia.
  - apply (Hlevel s c [] fuel []); try done.
    + by eapply ancestry_root.
    + by rewrite Hroot, resolveLabels_None.
    + constructor.
  - destruct (IH fuel) as (P & HP & ? & ? & ?); [lia|].
    apply (Hlevel s c path fuel P); try done; try (simpl; lia).
    + by eapply ancestry_step.
    + by rewrite Hp.
Qed.

Lemma resolveLabels_direct_None fuel h :
  resolveLabels_direct fuel None h = Some ([], h).
Proof. by destruct fuel. Qed.

(** ** Writes to the store *)

Lemma put_labels_run h m c f v :
  h !! m = Some c → fields c = Some f →
  Metadata.put_labels m v h =
    Some (tt, update_fields h m c {| labels := Some v; namespace := namespace f |}).
Proof.
  intros Hm Hf. unfold Metadata.put_labels, Metadata.set_fields, store.
  run_monad. by rewrite Hm, Hf.
Qed.

Lemma put_namespace_run h m c f v :
  h !! m = Some c → fields c = Some f →
  Metadata.put_namespace m v h =
    Some (tt, update_fields h m c {| labels := labels f; namespace := Some v |}).
Proof.
  intros Hm Hf. unfold Metadata.put_namespace, Metadata.set_fields, store.
  run_monad. by rewrite Hm, Hf.
Qed.

Lemma addLabels_run h m c f l :
  h !! m = Some c → fields c = Some f →
  Metadata.addLabels m l h =
    Some (tt, update_fields h m c
                {| labels := Some (sortByKey (spread2 (labels f) l));
                   namespace := namespace f |}).
Proof.
  intros Hm Hf. unfold Metadata.addLabels. unfold bind at 1.
  unfold Metadata.this_fields, bind, deref, ret. rewrite Hm, Hf.
  fold (@bind (option Labels) unit). unfold bind.
  unfold Metadata.get_labels, bind, deref, ret. rewrite Hm, Hf.
  by apply put_labels_run.
Qed.

Lemma addNamespace_run h m c f v :
  h !! m = Some c → fields c = Some f →
  Metadata.addNamespace m v h =
    Some (tt, update_fields h m c
                {| labels := labels f;
                   namespace := Some (default EmptyString v) |}).
Proof.
  intros Hm Hf. unfold Metadata.addNamespace. unfold bind at 1.
  unfold Metadata.this_fields, bind, deref, ret. rewrite Hm, Hf.
  destruct v; by apply put_namespace_run.
Qed.

Lemma create_root_run h id f :
  Node.create None id f h =
    Some (length h, h ++ [{| node_scope := None; node_id := id;
                             node_children := []; fields := f |}]).
Proof. done. Qed.

Lemma create_run h p o id f :
  h !! p = Some o → Js.own (node_children o) id = None →
  Node.create (Some p) id f h = Some (length h, attach h p o id f).
Proof.
  intros Hp Hid. unfold Node.create, alloc, store. run_monad.
  by rewrite Hp, Hid.
Qed.

Lemma create_inv h sc id f r h' :
  Node.create sc id f h = Some (r, h') →
  r = length h ∧
  match sc with
  | None => h' = h ++ [{| node_scope := None; node_id := id;
                          node_children := []; fields := f |}]
  | Some p => ∃ o, h !! p = Some o ∧ Js.own (node_children o) id = None ∧
                   h' = attach h p o id f
  end.
Proof.
  destruct sc as [p|].
  - unfold Node.create, alloc, store. run_monad.
    destruct (h !! p) as [o|] eqn:Hp; [|done].
    destruct (Js.own (node_children o) id) eqn:Hid; [done|].
    intros; simplify_eq. eauto.
  - rewrite create_root_run. intros; by simplify_eq.
Qed.

(** *** Updating fields keeps the tree *)

Section update_fields.
Context (h : Heap) (m : ref) (c : Construct) (f : MetadataFields).
Context (Hm : h !! m = Some c).

Lemma update_fields_lookup r :
  update_fields h m c f !! r =
    if decide (r = m)
    then Some {| node_scope := node_scope c; node_id := node_id c;
                 node_children := node_children c; fields := Some f |}
    else h !! r.
Proof.
  unfold update_fields. case_decide; subst.
  - apply list_lookup_insert_eq. by eapply lookup_lt_Some.
  - by apply list_lookup_insert_ne.
Qed.

Lemma update_fields_scope r :
  node_scope <$> update_fields h m c f !! r = node_scope <$> h !! r.
Proof. rewrite update_fields_lookup. case_decide; simplify_eq; by rewrite ?Hm. Qed.

Lemma update_fields_children r :
  node_children <$> update_fields h m c f !! r = node_children <$> h !! r.
Proof. rewrite update_fields_lookup. case_decide; simplify_eq; by rewrite ?Hm. Qed.

Lemma update_fields_own_record s :
  own_record (update_fields h m c f) s = own_record h s.
Proof.
  unfold own_record. rewrite update_fields_lookup.
  case_decide; simplify_eq; by rewrite ?Hm.
Qed.

Lemma update_fields_first_record path :
  first_record (update_fields h m c f) path = first_record h path.
Proof.
  induction path as [|s path IH]; simpl; [done|].
  by rewrite update_fields_own_record, IH.
Qed.

Lemma update_fields_record_fields r :
  record_fields (update_fields h m c f) r =
    if decide (r = m) then Some f else record_fields h r.
Proof.
  unfold record_fields. rewrite update_fields_lookup. by case_decide.
Qed.

Lemma update_fields_child_count s :
  child_count (update_fields h m c f) s = child_count h s.
Proof.
  unfold child_count. rewrite update_fields_lookup.
  case_decide; simplify_eq; by rewrite ?Hm.
Qed.

Lemma update_fields_ancestry s path :
  ancestry h s path → ancestry (update_fields h m c f) s path.
Proof.
  induction 1 as [s c' Hs Hroot|s c' p path Hs Hp Hpath IH].
  - pose proof (update_fields_scope s) as Hsc. rewrite Hs in Hsc.
    destruct (update_fields h m c f !! s) as [c''|] eqn:E; [|done].
    eapply ancestry_root; [done|]. simpl in Hsc. congruence.
  - pose proof (update_fields_scope s) as Hsc. rewrite Hs in Hsc.
    destruct (update_fields h m c f !! s) as [c''|] eqn:E; [|done].
    eapply ancestry_step; [done| |done]. simpl in Hsc. congruence.
Qed.

Lemma update_fields_wf :
  (∀ L, labels f = Some L →
        NoDup (Js.keys L) ∧ Js.own L "__proto__" = None) →
  wf_heap h → wf_heap (update_fields h m c f).
Proof.
  intros Hf Hwf. split.
  - intros s c' p Hs Hp. pose proof (update_fields_scope s) as Hsc.
    rewrite Hs in Hsc. destruct (h !! s) as [c0|] eqn:E; [|done].
    simpl in Hsc. eapply (wf_scope h Hwf s c0 p); [done | congruence].
  - intros p c' id k Hp Hk. pose proof (update_fields_children p) as Hch.
    rewrite Hp in Hch. destruct (h !! p) as [c0|] eqn:E; [|done].
    simpl in Hch. simplify_eq.
    destruct (wf_child h Hwf p c0 id k E) as (ck & Hck & Hsk); [congruence|].
    pose proof (update_fields_scope k) as Hsc. rewrite Hck in Hsc.
    destruct (update_fields h m c f !! k) as [ck'|]; [|done].
    exists ck'. split; [done|]. simpl in Hsc. congruence.
  - intros r c' f' L Hr Hf' HL. rewrite update_fields_lookup in Hr.
    case_decide; simplify_eq/=; [by apply Hf|].
    by eapply (wf_labels h Hwf).
  - intros r c' f' L Hr Hf' HL. rewrite update_fields_lookup in Hr.
    case_decide; simplify_eq/=; [by apply Hf|].
    by eapply (wf_proto h Hwf).
Qed.

End update_fields.

(** *** Creating a construct *)

Section attach.
Context (h : Heap) (p : ref) (o : Construct) (id : string).
Context (f : option MetadataFields).
Context (Hp : h !! p = Some o).

Lemma attach_length : length (attach h p o id f) = S (length h).
Proof. unfold attach. rewrite length_insert, length_app. simpl. lia. Qed.

Lemma attach_lookup r :
  attach h p o id f !! r =
    if decide (r = p)
    then Some {| node_scope := node_scope o; node_id := node_id o;
                 node_children := Js.set (node_children o) id (length h);
                 fields := fields o |}
    else if decide (r = length h)
    then Some {| node_scope := Some p; node_id := id;
                 node_children := []; fields := f |}
    else h !! r.
Proof.
  pose proof (lookup_lt_Some _ _ _ Hp) as Hlt. unfold attach.
  case_decide; subst.
  - apply list_lookup_insert_eq. rewrite length_app. simpl. lia.
  - rewrite list_lookup_insert_ne by done. case_decide; subst.
    + by rewrite lookup_app_r, Nat.sub_diag.
    + destruct (decide (r < length h)).
      * by rewrite lookup_app_l.
      * rewrite !lookup_ge_None_2; [done|lia|].
        rewrite length_app. simpl. lia.
Qed.

Lemma attach_lookup_old r c :
  h !! r = Some c → r ≠ p → attach h p o id f !! r = Some c.
Proof.
  intros Hr Hne. rewrite attach_lookup, decide_False by done.
  rewrite decide_False; [done|]. apply lookup_lt_Some in Hr. lia.
Qed.

Lemma attach_wf :
  (∀ f' L, f = Some f' → labels f' = Some L →
           NoDup (Js.keys L) ∧ Js.own L "__proto__" = None) →
  wf_heap h → wf_heap (attach h p o id f).
Proof.
  intros Hf Hwf. pose proof (lookup_lt_Some _ _ _ Hp) as Hlt. split.
  - intros s c q. rewrite attach_lookup.
    repeat case_decide; intros; simplify_eq/=; try lia.
    + by eapply (wf_scope h Hwf p o q).
    + by eapply (wf_scope h Hwf s c q).
  - intros q c id' k. rewrite attach_lookup.
    destruct (decide (q = p)) as [->|Hqp];
      [|destruct (decide (q = length h)) as [->|Hql]].
    + intros ?; simplify_eq/=. rewrite own_set.
      destruct (decide (id = id')) as [<-|Hid].
      * intros [= <-]. rewrite attach_lookup.
        rewrite decide_False by lia. rewrite decide_True by done. eauto.
      * intros Hk. destruct (wf_child h Hwf p o id' k Hp Hk) as (ck & Hck & Hs).
        exists ck. split; [|done]. apply attach_lookup_old; [done|].
        pose proof (wf_scope h Hwf k ck p Hck Hs). lia.
    + by intros ?; simplify_eq/=.
    + intros Hq Hk. destruct (wf_child h Hwf q c id' k Hq Hk) as (ck & Hck & Hs).
      destruct (decide (k = p)) as [->|Hkp].
      * rewrite attach_lookup, decide_True by done. simplify_eq. eauto.
      * exists ck. split; [|done]. by apply attach_lookup_old.
  - intros r c f' L. rewrite attach_lookup.
    repeat case_decide; intros; simplify_eq/=.
    + by eapply (wf_labels h Hwf p o).
    + by eapply Hf.
    + by eapply (wf_labels h Hwf r c).
  - intros r c f' L. rewrite attach_lookup.
    repeat case_decide; intros; simplify_eq/=.
    + by eapply (wf_proto h Hwf p o).
    + by eapply Hf.
    + by eapply (wf_proto h Hwf r c).
Qed.

End attach.

Lemma create_root_wf h id f :
  (∀ f' L, f = Some f' → labels f' = Some L →
           NoDup (Js.keys L) ∧ Js.own L "__proto__" = None) →
  wf_heap h →
  wf_heap (h ++ [{| node_scope := None; node_id := id;
                    node_children := []; fields := f |}]).
Proof.
  intros Hf Hwf.
  assert (Hl : ∀ r c,
    (h ++ [{| node_scope := None; node_id := id;
              node_children := []; fields := f |}]) !! r = Some c →
    h !! r = Some c ∨
    c = {| node_scope := None; node_id := id;
           node_children := []; fields := f |}).
  { intros r c Hr. apply lookup_app_Some in Hr as [Hr|[_ Hr]]; [by left|].
    right. apply list_lookup_singleton_Some in Hr as [_ ?]. done. }
  split.
  - intros s c q Hs Hq. apply Hl in Hs as [Hs| ->]; [|done].
    by eapply (wf_scope h Hwf).
  - intros q c id' k Hq Hk. apply Hl in Hq as [Hq| ->]; [|done].
    destruct (wf_child h Hwf q c id' k Hq Hk) as (ck & Hck & Hs).
    exists ck. split; [|done]. by apply lookup_app_l_Some.
  - intros r c f' L Hr Hf' HL. apply Hl in Hr as [Hr| ->].
    + by eapply (wf_labels h Hwf).
    + by eapply Hf.
  - intros r c f' L Hr Hf' HL. apply Hl in Hr as [Hr| ->].
    + by eapply (wf_proto h Hwf).
    + by eapply Hf.
Qed.

Lemma create_wf h sc id f r h' :
  (∀ f' L, f = Some f' → labels f' = Some L →
           NoDup (Js.keys L) ∧ Js.own L "__proto__" = None) →
  wf_heap h → Node.create sc id f h = Some (r, h') → wf_heap h'.
Proof.
  intros Hf Hwf Hc. apply create_inv in Hc as [_ Hc].
  destruct sc as [p|].
  - destruct Hc as (o & Hp & _ & ->). by apply attach_wf.
  - subst. by apply create_root_wf.
Qed.

(** *** The methods keep the store well-formed *)

Lemma this_fields_inv h this r h' :
  Metadata.this_fields this h = Some (r, h') →
  h' = h ∧ h !! this = Some r.1 ∧ fields r.1 = Some r.2.
Proof.
  run_monad. destruct (h !! this) as [c|]; [|done].
  destruct (fields c) eqn:Hf; [|done]. intros; by simplify_eq/=.
Qed.

Lemma addLabels_inv h this l h' :
  Metadata.addLabels this l h = Some (tt, h') →
  ∃ c f, h !! this = Some c ∧ fields c = Some f ∧
    h' = update_fields h this c
           {| labels := Some (sortByKey (spread2 (labels f) l));
              namespace := namespace f |}.
Proof.
  intros Hrun.
  destruct (Metadata.this_fields this h) as [[[c f] h0]|] eqn:Hthis.
  - apply this_fields_inv in Hthis as (-> & Hc & Hf). simpl in *.
    rewrite (addLabels_run h this c f l Hc Hf) in Hrun.
    exists c, f. by simplify_eq.
  - unfold Metadata.addLabels, bind in Hrun. by rewrite Hthis in Hrun.
Qed.

Lemma addNamespace_inv h this v h' :
  Metadata.addNamespace this v h = Some (tt, h') →
  ∃ c f, h !! this = Some c ∧ fields c = Some f ∧
    h' = update_fields h this c
           {| labels := labels f; namespace := Some (default EmptyString v) |}.
Proof.
  intros Hrun.
  destruct (Metadata.this_fields this h) as [[[c f] h0]|] eqn:Hthis.
  - apply this_fields_inv in Hthis as (-> & Hc & Hf). simpl in *.
    rewrite (addNamespace_run h this c f v Hc Hf) in Hrun.
    exists c, f. by simplify_eq.
  - unfold Metadata.addNamespace, bind in Hrun. by rewrite Hthis in Hrun.
Qed.

Lemma of_inv h s m h' :
  Metadata.of_ s h = Some (m, h') →
  (own_record h s = Some m ∧ h' = h) ∨
  (own_record h s = None ∧ m = length h ∧
   ∃ o, h !! s = Some o ∧
        h' = attach h s o Metadata.id
               (Some {| labels := None; namespace := None |})).
Proof.
  unfold Metadata.of_, bind at 1.
  destruct (h !! s) as [c|] eqn:Hs.
  - rewrite (tryGetMetadata_run h s c Hs).
    destruct (own_record h s) as [m'|] eqn:Hm.
    + unfold ret. intros; simplify_eq. by left.
    + unfold Metadata.new. intros Hc. apply create_inv in Hc as [-> Hc].
      destruct Hc as (o & Ho & _ & ->). right. simplify_eq. eauto.
  - run_monad. by rewrite Hs.
Qed.

Lemma run_wf h c h' : wf_heap h → run c h = Some (tt, h') → wf_heap h'.
Proof.
  intros Hwf. destruct c as [sc id|s|md l|md l|md v|md]; simpl.
  - unfold bind. destruct (Node.create sc id None h) as [[r h0]|] eqn:Hc; [|done].
    unfold ret. intros; simplify_eq.
    eapply (create_wf h sc id None); [|done|done]. intros; simplify_eq.
  - unfold bind. destruct (Metadata.of_ s h) as [[m h0]|] eqn:Hof; [|done].
    unfold ret. intros; simplify_eq.
    apply of_inv in Hof as [[_ ->]|(_ & _ & o & Ho & ->)]; [done|].
    apply attach_wf; [done| |done]. intros; by simplify_eq/=.
  - intros (c & f & Hc & Hf & ->)%addLabels_inv.
    apply update_fields_wf; [done| |done].
    simpl. intros; simplify_eq. apply stored_sortByKey.
  - intros (c & f & Hc & Hf & ->)%addLabels_inv.
    apply update_fields_wf; [done| |done].
    simpl. intros; simplify_eq. apply stored_sortByKey.
  - intros (c & f & Hc & Hf & ->)%addNamespace_inv.
    apply update_fields_wf; [done| |done].
    simpl. intros. split;
      [by eapply (wf_labels h Hwf md c f) | by eapply (wf_proto h Hwf md c f)].
  - intros (c & f & Hc & Hf & ->)%addNamespace_inv.
    apply update_fields_wf; [done| |done].
    simpl. intros. split;
      [by eapply (wf_labels h Hwf md c f) | by eapply (wf_proto h Hwf md c f)].
Qed.

Lemma wf_heap_empty : wf_heap [].
Proof. split; intros *; by rewrite lookup_nil. Qed.

Lemma reachable_wf h : reachable h → wf_heap h.
Proof.
  induction 1 as [|h c h' _ IH Hrun]; [apply wf_heap_empty|].
  by eapply run_wf.
Qed.

(** ** The reads never write *)

Lemma bind_inv {A B} (m : M A) (f : A → M B) h b h' :
  bind m f h = Some (b, h') →
  ∃ a h0, m h = Some (a, h0) ∧ f a h0 = Some (b, h').
Proof. unfold bind. destruct (m h) as [[a h0]|]; [eauto | done]. Qed.

Lemma deref_frame r h c h' : deref r h = Some (c, h') → h' = h.
Proof. unfold deref. destruct (h !! r); intros; by simplify_eq. Qed.

Lemma ret_inv {A} (a b : A) h h' : ret a h = Some (b, h') → b = a ∧ h' = h.
Proof. unfold ret. intros; by simplify_eq. Qed.

Lemma tryGetMetadata_frame s h r h' :
  Metadata.tryGetMetadata s h = Some (r, h') → h' = h.
Proof.
  unfold Metadata.tryGetMetadata, Node.tryFindChild.
  intros (c & h0 & ->%deref_frame & [_ ->]%ret_inv)%bind_inv. done.
Qed.

Lemma scope_frame s h r h' : Node.scope s h = Some (r, h') → h' = h.
Proof.
  unfold Node.scope.
  intros (c & h0 & ->%deref_frame & [_ ->]%ret_inv)%bind_inv. done.
Qed.

Lemma get_namespace_frame m h r h' :
  Metadata.get_namespace m h = Some (r, h') → h' = h.
Proof.
  unfold Metadata.get_namespace.
  intros (c & h0 & ->%deref_frame & [_ ->]%ret_inv)%bind_inv. done.
Qed.

Lemma get_labels_frame m h r h' :
  Metadata.get_labels m h = Some (r, h') → h' = h.
Proof.
  unfold Metadata.get_labels.
  intros (c & h0 & ->%deref_frame & [_ ->]%ret_inv)%bind_inv. done.
Qed.

Lemma lookupMetadata_frame fuel scope h r h' :
  Metadata.lookupMetadata fuel scope h = Some (r, h') → h' = h.
Proof.
  revert scope h r h'. induction fuel as [|fuel IH]; intros [s|] h r h';
    simpl; try done; try by intros [_ ->]%ret_inv.
  intros (md & h0 & ->%tryGetMetadata_frame & Hk)%bind_inv.
  destruct md as [m|]; [by apply ret_inv in Hk as [_ ->]|].
  apply bind_inv in Hk as (p & h1 & ->%scope_frame & Hk). by eapply IH.
Qed.

Lemma resolveNamespace_frame fuel scope h r h' :
  Metadata.resolveNamespace fuel scope h = Some (r, h') → h' = h.
Proof.
  revert scope h r h'. induction fuel as [|fuel IH]; intros [s|] h r h';
    simpl; try done; try by intros [_ ->]%ret_inv.
  intros (md & h0 & Hmd & Hk)%bind_inv.
  apply (lookupMetadata_frame (S fuel) (Some s)) in Hmd as ->.
  apply bind_inv in Hk as (ns & h1 & Hns & Hk).
  assert (h1 = h) as ->.
  { destruct md; [by eapply get_namespace_frame|].
    by apply ret_inv in Hns as [_ ->]. }
  apply bind_inv in Hk as (res & h2 & Hres & [_ ->]%ret_inv).
  destruct ns; [by apply ret_inv in Hres as [_ ->]|].
  apply bind_inv in Hres as (p & h3 & ->%scope_frame & Hres). by eapply IH.
Qed.

Lemma resolveLabels_frame fuel scope h r h' :
  Metadata.resolveLabels fuel scope h = Some (r, h') → h' = h.
Proof.
  revert scope h r h'. induction fuel as [|fuel IH]; intros [s|] h r h';
    simpl; try done; try by intros [_ ->]%ret_inv.
  intros (p & h0 & ->%scope_frame & Hk)%bind_inv.
  apply bind_inv in Hk as (inh & h1 & ->%IH & Hk).
  apply bind_inv in Hk as (md & h2 & Hmd & Hk).
  apply (lookupMetadata_frame (S fuel) (Some s)) in Hmd as ->.
  apply bind_inv in Hk as (own & h3 & Hown & [_ ->]%ret_inv).
  destruct md; [by eapply get_labels_frame|].
  by apply ret_inv in Hown as [_ ->].
Qed.

(** [resolveLabels] never returns an entry under [__proto__]: its result
    is empty or built by the assignments of [filterUndefined]. *)
Lemma resolveLabels_proto fuel scope h r h' :
  Metadata.resolveLabels fuel scope h = Some (r, h') →
  Js.own r "__proto__" = None.
Proof.
  destruct fuel as [|fuel], scope as [s|]; simpl;
    try done; try by intros [-> _]%ret_inv.
  intros (p & h0 & _ & Hk)%bind_inv.
  apply bind_inv in Hk as (inh & h1 & _ & Hk).
  apply bind_inv in Hk as (md & h2 & _ & Hk).
  apply bind_inv in Hk as (own & h3 & _ & [-> _]%ret_inv).
  apply own_filterUndefined_proto.
Qed.

(** ** Stores built by a run of calls *)

Lemma run_all_reachable cs h h' :
  reachable h → run_all cs h = Some (tt, h') → reachable h'.
Proof.
  revert h. induction cs as [|c cs IH]; intros h Hh; simpl.
  - by intros [_ ->]%ret_inv.
  - intros ([] & h0 & Hc & Hcs)%bind_inv.
    eapply IH; [|done]. by eapply reachable_step.
Qed.

Lemma exec_reachable cs : reachable (exec cs).
Proof.
  unfold exec. destruct (run_all cs []) as [[[] h]|] eqn:Hrun.
  - eapply run_all_reachable; [apply reachable_empty | done].
  - apply reachable_empty.
Qed.

Lemma exec_wf cs : wf_heap (exec cs).
Proof. apply reachable_wf, exec_reachable. Qed.

Lemma family_ancestry : ancestry family 2 [2; 1; 0].
Proof.
  eapply ancestry_step; [reflexivity | reflexivity |].
  eapply ancestry_step; [reflexivity | reflexivity |].
  eapply ancestry_root; reflexivity.
Qed.

(** ** The order of own properties *)

Lemma digit_inj c1 c2 d : Js.digit c1 = Some d → Js.digit c2 = Some d → c1 = c2.
Proof.
  unfold Js.digit. intros H1 H2.
  destruct ((48 <=? N_of_ascii c1)%N && (N_of_ascii c1 <=? 57)%N) eqn:E1; [|done].
  destruct ((48 <=? N_of_ascii c2)%N && (N_of_ascii c2 <=? 57)%N) eqn:E2; [|done].
  apply andb_true_iff in E1 as [E1 _]. apply andb_true_iff in E2 as [E2 _].
  apply N.leb_le in E1, E2. simplify_eq.
  rewrite <-(ascii_N_embedding c1), <-(ascii_N_embedding c2).
  f_equal. lia.
Qed.

Lemma digit_lt c d : Js.digit c = Some d → (d < 10)%N.
Proof.
  unfold Js.digit.
  destruct ((48 <=? N_of_ascii c)%N && (N_of_ascii c <=? 57)%N) eqn:E; [|done].
  apply andb_true_iff in E as [E1 E2]. apply N.leb_le in E1, E2.
  intros; simplify_eq. lia.
Qed.

Lemma digit_zero c : Js.digit c = Some 0%N → c = "0"%char.
Proof. intros Hc. by apply (digit_inj c "0"%char 0%N). Qed.

(** The value of a digit string, with its length. *)
Lemma digits_acc s acc n :
  Js.digits s acc = Some n →
  ∃ v, Js.digits s 0 = Some v ∧ (v < 10 ^ N.of_nat (String.length s))%N ∧
       n = (acc * 10 ^ N.of_nat (String.length s) + v)%N.
Proof.
  revert acc n. induction s as [|c s IH]; intros acc n; simpl.
  - intros [= <-]. exists 0%N. split; [done|]. split; lia.
  - destruct (Js.digit c) as [d|] eqn:Hd; [|done]. intros Hn.
    pose proof (digit_lt c d Hd) as Hlt.
    destruct (IH _ _ Hn) as (v & Hv & Hvlt & ->).
    destruct (Js.digits s (10 * 0 + d)) as [w|] eqn:Hw.
    + destruct (IH _ _ Hw) as (v' & Hv' & _ & ->). simplify_eq.
      eexists. split; [done|].
      rewrite Nat2N.inj_succ, N.pow_succ_r'. split; nia.
    + assert (Hsome : is_Some (Js.digits s (10 * 0 + d))).
      { clear -Hv. revert Hv. generalize 0%N at 1. generalize (10 * 0 + d)%N.
        induction s as [|c' s IHs]; intros a b; simpl; [eauto|].
        destruct (Js.digit c'); [|done]. apply IHs. }
      rewrite Hw in Hsome. by destruct Hsome.
Qed.

Lemma digits_inj s1 s2 n :
  String.length s1 = String.length s2 →
  Js.digits s1 0 = Some n → Js.digits s2 0 = Some n → s1 = s2.
Proof.
  revert s2 n. induction s1 as [|c1 s1 IH]; intros [|c2 s2] n Hlen; try done.
  simpl in Hlen. simpl.
  destruct (Js.digit c1) as [d1|] eqn:Hd1; [|done].
  destruct (Js.digit c2) as [d2|] eqn:Hd2; [|done].
  intros (v1 & Hv1 & Hlt1 & ->)%digits_acc (v2 & Hv2 & Hlt2 & Heq)%digits_acc.
  assert (String.length s1 = String.length s2) as Hl by lia.
  rewrite Hl in *.
  revert Hlt1 Hlt2 Heq. generalize (10 ^ N.of_nat (String.length s2))%N.
  intros p Hlt1 Hlt2 Heq. rewrite !N.mul_0_r, !N.add_0_l in Heq.
  assert (d1 = d2) as ->.
  { destruct (N.lt_trichotomy d1 d2) as [Hd|[Hd|Hd]]; [nia|done|nia]. }
  assert (v1 = v2) as -> by lia.
  f_equal; [by eapply digit_inj | by eapply IH].
Qed.

Lemma array_index_digits k n :
  Js.array_index k = Some n →
  Js.digits k 0 = Some n ∧
  (k = "0" ∨ ∃ c rest d, k = String c rest ∧ Js.digit c = Some d ∧ (1 ≤ d)%N).
Proof.
  unfold Js.array_index. destruct k as [|c rest]; [done|].
  destruct (decide (c = "0"%char)) as [->|Hc].
  - destruct (decide (rest = EmptyString)) as [->|]; [|done].
    intros [= <-]. split; [done | by left].
  - destruct (Js.digits (String c rest) 0) as [m|] eqn:Hm; [|done].
    destruct (m <? 4294967295)%N; [|done]. intros [= <-]. split; [done|].
    right. simpl in Hm. destruct (Js.digit c) as [d|] eqn:Hd; [|done].
    exists c, rest, d. split; [done|]. split; [done|].
    destruct (decide (d = 0%N)) as [->|]; [|lia].
    by apply digit_zero in Hd.
Qed.

Lemma digits_length_bounds c rest d n :
  Js.digit c = Some d → (1 ≤ d)%N → Js.digits (String c rest) 0 = Some n →
  (10 ^ N.of_nat (String.length rest) ≤ n
   < 10 ^ N.of_nat (S (String.length rest)))%N.
Proof.
  intros Hd Hd1. simpl. rewrite Hd.
  intros (v & Hv & Hlt & ->)%digits_acc.
  pose proof (digit_lt c d Hd).
  rewrite Nat2N.inj_succ, N.pow_succ_r'. nia.
Qed.

Lemma array_index_inj k1 k2 n :
  Js.array_index k1 = Some n → Js.array_index k2 = Some n → k1 = k2.
Proof.
  intros [Hv1 Hk1]%array_index_digits [Hv2 Hk2]%array_index_digits.
  apply (digits_inj k1 k2 n); [|done..].
  assert (Hpow : ∀ a b : nat, a < b → (10 ^ N.of_nat (S a) ≤ 10 ^ N.of_nat b)%N).
  { intros a b Hab. apply N.pow_le_mono_r; lia. }
  destruct Hk1 as [->|(c1 & r1 & d1 & -> & Hd1 & Hp1)],
           Hk2 as [->|(c2 & r2 & d2 & -> & Hd2 & Hp2)]; try done.
  - simpl in Hv1. simplify_eq.
    pose proof (digits_length_bounds c2 r2 d2 _ Hd2 Hp2 Hv2) as [Hlo _].
    assert (0 < 10 ^ N.of_nat (String.length r2))%N; [|lia].
    apply N.neq_0_lt_0, N.pow_nonzero. lia.
  - simpl in Hv2. simplify_eq.
    pose proof (digits_length_bounds c1 r1 d1 _ Hd1 Hp1 Hv1) as [Hlo _].
    assert (0 < 10 ^ N.of_nat (String.length r1))%N; [|lia].
    apply N.neq_0_lt_0, N.pow_nonzero. lia.
  - pose proof (digits_length_bounds c1 r1 d1 _ Hd1 Hp1 Hv1) as [Hlo1 Hhi1].
    pose proof (digits_length_bounds c2 r2 d2 _ Hd2 Hp2 Hv2) as [Hlo2 Hhi2].
    simpl. f_equal.
    destruct (lt_eq_lt_dec (String.length r1) (String.length r2)) as [[Hlt|Heq]|Hlt];
      [|done|].
    + pose proof (Hpow _ _ Hlt). lia.
    + pose proof (Hpow _ _ Hlt). lia.
Qed.

Lemma key_before_trans k1 k2 k3 :
  key_before k1 k2 → key_before k2 k3 → key_before k1 k3.
Proof.
  unfold key_before.
  destruct (Js.array_index k1), (Js.array_index k2), (Js.array_index k3);
    try done; lia.
Qed.

Section ordered.
Context {V : Type}.
Implicit Types (o : JsObject V) (k : string) (v : V).

Lemma ordered_nil : ordered (@nil (string * V)).
Proof. split; constructor. Qed.

Lemma sorted_insert_index o n k v :
  Js.array_index k = Some n → k ∉ Js.keys o →
  StronglySorted key_before (Js.keys o) →
  StronglySorted key_before (Js.keys (Js.insert_index o n k v)).
Proof.
  intros Hk. unfold Js.keys.
  induction o as [|[k' v'] o IH]; simpl; intros Hnew Hs.
  { repeat constructor. }
  apply not_elem_of_cons in Hnew as [Hne Hnew].
  apply StronglySorted_cons in Hs as [Hall Hs].
  assert (Hpush : StronglySorted key_before (k :: k' :: o.*1) ↔
            key_before k k').
  { rewrite !StronglySorted_cons, Forall_cons. split; [by intros [[? _] _]|].
    intros Hkk'. repeat split; try done.
    eapply Forall_impl; [done|]. intros k''. by apply key_before_trans. }
  destruct (Js.array_index k') as [n'|] eqn:Hk'.
  - destruct (n' <? n)%N eqn:Hlt; simpl.
    + apply N.ltb_lt in Hlt. apply StronglySorted_cons. split; [|by apply IH].
      change (Forall (key_before k') (Js.keys (Js.insert_index o n k v))).
      rewrite keys_insert_index. apply Forall_cons. split; [|done].
      unfold key_before. by rewrite Hk', Hk.
    + apply N.ltb_ge in Hlt. apply Hpush. unfold key_before. rewrite Hk, Hk'.
      destruct (decide (n = n')) as [->|]; [|lia].
      destruct Hne. by eapply array_index_inj.
  - simpl. apply Hpush. unfold key_before. by rewrite Hk, Hk'.
Qed.

Lemma ordered_set o k v : ordered o → ordered (Js.set o k v).
Proof.
  intros [Hnd Hs]. split; [by apply NoDup_set|].
  unfold Js.set. destruct (Js.own o k) eqn:Hown.
  - by rewrite keys_replace.
  - apply own_None in Hown.
    destruct (Js.array_index k) as [n|] eqn:Hk.
    + by apply sorted_insert_index.
    + unfold Js.keys. rewrite fmap_app. simpl.
      apply StronglySorted_app_2; [|done|repeat constructor].
      intros k1 k2 _ ->%list_elem_of_singleton. unfold key_before.
      rewrite Hk. by destruct (Js.array_index k1).
Qed.

Lemma ordered_assign (t s : JsObject V) : ordered t → ordered (Js.assign t s).
Proof.
  unfold Js.assign. revert t.
  induction s as [|[k v] s IH]; intros t Ht; simpl; [done|].
  by apply IH, ordered_set.
Qed.

Lemma insert_index_last o n k v :
  Js.array_index k = Some n →
  Forall (λ k', key_before k' k) (Js.keys o) →
  Js.insert_index o n k v = o ++ [(k, v)].
Proof.
  intros Hk. unfold Js.keys.
  induction o as [|[k' v'] o IH]; simpl; [done|].
  intros [Hk' Hall]%Forall_cons. unfold key_before in Hk'. rewrite Hk in Hk'.
  destruct (Js.array_index k') as [n'|]; [|done].
  apply N.ltb_lt in Hk'. rewrite Hk'. f_equal. by apply IH.
Qed.

(** Setting the last entry of an object on the entries before it gives
    the object back. *)
Lemma set_last o k v : ordered (o ++ [(k, v)]) → Js.set o k v = o ++ [(k, v)].
Proof.
  intros [Hnd Hs]. unfold Js.keys in Hnd, Hs. rewrite fmap_app in Hnd, Hs.
  simpl in Hnd, Hs.
  assert (Hown : Js.own o k = None).
  { apply own_None. apply NoDup_app in Hnd as (_ & Hdisj & _).
    intros Hin. apply (Hdisj k Hin). left. }
  unfold Js.set. rewrite Hown.
  destruct (Js.array_index k) as [n|] eqn:Hk; [|done].
  apply insert_index_last; [done|]. apply Forall_forall. intros k' Hin.
  eapply (StronglySorted_app_1_elem_of _ _ _ k' k Hs); [done|left].
Qed.

Lemma ordered_app_l (o1 o2 : JsObject V) : ordered (o1 ++ o2) → ordered o1.
Proof.
  intros [Hnd Hs]. unfold Js.keys in Hnd, Hs. rewrite fmap_app in Hnd, Hs.
  split; [by apply NoDup_app in Hnd as (? & _)|].
  by eapply StronglySorted_app_1_l.
Qed.

(** Copying an object into an empty one gives the object back. *)
Lemma assign_nil_ordered o : ordered o → Js.assign [] o = o.
Proof.
  induction o as [|[k v] o IH] using rev_ind; [done|].
  intros Ho. unfold Js.assign. rewrite fold_left_app. simpl.
  fold (Js.assign [] o). rewrite IH by (by eapply ordered_app_l).
  by apply set_last.
Qed.

End ordered.

Lemma filterUndefined_defined obj :
  filterUndefined obj = Js.assign [] (defined (without_proto obj)).
Proof.
  rewrite filterUndefined_set. unfold Js.assign.
  generalize (@nil (string * string)). generalize (without_proto obj).
  intros o. induction o as [|[n [v|]] o IH]; intros r; simpl; [done|..];
    apply IH.
Qed.

Lemma own_assign_None {V} (t s : JsObject V) k :
  Js.own t k = None → Js.own s k = None → Js.own (Js.assign t s) k = None.
Proof.
  unfold Js.assign. revert t.
  induction s as [|[k' v'] s IH]; intros t Ht Hs; simpl in *; [done|].
  destruct (decide (k' = k)) as [->|Hne]; [done|].
  apply IH; [|done]. by rewrite own_set, decide_False.
Qed.

Lemma ordered_filterUndefined obj : ordered (filterUndefined obj).
Proof. rewrite filterUndefined_defined. apply ordered_assign, ordered_nil. Qed.

Lemma defined_lift P : defined (lift P) = P.
Proof.
  unfold defined, lift. induction P as [|[k v] P IH]; simpl; [done|].
  by f_equal.
Qed.

Lemma keys_lift P : Js.keys (lift P) = Js.keys P.
Proof.
  unfold Js.keys, lift. rewrite <-list_fmap_compose.
  apply list_fmap_ext. by intros ? [??].
Qed.

Lemma own_lift P k : Js.own (lift P) k = Some <$> Js.own P k.
Proof.
  unfold lift. induction P as [|[k' v] P IH]; simpl; [done|].
  by case_decide.
Qed.

Lemma ordered_lift P : ordered P → ordered (lift P).
Proof. unfold ordered. by rewrite keys_lift. Qed.

Lemma replace_same {V} (o : JsObject V) k v :
  Js.own o k = Some v → Js.replace o k v = o.
Proof.
  induction o as [|[k' v'] o IH]; simpl; [done|].
  case_decide; intros; simplify_eq; [done|]. f_equal. by apply IH.
Qed.

Lemma defined_insert_index_unset (o : Labels) n k :
  defined (Js.insert_index o n k None) = defined o.
Proof.
  unfold defined. induction o as [|[k' v'] o IH]; simpl; [done|].
  destruct (Js.array_index k') as [n'|]; [|done].
  destruct (n' <? n)%N; [|done]. cbn [omap list_omap]. by rewrite IH.
Qed.

(** Storing again what an object already says, or an unset marker under a
    new key, does not change its defined entries. *)
Lemma defined_set_absorbed (o : Labels) k ov :
  Js.own o k = Some ov ∨ (ov = None ∧ Js.own o k = None) →
  defined (Js.set o k ov) = defined o.
Proof.
  unfold Js.set. intros [Hown|[-> Hown]]; rewrite Hown.
  - by rewrite replace_same.
  - destruct (Js.array_index k); [apply defined_insert_index_unset|].
    unfold defined. rewrite omap_app. simpl. by rewrite (right_id_L [] (++)).
Qed.

Lemma defined_assign_absorbed (Z L : Labels) :
  NoDup (Js.keys L) →
  (∀ k ov, Js.own L k = Some ov →
           Js.own Z k = Some ov ∨ (ov = None ∧ Js.own Z k = None)) →
  defined (Js.assign Z L) = defined Z.
Proof.
  unfold Js.assign. revert Z.
  induction L as [|[k ov] L IH]; intros Z Hnd Habs; simpl; [done|].
  unfold Js.keys in Hnd. simpl in Hnd. apply NoDup_cons in Hnd as [Hk Hnd].
  rewrite IH; [|done|].
  - apply defined_set_absorbed, Habs. simpl. by rewrite decide_True.
  - intros k' ov' Hown'.
    assert (k ≠ k') as Hne.
    { intros ->. apply Hk. apply own_Some_elem in Hown'.
      by apply (list_elem_of_fmap_2 fst) in Hown'. }
    rewrite own_set, decide_False by done.
    apply Habs. simpl. by rewrite decide_False.
Qed.

(** By key, the labels of a record are absorbed by a mapping they were
    overlaid on. *)
Lemma absorbed_by_key (P : JsObject string) (L : Labels) :
  overlay (Js.to_map P) (Js.to_map L) = Js.to_map P →
  ∀ k ov, Js.own L k = Some ov →
          Js.own (lift P) k = Some ov ∨ (ov = None ∧ Js.own (lift P) k = None).
Proof.
  intros Habs k ov Hown. rewrite own_lift.
  assert (Hk : overlay (Js.to_map P) (Js.to_map L) !! k = Js.to_map P !! k)
    by (by rewrite Habs).
  rewrite lookup_overlay, !to_map_lookup, Hown in Hk.
  destruct ov as [v|]; rewrite <-Hk; [by left | by right].
Qed.

(** On a scope without a record of its own, overlaying the labels of the
    nearest record gives the same object as overlaying nothing. *)
Lemma resolve_level_same h s path (P : JsObject string) :
  wf_heap h → ordered P → Js.own P "__proto__" = None →
  overlay (Js.to_map P) (nearest_labels h path) = Js.to_map P →
  filterUndefined
    (spread2 (Some (lift P))
       (default [] (record_labels h (first_record h (s :: path)))))
  = filterUndefined
      (spread2 (Some (lift P))
         (default [] (record_labels h (own_record h s)))).
Proof.
  intros Hwf HP HPp Habs. cbn [first_record].
  destruct (own_record h s) as [m|]; [done|].
  fold (lift P). unfold spread2. simpl.
  rewrite (assign_nil_ordered (lift P)) by (by apply ordered_lift).
  assert (Hlp : Js.own (lift P) "__proto__" = None) by (by rewrite own_lift, HPp).
  rewrite !filterUndefined_defined. f_equal.
  rewrite !without_proto_id;
    [|done|by apply own_assign_None; [|apply proto_record_labels]].
  rewrite defined_assign_absorbed; [done|by apply NoDup_record_labels|].
  by apply absorbed_by_key.
Qed.

Lemma resolveLabels_unfold h s c path fuel (P : JsObject string) :
  wf_heap h → h !! s = Some c →
  ancestry h s (s :: path) → length (s :: path) ≤ S fuel →
  Metadata.resolveLabels fuel (node_scope c) h = Some (P, h) →
  Metadata.resolveLabels (S fuel) (Some s) h =
    Some (filterUndefined
            (spread2 (Some (lift P))
               (default [] (record_labels h (first_record h (s :: path))))),
          h).
Proof.
  intros Hwf Hs Hpath Hfuel HP.
  cbn [Metadata.resolveLabels]. unfold bind at 1.
  rewrite (scope_run h s c Hs). unfold bind at 1. rewrite HP.
  unfold bind at 1. rewrite (lookupMetadata_run h s (s :: path)) by done.
  destruct (first_record h (s :: path)) as [m|] eqn:Hm; [|done].
  destruct (first_record_valid h _ m Hwf Hm) as [cm Hcm].
  unfold bind, ret. by rewrite (get_labels_run h m cm Hcm).
Qed.

Lemma resolveLabels_direct_unfold h s c fuel (P : JsObject string) :
  wf_heap h → h !! s = Some c →
  resolveLabels_direct fuel (node_scope c) h = Some (P, h) →
  resolveLabels_direct (S fuel) (Some s) h =
    Some (filterUndefined
            (spread2 (Some (lift P))
               (default [] (record_labels h (own_record h s)))),
          h).
Proof.
  intros Hwf Hs HP.
  cbn [resolveLabels_direct]. unfold bind at 1.
  rewrite (scope_run h s c Hs). unfold bind at 1. rewrite HP.
  unfold bind at 1. rewrite (tryGetMetadata_run h s c Hs).
  destruct (own_record h s) as [m|] eqn:Hm; [|done].
  destruct (own_record_valid h s m Hwf Hm) as [cm Hcm].
  unfold bind, ret. by rewrite (get_labels_run h m cm Hcm).
Qed.

Lemma resolveLabels_agree h s path fuel :
  wf_heap h → ancestry h s path → length path ≤ fuel →
  ∃ X : JsObject string,
    Metadata.resolveLabels fuel (Some s) h = Some (X, h) ∧
    resolveLabels_direct fuel (Some s) h = Some (X, h) ∧
    ordered X.
Proof.
  intros Hwf Hpath. revert fuel.
  assert (Hlevel : ∀ s c path fuel (P : JsObject string),
    h !! s = Some c → ancestry h s (s :: path) → length (s :: path) ≤ S fuel →
    Metadata.resolveLabels fuel (node_scope c) h = Some (P, h) →
    resolveLabels_direct fuel (node_scope c) h = Some (P, h) →
    ordered P → Js.own P "__proto__" = None →
    overlay (Js.to_map P) (nearest_labels h path) = Js.to_map P →
    ∃ X : JsObject string,
      Metadata.resolveLabels (S fuel) (Some s) h = Some (X, h) ∧
      resolveLabels_direct (S fuel) (Some s) h = Some (X, h) ∧
      ordered X).
  { clear s path Hpath.
    intros s c path fuel P Hs Hpath Hfuel HP HPd Hord HPp Habs.
    eexists. split; [by eapply resolveLabels_unfold|]. split.
    - rewrite (resolveLabels_direct_unfold h s c fuel P) by done.
      by rewrite resolve_level_same.
    - apply ordered_filterUndefined. }
  induction Hpath as [s c Hs Hroot|s c p path Hs Hp Hpath IH];
    intros [|fuel] Hfuel; simpl in Hfuel; try lia.
  - apply (Hlevel s c [] fuel []); try done.
    + by eapply ancestry_root.
    + by rewrite Hroot, resolveLabels_None.
    + by rewrite Hroot, resolveLabels_direct_None.
    + apply ordered_nil.
  - destruct (IH fuel) as (P & HP & HPd & Hord); [lia|].
    destruct (resolveLabels_run h p path fuel Hwf Hpath)
      as (P' & HP' & _ & HPres & Habs); [lia|].
    assert (P' = P) as -> by congruence.
    apply (Hlevel s c path fuel P); try done; try (simpl; lia).
    + by eapply ancestry_step.
    + by rewrite Hp.
    + by rewrite Hp.
    + rewrite <-to_map_lookup, HPres. by apply resolved_labels_proto.
Qed.

(** ** The tests of the repository, replayed on the model *)

Example test_no_metadata_when_initialized :
  namespaces (exec [NewConstruct None "root"]) [0] = [Some None] ∧
  all_labels (exec [NewConstruct None "root"]) [0] = [Some []].
Proof. by vm_compute. Qed.

Example test_of_adds_a_metadata_construct :
  child_count (exec [NewConstruct None "root"]) 0 = 0 ∧
  child_count (exec [NewConstruct None "root"; Of 0]) 0 = 1 ∧
  name_of (exec [NewConstruct None "root"; Of 0]) 1 = Some "$cdk8s.Metadata".
Proof. by vm_compute. Qed.

Example test_not_added_when_only_reading :
  namespaces (exec [NewConstruct None "root"; NewConstruct (Some 0) "child"])
    [1; 0] = [Some None; Some None] ∧
  child_count (exec [NewConstruct None "root"; NewConstruct (Some 0) "child"]) 1
    = 0 ∧
  child_count (exec [NewConstruct None "root"; NewConstruct (Some 0) "child"]) 0
    = 1.
Proof. by vm_compute. Qed.

Example test_last_parent_prevails :
  namespaces
    (exec (createTree ++ [Of 0; AddNamespace 7 (Some "root-ns")]))
    [0; 1; 2; 3; 4; 5; 6]
  = replicate 7 (Some (Some "root-ns")) ∧
  namespaces
    (exec (createTree ++ [Of 0; AddNamespace 7 (Some "root-ns");
                          Of 4; AddNamespace 8 (Some "childgroup-ns");
                          Of 3; AddNamespace 9 (Some "child2-ns")]))
    [0; 1; 2; 3; 4; 5; 6]
  = [Some (Some "root-ns"); Some (Some "root-ns"); Some (Some "root-ns");
     Some (Some "child2-ns"); Some (Some "childgroup-ns");
     Some (Some "childgroup-ns"); Some (Some "childgroup-ns")].
Proof. by vm_compute. Qed.

Example test_empty_string_is_undefined :
  namespaces (exec [NewConstruct None "root"; Of 0;
                    AddNamespace 1 (Some "foo")]) [0] = [Some (Some "foo")] ∧
  namespaces (exec [NewConstruct None "root"; Of 0;
                    AddNamespace 1 (Some "foo");
                    AddNamespace 1 (Some EmptyString)]) [0] = [Some None] ∧
  namespaces (exec [NewConstruct None "root"; Of 0;
                    AddNamespace 1 (Some "foo");
                    AddNamespace 1 None]) [0] = [Some None].
Proof. by vm_compute. Qed.

Example test_undefined_removes_the_namespace :
  namespaces family [0; 1; 2] = [Some (Some "root"); Some None; Some None].
Proof. by vm_compute. Qed.

Example test_labels_are_sorted :
  record_labels
    (exec [NewConstruct None "root"; Of 0;
           AddLabels 1 [("aaaa", Some "value1"); ("zzzz", Some "value2")];
           AddLabels 1 [("bbbb", Some "value3")]]) (Some 1)
  = Some [("aaaa", Some "value1"); ("bbbb", Some "value3");
          ("zzzz", Some "value2")].
Proof. by vm_compute. Qed.

Example test_labels_merged_from_top_to_bottom :
  all_labels
    (exec (createTree ++
           [Of 0; AddLabels 7 [("root", Some "i-am-root")];
            Of 4; AddLabels 8 [("root", Some "childgroup");
                               ("childgroup", Some "yes")];
            Of 5; AddLabels 9 [("foo", Some "bar")]]))
    [0; 1; 2; 3; 4; 5; 6]
  = [Some [("root", "i-am-root")]; Some [("root", "i-am-root")];
     Some [("root", "i-am-root")]; Some [("root", "i-am-root")];
     Some [("root", "childgroup"); ("childgroup", "yes")];
     Some [("root", "childgroup"); ("childgroup", "yes"); ("foo", "bar")];
     Some [("root", "childgroup"); ("childgroup", "yes")]].
Proof. by vm_compute. Qed.

Example test_labels_removed_by_undefined :
  all_labels
    (exec [NewConstruct None "root"; NewConstruct (Some 0) "parent";
           NewConstruct (Some 1) "child";
           Of 0; AddLabels 3 [("my_label", Some "root")];
           Of 1; AddLabels 4 [("my_label", None)]]) [0; 1; 2]
  = [Some [("my_label", "root")]; Some []; Some []].
Proof. by vm_compute. Qed.

Example test_labels_removed_by_removeLabel :
  all_labels
    (exec [NewConstruct None "root"; NewConstruct (Some 0) "parent";
           NewConstruct (Some 1) "child";
           Of 0; AddLabels 3 [("foo", Some "123")];
           Of 1; AddLabels 4 [("foo", Some "123"); ("bar", Some "8989")];
           RemoveLabel 4 "foo"]) [0; 1; 2]
  = [Some [("foo", "123")]; Some [("bar", "8989")]; Some [("bar", "8989")]].
Proof. by vm_compute. Qed.

Example array_index_examples :
  Js.array_index "10" = Some 10%N ∧ Js.array_index "2" = Some 2%N ∧
  Js.array_index "0" = Some 0%N ∧ Js.array_index "007" = None ∧
  Js.array_index "app" = None ∧ Js.array_index "4294967294" = Some 4294967294%N ∧
  Js.array_index "4294967295" = None.
Proof. by vm_compute. Qed.

Example own_property_order :
  Js.assign [] [("b", 1); ("10", 2); ("a", 3); ("2", 4); ("b", 5)]
  = [("2", 4); ("10", 2); ("b", 5); ("a", 3)].
Proof. by vm_compute. Qed.

(** ** The claims *)

(** C1. For every scope of a finite acyclic tree, [resolveNamespace]
    returns what the first scope on the way to the root that has a record
    with a set namespace override decides: nothing when that override is
    the tombstone, the stored non-empty string otherwise, and nothing when
    no scope on the way decides.  A tombstone therefore hides the values
    of all scopes above it. *)
Theorem C1_resolveNamespace_first_decision h s path fuel :
  wf_heap h → ancestry h s path → length path ≤ fuel →
  Metadata.resolveNamespace fuel (Some s) h =
    Some (decided (first_decision (namespaceOverride h <$> path)), h).
Proof. apply resolveNamespace_run. Qed.

Lemma C1_witness :
  wf_heap family ∧ ancestry family 2 [2; 1; 0] ∧ length [2; 1; 0] ≤ 3 ∧
  Metadata.resolveNamespace 3 (Some 2) family = Some (None, family) ∧
  namespaceOverride family <$> [2; 1; 0] = [Unset; Tombstone; Value "root"].
Proof.
  split; [apply exec_wf|]. split; [apply family_ancestry|].
  split; [simpl; lia|]. split; [|vm_compute; reflexivity].
  rewrite (C1_resolveNamespace_first_decision family 2 [2; 1; 0] 3);
    [vm_compute; reflexivity | apply exec_wf | apply family_ancestry
    | simpl; lia].
Defined.

(** C10. In every reachable store [resolveNamespace] returns, for every
    scope, either nothing or a non-empty string, never the empty string
    that stands for the tombstone inside a record. *)
Theorem C10_resolveNamespace_never_empty h s fuel :
  reachable h → s < length h → s < fuel →
  ∃ r, Metadata.resolveNamespace fuel (Some s) h = Some (r, h) ∧
       r ≠ Some EmptyString.
Proof.
  intros Hh Hs Hfuel. pose proof (reachable_wf h Hh) as Hwf.
  destruct (wf_heap_ancestry h s Hwf Hs) as (path & Hpath & Hlen).
  eexists. split.
  - apply (resolveNamespace_run h s path fuel); [done..|lia].
  - apply decided_nonempty.
Qed.

Lemma C10_witness :
  reachable family ∧ 1 < length family ∧ 1 < 2 ∧
  record_namespace family (Some 4) = Some EmptyString ∧
  ∃ r, Metadata.resolveNamespace 2 (Some 1) family = Some (r, family) ∧
       r ≠ Some EmptyString.
Proof.
  split; [apply exec_reachable|]. split; [vm_compute; lia|].
  split; [lia|]. split; [vm_compute; reflexivity|].
  apply (C10_resolveNamespace_never_empty family 1 2);
    [apply exec_reachable | vm_compute; lia | lia].
Defined.

(** C7. [resolveLabels] and [resolveNamespace] only read: whatever the
    store, the scope and the fuel, a call that returns leaves the store as
    it was, so no record is created and no scope gains or loses a child;
    and on a well-formed store the calls do return, for every scope and
    also for one with no record on its way to the root. *)
Theorem C7_resolution_only_reads h scope fuel :
  (∀ ns h', Metadata.resolveNamespace fuel scope h = Some (ns, h') →
     h' = h ∧ ∀ q, child_count h' q = child_count h q ∧
                   own_record h' q = own_record h q) ∧
  (∀ ls h', Metadata.resolveLabels fuel scope h = Some (ls, h') →
     h' = h ∧ ∀ q, child_count h' q = child_count h q ∧
                   own_record h' q = own_record h q) ∧
  (∀ s, scope = Some s → wf_heap h → s < length h → s < fuel →
     ∃ ns ls, Metadata.resolveNamespace fuel scope h = Some (ns, h) ∧
              Metadata.resolveLabels fuel scope h = Some (ls, h)).
Proof.
  split; [|split].
  - by intros ns h' ->%resolveNamespace_frame.
  - by intros ls h' ->%resolveLabels_frame.
  - intros s -> Hwf Hs Hfuel.
    destruct (wf_heap_ancestry h s Hwf Hs) as (path & Hpath & Hlen).
    destruct (resolveLabels_run h s path fuel) as (X & HX & _); [done..|lia|].
    eexists _, X. split; [|done].
    apply (resolveNamespace_run h s path fuel); [done..|lia].
Qed.

Lemma C7_witness :
  ∃ ns ls,
    Metadata.resolveNamespace 3 (Some 2) (exec [NewConstruct None "root";
        NewConstruct (Some 0) "parent"; NewConstruct (Some 1) "child"])
    = Some (ns, exec [NewConstruct None "root";
        NewConstruct (Some 0) "parent"; NewConstruct (Some 1) "child"]) ∧
    Metadata.resolveLabels 3 (Some 2) (exec [NewConstruct None "root";
        NewConstruct (Some 0) "parent"; NewConstruct (Some 1) "child"])
    = Some (ls, exec [NewConstruct None "root";
        NewConstruct (Some 0) "parent"; NewConstruct (Some 1) "child"]).
Proof.
  apply (C7_resolution_only_reads _ (Some 2) 3 : _ ∧ _ ∧ _) with (s := 2);
    [reflexivity | apply exec_wf | vm_compute; lia | lia].
Defined.

Lemma labelOverrides_no_record h s :
  own_record h s = None → labelOverrides h s = ∅.
Proof. intros Hs. rewrite labelOverrides_unfold, Hs. done. Qed.

Lemma resolved_labels_no_record h path :
  Forall (λ a, own_record h a = None) path → resolved_labels h path = ∅.
Proof.
  induction 1 as [|a path Ha _ IH]; simpl; [done|].
  by rewrite IH, labelOverrides_no_record, overlay_empty.
Qed.

Lemma to_map_empty_inv {V} (o : JsObject V) : Js.to_map o = ∅ → o = [].
Proof.
  destruct o as [|[k v] o]; [done|]. unfold Js.to_map. simpl.
  intros Ho. by apply insert_non_empty in Ho.
Qed.

(** C2. For every scope of a finite acyclic tree, [resolveLabels] returns
    the labels resolved for the parent of the scope (the empty object for
    the root), overlaid with the label overrides of the scope's own
    record: a set override replaces the inherited entry of its key, an
    unset one deletes it, and the other keys are inherited.  The values of
    the result are strings, and a scope with no record on its way to the
    root resolves to the empty object. *)
Theorem C2_resolveLabels_overlay h s c path fuel :
  wf_heap h → ancestry h s path → length path ≤ fuel → h !! s = Some c →
  ∃ X P : JsObject string,
    Metadata.resolveLabels fuel (Some s) h = Some (X, h) ∧
    Metadata.resolveLabels fuel (node_scope c) h = Some (P, h) ∧
    (∀ k, Js.to_map X !! k =
            match labelOverrides h s !! k with
            | Some (Some v) => Some v
            | Some None => None
            | None => Js.to_map P !! k
            end) ∧
    (Forall (λ a, own_record h a = None) path → X = []).
Proof.
  intros Hwf Hpath Hfuel Hs.
  destruct (resolveLabels_run h s path fuel Hwf Hpath Hfuel)
    as (X & HX & _ & HXres & _).
  assert (∃ (P : JsObject string) rest,
    path = s :: rest ∧
    Metadata.resolveLabels fuel (node_scope c) h = Some (P, h) ∧
    Js.to_map P = resolved_labels h rest) as (P & rest & -> & HP & HPres).
  { destruct Hpath as [s c' Hs' Hroot|s c' p path Hs' Hp Hpath];
      simplify_eq.
    - exists [], []. rewrite Hroot. by rewrite resolveLabels_None.
    - destruct (resolveLabels_run h p path fuel Hwf Hpath)
        as (P & HP & _ & HPres & _); [simpl in Hfuel; lia|].
      exists P, path. by rewrite Hp. }
  exists X, P. split; [done|]. split; [done|]. split.
  - intros k. rewrite HXres. cbn [resolved_labels].
    by rewrite lookup_overlay, HPres.
  - intros Hnone. apply to_map_empty_inv.
    by rewrite HXres, resolved_labels_no_record.
Qed.

Lemma C2_witness :
  wf_heap family ∧ ancestry family 2 [2; 1; 0] ∧ length [2; 1; 0] ≤ 3 ∧
  ∃ X P : JsObject string,
    Metadata.resolveLabels 3 (Some 2) family = Some (X, family) ∧
    Metadata.resolveLabels 3 (Some 1) family = Some (P, family) ∧
    (∀ k, Js.to_map X !! k =
            match labelOverrides family 2 !! k with
            | Some (Some v) => Some v
            | Some None => None
            | None => Js.to_map P !! k
            end) ∧
    (Forall (λ a, own_record family a = None) [2; 1; 0] → X = []).
Proof.
  split; [apply exec_wf|]. split; [apply family_ancestry|].
  split; [simpl; lia|].
  apply (C2_resolveLabels_overlay family 2
           {| node_scope := Some 1; node_id := "child";
              node_children := []; fields := None |} [2; 1; 0] 3);
    [apply exec_wf | apply family_ancestry | simpl; lia
    | vm_compute; reflexivity].
Defined.

(** C9. For every scope of a finite acyclic tree, [resolveLabels], which
    overlays the labels of the nearest record found by [lookupMetadata],
    returns the same object, with the same entries in the same order, as
    the variant that overlays only the record attached directly to the
    scope. *)
Theorem C9_nearest_record_same_as_direct h s path fuel :
  wf_heap h → ancestry h s path → length path ≤ fuel →
  ∃ X : JsObject string,
    Metadata.resolveLabels fuel (Some s) h = Some (X, h) ∧
    resolveLabels_direct fuel (Some s) h = Some (X, h).
Proof.
  intros Hwf Hpath Hfuel.
  destruct (resolveLabels_agree h s path fuel Hwf Hpath Hfuel)
    as (X & HX & HY & _).
  by exists X.
Qed.

Lemma C9_witness :
  wf_heap family ∧ ancestry family 2 [2; 1; 0] ∧ length [2; 1; 0] ≤ 3 ∧
  ∃ X : JsObject string,
    Metadata.resolveLabels 3 (Some 2) family = Some (X, family) ∧
    resolveLabels_direct 3 (Some 2) family = Some (X, family).
Proof.
  split; [apply exec_wf|]. split; [apply family_ancestry|].
  split; [simpl; lia|].
  apply (C9_nearest_record_same_as_direct family 2 [2; 1; 0] 3);
    [apply exec_wf | apply family_ancestry | simpl; lia].
Defined.

(** C6. [addNamespace('')], [addNamespace(undefined)] and
    [removeNamespace()] have the same outcome on every store, so no later
    resolution tells them apart; the record then holds the tombstone, and
    [resolveNamespace] of its scope returns nothing whatever the
    ancestors say. *)
Theorem C6_three_ways_to_clear h this :
  Metadata.addNamespace this (Some EmptyString) h
    = Metadata.addNamespace this None h ∧
  Metadata.removeNamespace this h = Metadata.addNamespace this None h ∧
  (∀ s c f path fuel,
     wf_heap h → own_record h s = Some this →
     h !! this = Some c → fields c = Some f →
     ancestry h s path → length path ≤ fuel →
     ∃ h', Metadata.removeNamespace this h = Some (tt, h') ∧
           namespaceOverride h' s = Tombstone ∧
           Metadata.resolveNamespace fuel (Some s) h' = Some (None, h')).
Proof.
  split; [done|]. split; [done|].
  intros s c f path fuel Hwf Hown Hc Hf Hpath Hfuel.
  unfold Metadata.removeNamespace.
  rewrite (addNamespace_run h this c f None Hc Hf). simpl.
  eexists. split; [done|].
  set (h' := update_fields h this c _).
  assert (Htomb : namespaceOverride h' s = Tombstone).
  { unfold namespaceOverride, h'.
    rewrite update_fields_own_record, Hown by done.
    unfold record_namespace. simpl.
    rewrite update_fields_record_fields, decide_True by done. done. }
  split; [done|].
  destruct (ancestry_head h s path Hpath) as [rest ->].
  rewrite (resolveNamespace_run h' s (s :: rest) fuel); [| |by apply update_fields_ancestry|done].
  - rewrite fmap_cons. cbn [first_decision]. by rewrite Htomb.
  - apply update_fields_wf; [done| |done]. simpl.
    intros L HL. by eapply (stored_labels h this c f).
Qed.

Lemma C6_witness :
  ∃ h', Metadata.removeNamespace 3 family = Some (tt, h') ∧
        namespaceOverride h' 0 = Tombstone ∧
        Metadata.resolveNamespace 1 (Some 0) h' = Some (None, h').
Proof.
  refine (proj2 (proj2 (C6_three_ways_to_clear family 3)) 0 _ _ [0] 1
            (exec_wf _) _ _ _ _ _);
    [vm_compute; reflexivity | vm_compute; reflexivity | reflexivity
    | eapply ancestry_root; reflexivity | simpl; lia].
Defined.

(** *** [Metadata.of] *)

Lemma length_set_new {V} (o : JsObject V) k v :
  Js.own o k = None → length (Js.set o k v) = S (length o).
Proof.
  intros Hk. pose proof (keys_set o k v) as Hperm. rewrite Hk in Hperm.
  apply Permutation_length in Hperm. unfold Js.keys in Hperm.
  simpl in Hperm. by rewrite !length_fmap in Hperm.
Qed.

Lemma of_run_existing h s m :
  own_record h s = Some m → Metadata.of_ s h = Some (m, h).
Proof.
  intros Hm. unfold Metadata.of_, bind.
  destruct (h !! s) as [c|] eqn:Hs; [|by unfold own_record in Hm; rewrite Hs in Hm].
  by rewrite (tryGetMetadata_run h s c Hs), Hm.
Qed.

Lemma of_run_new h s o :
  h !! s = Some o → own_record h s = None →
  Metadata.of_ s h =
    Some (length h,
          attach h s o Metadata.id (Some {| labels := None; namespace := None |})).
Proof.
  intros Hs Hm. unfold Metadata.of_, bind.
  rewrite (tryGetMetadata_run h s o Hs), Hm. unfold Metadata.new.
  apply create_run; [done|]. unfold own_record in Hm. by rewrite Hs in Hm.
Qed.

Lemma of_times_existing n h s m :
  own_record h s = Some m → of_times n s h = Some (replicate n m, h).
Proof.
  intros Hm. induction n as [|n IH]; simpl; [done|].
  unfold bind. by rewrite (of_run_existing h s m Hm), IH.
Qed.

Lemma attach_own_record h s o f :
  h !! s = Some o →
  own_record (attach h s o Metadata.id f) s = Some (length h).
Proof.
  intros Hs. unfold own_record. rewrite attach_lookup, decide_True by done.
  simpl. by rewrite own_set, decide_True.
Qed.

Lemma attach_child_count h s o id f q :
  h !! s = Some o → Js.own (node_children o) id = None → q < length h →
  child_count (attach h s o id f) q =
    if decide (q = s) then S (child_count h q) else child_count h q.
Proof.
  intros Hs Hid Hq. unfold child_count. rewrite attach_lookup by done.
  case_decide; subst.
  - rewrite Hs. simpl. by apply length_set_new.
  - rewrite decide_False by lia. done.
Qed.

(** C5. [Metadata.of] is idempotent and keeps one record per scope: any
    number of calls on a scope return the same record, so records with
    equal contents, and together attach at most one child to the scope and
    none to any other scope; a call on a different scope never returns
    that record. *)
Theorem C5_of_idempotent_and_unique h s1 s2 n :
  wf_heap h → s1 < length h → s2 < length h →
  ∃ m h1,
    of_times (S n) s1 h = Some (replicate (S n) m, h1) ∧
    own_record h1 s1 = Some m ∧
    child_count h1 s1 ≤ S (child_count h s1) ∧
    (∀ q, q < length h → q ≠ s1 → child_count h1 q = child_count h q) ∧
    (s1 ≠ s2 → ∃ m2 h2, Metadata.of_ s2 h1 = Some (m2, h2) ∧ m2 ≠ m).
Proof.
  intros Hwf Hs1 Hs2.
  destruct (lookup_lt_is_Some_2 h s1 Hs1) as [o1 Ho1].
  assert (∃ m h1, Metadata.of_ s1 h = Some (m, h1) ∧ wf_heap h1 ∧
            own_record h1 s1 = Some m ∧ length h ≤ length h1 ∧
            child_count h1 s1 ≤ S (child_count h s1) ∧
            (∀ q, q < length h → q ≠ s1 → child_count h1 q = child_count h q))
    as (m & h1 & Hof & Hwf1 & Hm & Hlen & Hcount & Hothers).
  { destruct (own_record h s1) as [m|] eqn:Hown.
    - exists m, h. rewrite (of_run_existing h s1 m Hown).
      split; [done|]. split; [done|]. split; [done|]. split; [lia|].
      split; [lia|done].
    - assert (Hid : Js.own (node_children o1) Metadata.id = None).
      { unfold own_record in Hown. by rewrite Ho1 in Hown. }
      exists (length h). eexists. rewrite (of_run_new h s1 o1 Ho1 Hown).
      split; [done|]. split; [|split; [|split; [|split]]].
      + apply attach_wf; [done| |done]. intros; by simplify_eq/=.
      + by apply attach_own_record.
      + rewrite attach_length. lia.
      + rewrite attach_child_count, decide_True by done. done.
      + intros q Hq Hne. by rewrite attach_child_count, decide_False by done. }
  exists m, h1. split.
  { cbn [of_times]. unfold bind at 1. rewrite Hof. unfold bind.
    by rewrite (of_times_existing n h1 s1 m Hm). }
  split; [done|]. split; [done|]. split; [done|].
  intros Hne.
  assert (Hm1 : ∃ cm, h1 !! m = Some cm ∧ node_scope cm = Some s1).
  { unfold own_record in Hm. destruct (h1 !! s1) as [c1|] eqn:Hc1; [|done].
    by eapply (wf_child h1 Hwf1 s1 c1). }
  destruct Hm1 as (cm & Hcm & Hscope).
  destruct (lookup_lt_is_Some_2 h1 s2) as [o2 Ho2]; [lia|].
  destruct (own_record h1 s2) as [m2|] eqn:Hown2.
  - exists m2, h1. split; [by apply of_run_existing|]. intros ->.
    unfold own_record in Hown2. rewrite Ho2 in Hown2. simpl in Hown2.
    destruct (wf_child h1 Hwf1 s2 o2 _ m Ho2 Hown2) as (cm' & Hcm' & Hscope').
    congruence.
  - exists (length h1). eexists. split; [by apply of_run_new|].
    apply lookup_lt_Some in Hcm. lia.
Qed.

Lemma C5_witness :
  wf_heap family ∧ 2 < length family ∧ 1 < length family ∧
  ∃ m h1,
    of_times 3 2 family = Some ([m; m; m], h1) ∧
    own_record h1 2 = Some m ∧
    child_count h1 2 ≤ S (child_count family 2) ∧
    (∀ q, q < length family → q ≠ 2 → child_count h1 q = child_count family q) ∧
    (2 ≠ 1 → ∃ m2 h2, Metadata.of_ 1 h1 = Some (m2, h2) ∧ m2 ≠ m).
Proof.
  split; [apply exec_wf|]. split; [vm_compute; lia|]. split; [vm_compute; lia|].
  apply (C5_of_idempotent_and_unique family 2 1 2);
    [apply exec_wf | vm_compute; lia | vm_compute; lia].
Defined.

(** *** [addLabels] *)

Lemma own_assign_nil {V} (o : JsObject V) k :
  NoDup (Js.keys o) → Js.own (Js.assign [] o) k = Js.own o k.
Proof.
  intros Ho. rewrite <-!to_map_lookup, to_map_assign_NoDup by done.
  unfold Js.to_map at 2. by rewrite list_to_map_nil, (right_id_L ∅ (∪)).
Qed.

Lemma own_spread2 {V} (a : option (JsObject V)) (b : JsObject V) k :
  NoDup (Js.keys (default [] a)) → NoDup (Js.keys b) →
  Js.own (spread2 a b) k =
    match Js.own b k with
    | Some v => Some v
    | None => Js.own (default [] a) k
    end.
Proof.
  intros Ha Hb. unfold spread2.
  rewrite <-(own_assign_nil (default [] a) k Ha), <-!to_map_lookup.
  rewrite to_map_assign_NoDup by done. rewrite lookup_union.
  by destruct (Js.to_map b !! k), (Js.to_map (Js.assign [] (default [] a)) !! k).
Qed.

Lemma record_labels_this h this c f :
  h !! this = Some c → fields c = Some f →
  record_labels h (Some this) = labels f.
Proof.
  intros Hc Hf. unfold record_labels, record_fields. simpl.
  rewrite Hc. simpl. by rewrite Hf.
Qed.

Lemma record_namespace_this h this c f :
  h !! this = Some c → fields c = Some f →
  record_namespace h (Some this) = namespace f.
Proof.
  intros Hc Hf. unfold record_namespace, record_fields. simpl.
  rewrite Hc. simpl. by rewrite Hf.
Qed.

Lemma NoDup_labels_this h this c f :
  wf_heap h → h !! this = Some c → fields c = Some f →
  NoDup (Js.keys (default [] (labels f))).
Proof.
  intros Hwf Hc Hf. rewrite <-(record_labels_this h this c f Hc Hf).
  by apply NoDup_record_labels.
Qed.

(** C3, as the code has it.  For every record and every input object,
    [addLabels] stores each input entry whose key is not [__proto__]
    under its key: a string value is stored as it is, and the unset
    marker is stored as well, so the key stays in the stored labels
    holding the marker instead of being removed; the keys other than
    [__proto__] that are absent from the input keep their previous
    entries, the namespace of the record and all other objects are left
    alone. *)
Theorem C3_addLabels_merges_and_keeps_unset h this c f l :
  wf_heap h → h !! this = Some c → fields c = Some f → NoDup (Js.keys l) →
  ∃ h' L',
    Metadata.addLabels this l h = Some (tt, h') ∧
    record_labels h' (Some this) = Some L' ∧
    record_namespace h' (Some this) = namespace f ∧
    (∀ r, r ≠ this → h' !! r = h !! r) ∧
    (∀ k, k ≠ "__proto__" →
          Js.own L' k =
            match Js.own l k with
            | Some (Some v) => Some (Some v)
            | Some None => Some None
            | None => Js.own (default [] (labels f)) k
            end).
Proof.
  intros Hwf Hc Hf Hl. rewrite (addLabels_run h this c f l Hc Hf).
  eexists _, _. split; [done|].
  split; [|split; [|split]].
  - unfold record_labels, record_fields. simpl.
    rewrite update_fields_lookup, decide_True by done. done.
  - unfold record_namespace, record_fields. simpl.
    rewrite update_fields_lookup, decide_True by done. done.
  - intros r Hr. rewrite update_fields_lookup by done. by rewrite decide_False.
  - intros k Hk. rewrite own_sortByKey, decide_False by done.
    rewrite own_spread2; [|by eapply NoDup_labels_this|done].
    by destruct (Js.own l k) as [[?|]|].
Qed.

Lemma C3_witness :
  ∃ h' L',
    Metadata.addLabels 3 [("my_label", None); ("app", Some "web")] family
      = Some (tt, h') ∧
    record_labels h' (Some 3) = Some L' ∧
    record_namespace h' (Some 3) = Some "root" ∧
    (∀ r, r ≠ 3 → h' !! r = family !! r) ∧
    (∀ k, k ≠ "__proto__" →
          Js.own L' k =
            match Js.own [("my_label", None); ("app", Some "web")] k with
            | Some (Some v) => Some (Some v)
            | Some None => Some None
            | None => Js.own [("my_label", Some "root")] k
            end).
Proof.
  refine (C3_addLabels_merges_and_keeps_unset family 3 _
            {| labels := Some [("my_label", Some "root")];
               namespace := Some "root" |}
            [("my_label", None); ("app", Some "web")] (exec_wf _) _ _ _);
    [vm_compute; reflexivity | reflexivity
    | unfold Js.keys; simpl;
      repeat (apply NoDup_cons_2; [by vm_compute; inversion 1 as [|? ? ? Hin];
                                    inversion Hin|]);
      apply NoDup_nil_2].
Defined.

(** The claim C3 as it is written fails: after [addLabels({a: '1'})] and
    [addLabels({a: undefined})] the key [a] is still a key of the stored
    labels, holding the unset marker. *)
Lemma C3_counterexample :
  ∃ h',
    Metadata.addLabels 1 [("a", None)]
      (exec [NewConstruct None "root"; Of 0; AddLabels 1 [("a", Some "1")]])
      = Some (tt, h') ∧
    record_labels h' (Some 1) = Some [("a", None)] ∧
    Js.keys [("a", @None string)] = ["a"] ∧
    Js.own [("a", @None string)] "a" ≠ None.
Proof. eexists. split; [vm_compute; reflexivity|]. by vm_compute. Qed.

Lemma ancestry_det h s path1 path2 :
  ancestry h s path1 → ancestry h s path2 → path1 = path2.
Proof.
  intros H1. revert path2.
  induction H1 as [s c Hs Hroot|s c p path Hs Hp Hpath IH];
    intros path2 H2; destruct H2 as [s c' Hs' Hroot'|s c' p' path' Hs' Hp' Hpath'];
    simplify_eq; [done|]. f_equal. by apply IH.
Qed.

Lemma own_record_scope h s1 s2 m :
  wf_heap h → own_record h s1 = Some m → own_record h s2 = Some m → s1 = s2.
Proof.
  intros Hwf H1 H2. unfold own_record in *.
  destruct (h !! s1) as [c1|] eqn:Hc1; [|done].
  destruct (h !! s2) as [c2|] eqn:Hc2; [|done]. simpl in *.
  destruct (wf_child h Hwf s1 c1 _ m Hc1 H1) as (ck1 & Hk1 & Hsc1).
  destruct (wf_child h Hwf s2 c2 _ m Hc2 H2) as (ck2 & Hk2 & Hsc2).
  congruence.
Qed.

Lemma overlay_insert_unset inherited overrides k :
  overlay inherited overrides !! k = None →
  overlay inherited (<[k:=None]> overrides) = overlay inherited overrides.
Proof.
  intros Hk. apply map_eq; intros k'. rewrite !lookup_overlay.
  destruct (decide (k = k')) as [<-|Hne].
  - rewrite lookup_insert_eq. by rewrite lookup_overlay in Hk.
  - by rewrite lookup_insert_ne.
Qed.

Section unset_fresh_key.
Context (h : Heap) (this s : ref) (c : Construct) (f : MetadataFields).
Context (k : string) (Hkp : k ≠ "__proto__").
Context (Hwf : wf_heap h) (Hown : own_record h s = Some this).
Context (Hc : h !! this = Some c) (Hf : fields c = Some f).

Lemma unset_wf : wf_heap (with_unset h this c f k).
Proof.
  unfold with_unset. apply update_fields_wf; [done| |done]. simpl.
  intros L [= <-]. apply stored_sortByKey.
Qed.

Lemma unset_labelOverrides a :
  labelOverrides (with_unset h this c f k) a =
    if decide (a = s) then <[k:=None]> (labelOverrides h s)
    else labelOverrides h a.
Proof.
  rewrite !labelOverrides_unfold. unfold with_unset.
  rewrite update_fields_own_record by done.
  destruct (decide (a = s)) as [->|Hne].
  - rewrite Hown. unfold record_labels. simpl.
    rewrite update_fields_record_fields, decide_True by done. simpl.
    pose proof (record_labels_this h this c f Hc Hf) as Hrl.
    unfold record_labels in Hrl. simpl in Hrl. rewrite Hrl.
    apply map_eq; intros k'. rewrite to_map_lookup, own_sortByKey.
    destruct (decide (k' = "__proto__")) as [->|Hk'].
    { rewrite lookup_insert_ne, to_map_lookup by done.
      destruct (labels f) as [L|] eqn:HL; [|done]. simpl. symmetry.
      by apply (stored_labels h this c f L). }
    rewrite own_spread2; [|by eapply NoDup_labels_this|].
    + simpl. destruct (decide (k = k')) as [<-|Hne].
      * by rewrite lookup_insert_eq.
      * by rewrite lookup_insert_ne, to_map_lookup.
    + unfold Js.keys. simpl. apply NoDup_singleton.
  - destruct (own_record h a) as [m|] eqn:Ha; [|done].
    unfold record_labels. simpl.
    rewrite update_fields_record_fields by done.
    rewrite decide_False; [done|]. intros ->.
    by apply Hne, (own_record_scope h a s this).
Qed.

Lemma unset_resolved_labels path_s q path :
  ancestry h s path_s → resolved_labels h path_s !! k = None →
  ancestry h q path →
  resolved_labels (with_unset h this c f k) path = resolved_labels h path.
Proof.
  intros Hs Hk Hq.
  induction Hq as [q cq Hcq Hroot|q cq p path Hcq Hp Hpath IH].
  - cbn [resolved_labels]. rewrite unset_labelOverrides.
    case_decide as Hqs; [|done]. subst q.
    assert (path_s = [s]) as -> by (eapply ancestry_det; [done|by eapply ancestry_root]).
    by apply overlay_insert_unset.
  - cbn [resolved_labels]. rewrite unset_labelOverrides, IH.
    case_decide as Hqs; [|done]. subst q.
    assert (path_s = s :: path) as ->
      by (eapply ancestry_det; [done|by eapply ancestry_step]).
    by apply overlay_insert_unset.
Qed.

End unset_fresh_key.

(** C4, as the code has it.  For every record and every key other than
    [__proto__] that was never set in its stored labels, [addLabels] with
    the unset marker for that key stores the marker under the key, so the
    state of the record changes; when the key is not among the labels
    resolved for the scope of the record before the call (no ancestor
    supplies it), [resolveLabels] evaluated in the store the call leaves,
    before any other mutation, returns for every scope of the tree the
    same mapping as before the call. *)
Theorem C4_unset_of_a_key_never_set h this s c f k :
  wf_heap h → own_record h s = Some this →
  h !! this = Some c → fields c = Some f →
  k ≠ "__proto__" →
  Js.own (default [] (labels f)) k = None →
  ∃ h',
    Metadata.addLabels this [(k, None)] h = Some (tt, h') ∧
    labelOverrides h' s = <[k:=None]> (labelOverrides h s) ∧
    labelOverrides h' s ≠ labelOverrides h s ∧
    ∀ path_s fuel_s (X : JsObject string),
      ancestry h s path_s → length path_s ≤ fuel_s →
      Metadata.resolveLabels fuel_s (Some s) h = Some (X, h) →
      Js.own X k = None →
      ∀ q path fuel, ancestry h q path → length path ≤ fuel →
        ∃ Y Y' : JsObject string,
          Metadata.resolveLabels fuel (Some q) h = Some (Y, h) ∧
          Metadata.resolveLabels fuel (Some q) h' = Some (Y', h') ∧
          Js.to_map Y' = Js.to_map Y.
Proof.
  intros Hwf Hown Hc Hf Hkp Hfresh.
  rewrite (addLabels_run h this c f _ Hc Hf). eexists. split; [done|].
  assert (HLO : labelOverrides
                  (update_fields h this c
                     {| labels := Some (sortByKey (spread2 (labels f) [(k, None)]));
                        namespace := namespace f |}) s
                = <[k:=None]> (labelOverrides h s)).
  { rewrite (unset_labelOverrides h this s c f k Hkp Hwf Hown Hc Hf).
    by rewrite decide_True. }
  split; [done|]. split.
  { rewrite HLO. intros Heq.
    assert (Hl : labelOverrides h s !! k = None).
    { rewrite labelOverrides_unfold, Hown.
      by rewrite (record_labels_this h this c f Hc Hf), to_map_lookup. }
    rewrite <-Heq, lookup_insert_eq in Hl. done. }
  intros path_s fuel_s X Hs Hfuel HX HXk q path fuel Hq Hlen.
  destruct (resolveLabels_run h s path_s fuel_s Hwf Hs Hfuel)
    as (X' & HX' & _ & HXres & _).
  assert (X' = X) as -> by congruence.
  destruct (resolveLabels_run h q path fuel Hwf Hq Hlen)
    as (Y & HY & _ & HYres & _).
  destruct (resolveLabels_run _ q path fuel
              (unset_wf h this c f k Hwf Hc)
              (update_fields_ancestry h this c _ Hc q path Hq) Hlen)
    as (Y' & HY' & _ & HYres' & _).
  exists Y, Y'. split; [done|]. split; [done|].
  rewrite HYres, HYres'.
  apply (unset_resolved_labels h this s c f k Hkp Hwf Hown Hc Hf path_s q path);
    [done| |done].
  by rewrite <-HXres, to_map_lookup.
Qed.

Lemma C4_witness :
  ∃ h',
    Metadata.addLabels 4 [("team", None)] family = Some (tt, h') ∧
    labelOverrides h' 1 = <[("team" : string):=None]> (labelOverrides family 1) ∧
    labelOverrides h' 1 ≠ labelOverrides family 1 ∧
    ∀ q path fuel, ancestry family q path → length path ≤ fuel →
      ∃ Y Y' : JsObject string,
        Metadata.resolveLabels fuel (Some q) family = Some (Y, family) ∧
        Metadata.resolveLabels fuel (Some q) h' = Some (Y', h') ∧
        Js.to_map Y' = Js.to_map Y.
Proof.
  destruct (C4_unset_of_a_key_never_set family 4 1
              {| node_scope := Some 1; node_id := Metadata.id;
                 node_children := [];
                 fields := Some {| labels := None;
                                   namespace := Some EmptyString |} |}
              {| labels := None; namespace := Some EmptyString |} "team"
              (exec_wf _))
    as (h' & Hrun & Hset & Hne & Hres);
    [ vm_compute; reflexivity | vm_compute; reflexivity | reflexivity
    | discriminate | reflexivity |].
  exists h'. split; [exact Hrun|]. split; [exact Hset|]. split; [exact Hne|].
  apply (Hres [1; 0] 2 [("my_label", "root")]);
    [ eapply ancestry_step; [reflexivity | reflexivity |];
      eapply ancestry_root; reflexivity
    | simpl; lia | vm_compute; reflexivity | reflexivity ].
Defined.

(** The entry stored for the key stays: a label that an ancestor sets
    under the key after the call is hidden from the scope of the record,
    which would see it without the call. *)
Example unset_entry_hides_later_labels :
  all_labels
    (exec [NewConstruct None "root"; NewConstruct (Some 0) "child";
           Of 0; Of 1; RemoveLabel 3 "k"; AddLabels 2 [("k", Some "v")]])
    [0; 1]
  = [Some [("k", "v")]; Some []] ∧
  all_labels
    (exec [NewConstruct None "root"; NewConstruct (Some 0) "child";
           Of 0; Of 1; AddLabels 2 [("k", Some "v")]])
    [0; 1]
  = [Some [("k", "v")]; Some [("k", "v")]].
Proof. by vm_compute. Qed.

(** The claim C4 as it is written fails: the record of [parent] never set
    [my_label], which [parent] inherits from the root; after
    [removeLabel('my_label')] on that record the store has changed and
    [resolveLabels(parent)] has lost the label. *)
Lemma C4_counterexample :
  record_labels family (Some 4) = None ∧
  own_record family 1 = Some 4 ∧
  Metadata.resolveLabels 2 (Some 1) family
    = Some ([("my_label", "root")], family) ∧
  ∃ h', Metadata.removeLabel 4 "my_label" family = Some (tt, h') ∧
        h' ≠ family ∧
        Metadata.resolveLabels 2 (Some 1) h' = Some ([], h').
Proof.
  split; [vm_compute; reflexivity|]. split; [vm_compute; reflexivity|].
  split; [vm_compute; reflexivity|].
  eexists. split; [vm_compute; reflexivity|].
  split; [|vm_compute; reflexivity]. vm_compute. discriminate.
Qed.

(** *** Order of the stored keys *)

Lemma keys_fold_set_append {V} (g : string → V) ks (r : JsObject V) :
  NoDup (Js.keys r ++ ks) → Forall (λ k, Js.array_index k = None) ks →
  Js.keys (fold_left (λ res key, Js.set res key (g key)) ks r)
    = Js.keys r ++ ks.
Proof.
  revert r. induction ks as [|k ks IH]; intros r Hnd Hks; simpl.
  - by rewrite (right_id_L [] (++)).
  - apply Forall_cons in Hks as [Hk Hks].
    assert (Hfresh : Js.own r k = None).
    { apply own_None. apply NoDup_app in Hnd as (_ & Hdisj & _).
      intros Hin. apply (Hdisj k Hin). left. }
    assert (Hset : Js.set r k (g k) = r ++ [(k, g k)]).
    { unfold Js.set. by rewrite Hfresh, Hk. }
    rewrite Hset, IH.
    + unfold Js.keys. rewrite fmap_app. simpl. by rewrite <-(assoc_L (++)).
    + unfold Js.keys. rewrite fmap_app. simpl. by rewrite <-(assoc_L (++)).
    + done.
Qed.

Lemma StronglySorted_sublist {A} (R : relation A) (l1 l2 : list A) :
  l1 `sublist_of` l2 → StronglySorted R l2 → StronglySorted R l1.
Proof.
  induction 1 as [|x l1 l2 Hsub IH|x l1 l2 Hsub IH]; intros Hs; [done|..].
  - apply StronglySorted_cons in Hs as [Hall Hs].
    apply StronglySorted_cons. split; [|by apply IH].
    apply Forall_forall. intros y Hy. rewrite Forall_forall in Hall.
    apply Hall. by eapply elem_of_sublist.
  - apply StronglySorted_cons in Hs as [_ Hs]. by apply IH.
Qed.

(** The keys [sortByKey] assigns, in the order of the assignments. *)
Lemma sorted_keys_sorted (ks : list string) :
  StronglySorted Js.le (filter (λ k, k ≠ "__proto__") (merge_sort Js.le ks)).
Proof.
  eapply StronglySorted_sublist; [apply sublist_filter|].
  apply (StronglySorted_merge_sort _).
Qed.

(** Where no key is an array index, [sortByKey] stores the keys in
    ascending order. *)
Lemma sortByKey_sorted obj :
  NoDup (Js.keys obj) → Forall (λ k, Js.array_index k = None) (Js.keys obj) →
  Js.keys (sortByKey obj)
    = filter (λ k, k ≠ "__proto__") (merge_sort Js.le (Js.keys obj)) ∧
  Sorted Js.le (Js.keys (sortByKey obj)).
Proof.
  intros Hnd Hix.
  assert (Hkeys : Js.keys (sortByKey obj)
            = filter (λ k, k ≠ "__proto__") (merge_sort Js.le (Js.keys obj))).
  { rewrite sortByKey_set, keys_fold_set_append; [done| |].
    - simpl. apply NoDup_filter. by rewrite merge_sort_Permutation.
    - apply Forall_forall. intros k [_ Hin]%list_elem_of_filter.
      rewrite merge_sort_Permutation in Hin.
      rewrite Forall_forall in Hix. by apply Hix. }
  split; [done|]. rewrite Hkeys.
  apply StronglySorted_Sorted, sorted_keys_sorted.
Qed.

(** The stored order plays no part in resolution: the resolved mapping is
    a function of the overrides read by key. *)
Lemma resolved_labels_by_key h1 h2 path :
  (∀ a, labelOverrides h1 a = labelOverrides h2 a) →
  resolved_labels h1 path = resolved_labels h2 path.
Proof.
  intros Heq. induction path as [|a path IH]; simpl; [done|].
  by rewrite IH, Heq.
Qed.

(** C8, at the input where the code misses it.  [addLabels] with the keys
    [10] and [2] sorts them to [10, 2], but the object it builds
    enumerates the array-index key [2] before [10]: the stored keys are
    not in ascending lexicographic order, be it read on the bytes or, as
    the sort of the code does, on the code units. *)
Theorem C8_array_index_keys_not_sorted :
  ∃ h',
    Metadata.addLabels 1 [("10", Some "a"); ("2", Some "b")]
      (exec [NewConstruct None "root"; Of 0]) = Some (tt, h') ∧
    record_labels h' (Some 1) = Some [("2", Some "b"); ("10", Some "a")] ∧
    merge_sort String.le ["2"; "10"] = ["10"; "2"] ∧
    ¬ Sorted String.le (Js.keys [("2", Some "b"); ("10", Some "a")]) ∧
    merge_sort Js.le ["2"; "10"] = ["10"; "2"] ∧
    ¬ Sorted Js.le (Js.keys [("2", Some "b"); ("10", Some "a")]).
Proof.
  eexists. split; [vm_compute; reflexivity|].
  split; [vm_compute; reflexivity|]. split; [vm_compute; reflexivity|].
  split; [|split; [vm_compute; reflexivity|]].
  - intros Hs. apply Sorted_inv in Hs as [_ Hhd].
    apply HdRel_inv in Hhd. by vm_compute in Hhd.
  - intros Hs. apply Sorted_inv in Hs as [_ Hhd].
    apply HdRel_inv in Hhd. by vm_compute in Hhd.
Qed.

(** * Further properties of the module *)

(** ** Walks to the root *)

Lemma first_record_spec h path :
  match first_record h path with
  | Some m =>
      ∃ pre a post, path = pre ++ a :: post ∧
        Forall (λ b, own_record h b = None) pre ∧ own_record h a = Some m
  | None => Forall (λ b, own_record h b = None) path
  end.
Proof.
  induction path as [|s path IH]; simpl; [constructor|].
  destruct (own_record h s) as [m|] eqn:Hs.
  - exists [], s, path. by split; [|split; [constructor|]].
  - destruct (first_record h path) as [m|].
    + destruct IH as (pre & a & post & -> & Hpre & Ha).
      exists (s :: pre), a, post. split; [done|]. split; [by constructor|done].
    + by constructor.
Qed.

(** X1. [lookupMetadata] returns the record of the first scope, from the
    given scope toward the root, that has one attached, and nothing when
    no scope on the way has one; it leaves the store alone. *)
Theorem X1_lookupMetadata_first_on_path h s path fuel :
  ancestry h s path → length path ≤ fuel →
  ∃ r, Metadata.lookupMetadata fuel (Some s) h = Some (r, h) ∧
    match r with
    | Some m =>
        ∃ pre a post, path = pre ++ a :: post ∧
          Forall (λ b, own_record h b = None) pre ∧ own_record h a = Some m
    | None => Forall (λ b, own_record h b = None) path
    end.
Proof.
  intros Hpath Hfuel. exists (first_record h path).
  split; [by apply lookupMetadata_run | apply first_record_spec].
Qed.

Lemma X1_witness :
  ancestry family 2 [2; 1; 0] ∧ length [2; 1; 0] ≤ 3 ∧
  Metadata.lookupMetadata 3 (Some 2) family = Some (Some 4, family).
Proof.
  split; [apply family_ancestry|]. split; [simpl; lia|].
  destruct (X1_lookupMetadata_first_on_path family 2 [2; 1; 0] 3
              family_ancestry) as (r & Hr & _); [simpl; lia|].
  rewrite Hr. f_equal. vm_compute in Hr. congruence.
Defined.

Lemma label_decision_resolved h k path :
  resolved_labels h path !! k = label_decision h k path.
Proof.
  induction path as [|s path IH]; simpl; [done|].
  rewrite lookup_overlay, labelOverrides_unfold, to_map_lookup.
  fold (own_labels h s). by destruct (Js.own (own_labels h s) k) as [[?|]|].
Qed.

(** X2. Closest wins, key by key: the value of a key in the result of
    [resolveLabels] is the entry of the first scope, from the given scope
    toward the root, whose own labels mention the key; the key is absent
    when that entry is the unset marker or when no scope mentions it. *)
Theorem X2_resolveLabels_closest_wins h s path fuel :
  wf_heap h → ancestry h s path → length path ≤ fuel →
  ∃ X : JsObject string,
    Metadata.resolveLabels fuel (Some s) h = Some (X, h) ∧
    ∀ k, Js.own X k = label_decision h k path.
Proof.
  intros Hwf Hpath Hfuel.
  destruct (resolveLabels_run h s path fuel Hwf Hpath Hfuel)
    as (X & HX & _ & HXres & _).
  exists X. split; [done|]. intros k.
  by rewrite <-to_map_lookup, HXres, label_decision_resolved.
Qed.

Lemma X2_witness :
  wf_heap family ∧ ancestry family 2 [2; 1; 0] ∧ length [2; 1; 0] ≤ 3 ∧
  ∃ X : JsObject string,
    Metadata.resolveLabels 3 (Some 2) family = Some (X, family) ∧
    ∀ k, Js.own X k = label_decision family k [2; 1; 0].
Proof.
  split; [apply exec_wf|]. split; [apply family_ancestry|].
  split; [simpl; lia|].
  apply (X2_resolveLabels_closest_wins family 2 [2; 1; 0] 3);
    [apply exec_wf | apply family_ancestry | simpl; lia].
Defined.

(** ** Comparing two stores *)

Lemma filterUndefined_spread_nothing (P : JsObject string) :
  ordered P → Js.own P "__proto__" = None →
  filterUndefined (spread2 (Some (lift P)) []) = P.
Proof.
  intros HP HPp. unfold spread2. simpl.
  rewrite (assign_nil_ordered (lift P)) by (by apply ordered_lift).
  rewrite filterUndefined_defined, without_proto_id
    by (by rewrite own_lift, HPp).
  by rewrite defined_lift, assign_nil_ordered.
Qed.

Lemma resolveLabels_direct_same h h' q path fuel fuel' :
  wf_heap h → wf_heap h' →
  ancestry h q path → ancestry h' q path →
  length path ≤ fuel → length path ≤ fuel' →
  (∀ a, a ∈ path → own_labels h' a = own_labels h a) →
  ∃ X : JsObject string,
    resolveLabels_direct fuel (Some q) h = Some (X, h) ∧
    resolveLabels_direct fuel' (Some q) h' = Some (X, h').
Proof.
  intros Hwf Hwf' Hpath. revert fuel fuel'.
  induction Hpath as [s c Hs Hroot|s c p path Hs Hp Hpath IH];
    intros [|fuel] [|fuel'] Hpath' Hfuel Hfuel' Hown;
    simpl in Hfuel, Hfuel'; try lia.
  - inversion Hpath' as [s' c' Hs' Hroot'|s' c' p' path' Hs' Hp' Hnil]; subst;
      [|by destruct (ancestry_head _ _ _ Hnil)].
    exists (filterUndefined (spread2 (Some (lift [])) (own_labels h s))).
    split.
    + apply (resolveLabels_direct_unfold h s c fuel []); [done..|].
      by rewrite Hroot, resolveLabels_direct_None.
    + rewrite <-(Hown s) by left.
      apply (resolveLabels_direct_unfold h' s c' fuel' []); [done..|].
      by rewrite Hroot', resolveLabels_direct_None.
  - inversion Hpath' as [s' c' Hs' Hroot' Hnil|s' c' p' path' Hs' Hp' Hpath''];
      subst; [by destruct (ancestry_head _ _ _ Hpath)|].
    assert (p' = p) as ->.
    { destruct (ancestry_head _ _ _ Hpath) as [? ->].
      destruct (ancestry_head _ _ _ Hpath'') as [? Heq]. congruence. }
    destruct (IH fuel fuel' Hpath'') as (P & HP & HP'); [lia|lia| |].
    { intros a Ha. apply Hown. by right. }
    exists (filterUndefined (spread2 (Some (lift P)) (own_labels h s))).
    split.
    + apply (resolveLabels_direct_unfold h s c fuel P); [done..|]. by rewrite Hp.
    + rewrite <-(Hown s) by left.
      apply (resolveLabels_direct_unfold h' s c' fuel' P); [done..|].
      by rewrite Hp'.
Qed.

(** Two stores with the same tree above a scope and the same own labels
    on the way give the same resolved labels, whatever the fuel. *)
Lemma resolveLabels_same h h' q path fuel fuel' :
  wf_heap h → wf_heap h' →
  ancestry h q path → ancestry h' q path →
  length path ≤ fuel → length path ≤ fuel' →
  (∀ a, a ∈ path → own_labels h' a = own_labels h a) →
  ∃ X : JsObject string,
    Metadata.resolveLabels fuel (Some q) h = Some (X, h) ∧
    Metadata.resolveLabels fuel' (Some q) h' = Some (X, h').
Proof.
  intros Hwf Hwf' Hpath Hpath' Hfuel Hfuel' Hown.
  destruct (resolveLabels_direct_same h h' q path fuel fuel')
    as (Y & HY & HY'); [done..|].
  destruct (resolveLabels_agree h q path fuel Hwf Hpath Hfuel)
    as (X & HX & HXd & _).
  destruct (resolveLabels_agree h' q path fuel' Hwf' Hpath' Hfuel')
    as (X' & HX' & HXd' & _).
  exists X. split; [done|]. rewrite HX'. repeat f_equal. congruence.
Qed.

Lemma resolveNamespace_same h h' q path fuel fuel' :
  wf_heap h → wf_heap h' →
  ancestry h q path → ancestry h' q path →
  length path ≤ fuel → length path ≤ fuel' →
  (∀ a, a ∈ path → namespaceOverride h' a = namespaceOverride h a) →
  ∃ ns,
    Metadata.resolveNamespace fuel (Some q) h = Some (ns, h) ∧
    Metadata.resolveNamespace fuel' (Some q) h' = Some (ns, h').
Proof.
  intros Hwf Hwf' Hpath Hpath' Hfuel Hfuel' Hown.
  eexists. split; [by apply resolveNamespace_run|].
  rewrite (resolveNamespace_run h' q path fuel') by done.
  do 4 f_equal. apply list_fmap_ext. intros i a Ha. apply Hown.
  by eapply list_elem_of_lookup_2.
Qed.

(** X3. A scope whose own record, if it has one, sets neither a namespace
    nor a label resolves exactly like its parent: the same namespace and
    the same labels object. *)
Theorem X3_delegates_to_parent h s c p path fuel :
  wf_heap h → h !! s = Some c → node_scope c = Some p →
  namespaceOverride h s = Unset → own_labels h s = [] →
  ancestry h s path → length path ≤ fuel →
  ∃ ns (X : JsObject string),
    Metadata.resolveNamespace fuel (Some s) h = Some (ns, h) ∧
    Metadata.resolveNamespace fuel (Some p) h = Some (ns, h) ∧
    Metadata.resolveLabels fuel (Some s) h = Some (X, h) ∧
    Metadata.resolveLabels fuel (Some p) h = Some (X, h).
Proof.
  intros Hwf Hs Hp Hns Hlab Hpath Hfuel.
  inversion Hpath as [|s' c' p' path' Hs' Hp' Hpath']; subst; simplify_eq.
  simpl in Hfuel. destruct fuel as [|fuel]; [lia|].
  destruct (resolveLabels_same h h p path' fuel (S fuel))
    as (P & HP0 & HP); [done..|lia|lia|done|].
  destruct (resolveLabels_agree h p path' fuel Hwf Hpath')
    as (P' & HP' & HPd & HPord); [lia|].
  assert (P' = P) as -> by congruence.
  destruct (resolveLabels_agree h s (s :: path') (S fuel) Hwf Hpath)
    as (X & HX & HXd & _); [simpl; lia|].
  exists (decided (first_decision (namespaceOverride h <$> path'))), P.
  split.
  { rewrite (resolveNamespace_run h s (s :: path') (S fuel))
      by (done || (simpl; lia)).
    rewrite fmap_cons. cbn [first_decision]. by rewrite Hns. }
  split; [apply resolveNamespace_run; [done..|lia]|].
  split; [|done].
  rewrite HX. repeat f_equal.
  rewrite (resolveLabels_direct_unfold h s c fuel P Hwf Hs) in HXd
    by (by rewrite Hp).
  fold (own_labels h s) in HXd. rewrite Hlab in HXd.
  rewrite filterUndefined_spread_nothing in HXd
    by (done || by eapply resolveLabels_proto).
  congruence.
Qed.

Lemma X3_witness :
  ∃ ns (X : JsObject string),
    Metadata.resolveNamespace 3 (Some 2) family = Some (ns, family) ∧
    Metadata.resolveNamespace 3 (Some 1) family = Some (ns, family) ∧
    Metadata.resolveLabels 3 (Some 2) family = Some (X, family) ∧
    Metadata.resolveLabels 3 (Some 1) family = Some (X, family).
Proof.
  refine (X3_delegates_to_parent family 2 _ 1 [2; 1; 0] 3 (exec_wf _)
            _ _ _ _ family_ancestry _);
    [vm_compute; reflexivity | reflexivity | vm_compute; reflexivity
    | vm_compute; reflexivity | simpl; lia].
Defined.

(** ** What a mutator changes *)

Lemma ancestry_elem_valid h q path a :
  ancestry h q path → a ∈ path → is_Some (h !! a).
Proof.
  induction 1 as [s c Hs Hroot|s c p path Hs Hp Hpath IH].
  - intros ->%list_elem_of_singleton. eauto.
  - intros [->|Ha]%elem_of_cons; eauto.
Qed.

Lemma ancestry_above h s path :
  wf_heap h → ancestry h s path →
  ∃ rest, path = s :: rest ∧ Forall (λ a, a < s) rest.
Proof.
  intros Hwf. induction 1 as [s c Hs Hroot|s c p path Hs Hp Hpath IH].
  - exists []. split; [done|constructor].
  - destruct IH as (rest & -> & Hrest). eexists. split; [done|].
    pose proof (wf_scope h Hwf s c p Hs Hp).
    constructor; [done|]. eapply Forall_impl; [done|]. simpl. lia.
Qed.

Section mutate_record.
Context (h : Heap) (this : ref) (c : Construct) (f f' : MetadataFields).
Context (Hwf : wf_heap h) (Hc : h !! this = Some c) (Hf : fields c = Some f).

Lemma mutate_record_labels m :
  record_labels (update_fields h this c f') (Some m) =
    if decide (m = this) then labels f' else record_labels h (Some m).
Proof.
  unfold record_labels. simpl. rewrite update_fields_record_fields by done.
  by case_decide.
Qed.

Lemma mutate_record_namespace m :
  record_namespace (update_fields h this c f') (Some m) =
    if decide (m = this) then namespace f' else record_namespace h (Some m).
Proof.
  unfold record_namespace. simpl. rewrite update_fields_record_fields by done.
  by case_decide.
Qed.

Lemma mutate_own_labels a :
  own_labels (update_fields h this c f') a =
    if decide (own_record h a = Some this) then default [] (labels f')
    else own_labels h a.
Proof.
  unfold own_labels. rewrite update_fields_own_record by done.
  destruct (own_record h a) as [m|] eqn:Ha.
  - rewrite mutate_record_labels.
    destruct (decide (m = this)) as [->|Hne].
    + by rewrite decide_True.
    + rewrite decide_False by congruence. done.
  - by rewrite decide_False.
Qed.

Lemma mutate_namespaceOverride a :
  namespaceOverride (update_fields h this c f') a =
    if decide (own_record h a = Some this) then override_of (namespace f')
    else namespaceOverride h a.
Proof.
  unfold namespaceOverride. rewrite update_fields_own_record by done.
  destruct (own_record h a) as [m|] eqn:Ha.
  - rewrite mutate_record_namespace.
    destruct (decide (m = this)) as [->|Hne].
    + by rewrite decide_True.
    + rewrite decide_False by congruence. done.
  - by rewrite decide_False.
Qed.

Lemma mutate_same_labels a :
  labels f' = labels f →
  own_labels (update_fields h this c f') a = own_labels h a.
Proof.
  intros Heq. rewrite mutate_own_labels. case_decide as Ha; [|done].
  unfold own_labels. rewrite Ha, (record_labels_this h this c f Hc Hf).
  by rewrite Heq.
Qed.

Lemma mutate_same_namespace a :
  namespace f' = namespace f →
  namespaceOverride (update_fields h this c f') a = namespaceOverride h a.
Proof.
  intros Heq. rewrite mutate_namespaceOverride. case_decide as Ha; [|done].
  unfold namespaceOverride.
  rewrite Ha, (record_namespace_this h this c f Hc Hf). by rewrite Heq.
Qed.

End mutate_record.

(** X4. [addLabels] never changes a namespace: after the call
    [resolveNamespace] returns, for every scope, what it returned
    before. *)
Theorem X4_addLabels_keeps_namespaces h this c f l q path fuel :
  wf_heap h → h !! this = Some c → fields c = Some f →
  ancestry h q path → length path ≤ fuel →
  ∃ h' ns,
    Metadata.addLabels this l h = Some (tt, h') ∧
    Metadata.resolveNamespace fuel (Some q) h = Some (ns, h) ∧
    Metadata.resolveNamespace fuel (Some q) h' = Some (ns, h').
Proof.
  intros Hwf Hc Hf Hpath Hfuel. rewrite (addLabels_run h this c f l Hc Hf).
  eexists. 
  destruct (resolveNamespace_same h
              (update_fields h this c
                 {| labels := Some (sortByKey (spread2 (labels f) l));
                    namespace := namespace f |}) q path fuel fuel)
    as (ns & Hns & Hns'); try done.
  - apply update_fields_wf; [done| |done]. simpl. intros L [= <-].
    apply stored_sortByKey.
  - by apply update_fields_ancestry.
  - intros a _. by apply (mutate_same_namespace h this c f).
  - exists ns. done.
Qed.

Lemma X4_witness :
  ∃ h' ns,
    Metadata.addLabels 3 [("app", Some "web")] family = Some (tt, h') ∧
    Metadata.resolveNamespace 3 (Some 2) family = Some (ns, family) ∧
    Metadata.resolveNamespace 3 (Some 2) h' = Some (ns, h').
Proof.
  refine (X4_addLabels_keeps_namespaces family 3 _
            {| labels := Some [("my_label", Some "root")];
               namespace := Some "root" |} _ 2 [2; 1; 0] 3
            (exec_wf _) _ _ family_ancestry _);
    [vm_compute; reflexivity | reflexivity | simpl; lia].
Defined.

(** X5. [addNamespace] and [removeNamespace] never change a label: after
    the call [resolveLabels] returns, for every scope, the object it
    returned before. *)
Theorem X5_addNamespace_keeps_labels h this c f v q path fuel :
  wf_heap h → h !! this = Some c → fields c = Some f →
  ancestry h q path → length path ≤ fuel →
  ∃ h' (X : JsObject string),
    Metadata.addNamespace this v h = Some (tt, h') ∧
    Metadata.resolveLabels fuel (Some q) h = Some (X, h) ∧
    Metadata.resolveLabels fuel (Some q) h' = Some (X, h').
Proof.
  intros Hwf Hc Hf Hpath Hfuel. rewrite (addNamespace_run h this c f v Hc Hf).
  eexists.
  destruct (resolveLabels_same h
              (update_fields h this c
                 {| labels := labels f;
                    namespace := Some (default EmptyString v) |})
              q path fuel fuel)
    as (X & HX & HX'); try done.
  - apply update_fields_wf; [done| |done]. simpl. intros L HL.
    by eapply (stored_labels h this c f).
  - by apply update_fields_ancestry.
  - intros a _. by apply (mutate_same_labels h this c f).
  - exists X. done.
Qed.

Lemma X5_witness :
  ∃ h' (X : JsObject string),
    Metadata.addNamespace 3 None family = Some (tt, h') ∧
    Metadata.resolveLabels 3 (Some 2) family = Some (X, family) ∧
    Metadata.resolveLabels 3 (Some 2) h' = Some (X, h').
Proof.
  refine (X5_addNamespace_keeps_labels family 3 _
            {| labels := Some [("my_label", Some "root")];
               namespace := Some "root" |} _ 2 [2; 1; 0] 3
            (exec_wf _) _ _ family_ancestry _);
    [vm_compute; reflexivity | reflexivity | simpl; lia].
Defined.

(** X6. A change of the record of a scope is seen only below that scope:
    for every scope whose way to the root does not pass through the
    scope of the record, [resolveLabels] after [addLabels] and
    [resolveNamespace] after [addNamespace] return what they returned
    before. *)
Theorem X6_mutation_is_local h this s c f l v q path fuel :
  wf_heap h → own_record h s = Some this →
  h !! this = Some c → fields c = Some f →
  ancestry h q path → s ∉ path → length path ≤ fuel →
  (∃ h' (X : JsObject string),
     Metadata.addLabels this l h = Some (tt, h') ∧
     Metadata.resolveLabels fuel (Some q) h = Some (X, h) ∧
     Metadata.resolveLabels fuel (Some q) h' = Some (X, h')) ∧
  (∃ h' ns,
     Metadata.addNamespace this v h = Some (tt, h') ∧
     Metadata.resolveNamespace fuel (Some q) h = Some (ns, h) ∧
     Metadata.resolveNamespace fuel (Some q) h' = Some (ns, h')).
Proof.
  intros Hwf Hown Hc Hf Hpath Hs Hfuel.
  assert (Hfar : ∀ a, a ∈ path → own_record h a ≠ Some this).
  { intros a Ha Hown'. apply Hs.
    by rewrite <-(own_record_scope h a s this Hwf Hown' Hown). }
  split.
  - rewrite (addLabels_run h this c f l Hc Hf). eexists.
    destruct (resolveLabels_same h
                (update_fields h this c
                   {| labels := Some (sortByKey (spread2 (labels f) l));
                      namespace := namespace f |}) q path fuel fuel)
      as (X & HX & HX'); try done.
    + apply update_fields_wf; [done| |done]. simpl. intros L [= <-].
      apply stored_sortByKey.
    + by apply update_fields_ancestry.
    + intros a Ha. rewrite mutate_own_labels by done.
      rewrite decide_False; [done|by apply Hfar].
    + by exists X.
  - rewrite (addNamespace_run h this c f v Hc Hf). eexists.
    destruct (resolveNamespace_same h
                (update_fields h this c
                   {| labels := labels f;
                      namespace := Some (default EmptyString v) |})
                q path fuel fuel)
      as (ns & Hns & Hns'); try done.
    + apply update_fields_wf; [done| |done]. simpl. intros L HL.
      by eapply (stored_labels h this c f).
    + by apply update_fields_ancestry.
    + intros a Ha. rewrite mutate_namespaceOverride by done.
      rewrite decide_False; [done|by apply Hfar].
    + by exists ns.
Qed.

Lemma X6_witness :
  (∃ h' (X : JsObject string),
     Metadata.addLabels 4 [("app", Some "web")] family = Some (tt, h') ∧
     Metadata.resolveLabels 1 (Some 0) family = Some (X, family) ∧
     Metadata.resolveLabels 1 (Some 0) h' = Some (X, h')) ∧
  (∃ h' ns,
     Metadata.addNamespace 4 (Some "ns") family = Some (tt, h') ∧
     Metadata.resolveNamespace 1 (Some 0) family = Some (ns, family) ∧
     Metadata.resolveNamespace 1 (Some 0) h' = Some (ns, h')).
Proof.
  refine (X6_mutation_is_local family 4 1 _
            {| labels := None; namespace := Some EmptyString |} _ _ 0 [0] 1
            (exec_wf _) _ _ _ _ _ _);
    [vm_compute; reflexivity | vm_compute; reflexivity | reflexivity
    | eapply ancestry_root; reflexivity
    | intros Hin; apply list_elem_of_singleton in Hin; discriminate
    | simpl; lia].
Defined.

(** ** Labels after [addLabels] *)

Lemma resolved_labels_on_path h1 h2 path :
  (∀ a, a ∈ path → labelOverrides h1 a = labelOverrides h2 a) →
  resolved_labels h1 path = resolved_labels h2 path.
Proof.
  induction path as [|a path IH]; intros Heq; simpl; [done|].
  rewrite IH, Heq; [done|left|]. intros b Hb. apply Heq. by right.
Qed.

Lemma labelOverrides_own_labels h a :
  labelOverrides h a = Js.to_map (own_labels h a).
Proof. done. Qed.

(** X7. After [addLabels] on the record of a scope, [resolveLabels] of
    that scope has, for each key of the input other than [__proto__], the
    value given to it, or no entry when the unset marker was given,
    whatever the ancestors say; the other keys resolve as before.  Under
    [__proto__] the result has no entry, also when the input has one: the
    assignment of [sortByKey] stores none. *)
Theorem X7_addLabels_then_resolve h this s c f l path fuel :
  wf_heap h → own_record h s = Some this →
  h !! this = Some c → fields c = Some f → NoDup (Js.keys l) →
  ancestry h s path → length path ≤ fuel →
  ∃ h' (X X' : JsObject string),
    Metadata.addLabels this l h = Some (tt, h') ∧
    Metadata.resolveLabels fuel (Some s) h = Some (X, h) ∧
    Metadata.resolveLabels fuel (Some s) h' = Some (X', h') ∧
    ∀ k, Js.own X' k =
           if decide (k = "__proto__") then None
           else match Js.own l k with
                | Some (Some v) => Some v
                | Some None => None
                | None => Js.own X k
                end.
Proof.
  intros Hwf Hown Hc Hf Hl Hpath Hfuel.
  rewrite (addLabels_run h this c f l Hc Hf).
  set (h' := update_fields h this c _).
  assert (Hwf' : wf_heap h').
  { apply update_fields_wf; [done| |done]. simpl. intros L [= <-].
    apply stored_sortByKey. }
  destruct (resolveLabels_run h s path fuel Hwf Hpath Hfuel)
    as (X & HX & _ & HXres & _).
  destruct (resolveLabels_run h' s path fuel Hwf'
              (update_fields_ancestry h this c _ Hc s path Hpath) Hfuel)
    as (X' & HX' & _ & HXres' & _).
  exists h', X, X'. split; [done|]. split; [done|]. split; [done|].
  intros k. destruct (decide (k = "__proto__")) as [->|Hk];
    [by apply (resolveLabels_proto _ _ _ _ _ HX')|].
  rewrite <-!to_map_lookup, HXres, HXres'.
  destruct (ancestry_above h s path Hwf Hpath) as (rest & -> & Hrest).
  cbn [resolved_labels]. rewrite !lookup_overlay.
  rewrite (resolved_labels_on_path h' h rest).
  - rewrite !labelOverrides_own_labels, !to_map_lookup.
    unfold h'. rewrite mutate_own_labels, decide_True by done. simpl.
    rewrite own_sortByKey, decide_False by done.
    rewrite own_spread2;
      [|exact (NoDup_labels_this h this c f Hwf Hc Hf)|done].
    unfold own_labels. rewrite Hown, (record_labels_this h this c f Hc Hf).
    by destruct (Js.own l k) as [[?|]|].
  - intros a Ha. rewrite !labelOverrides_own_labels. f_equal.
    unfold h'. rewrite mutate_own_labels by done.
    rewrite decide_False; [done|]. intros Ha'.
    rewrite Forall_forall in Hrest. specialize (Hrest a Ha).
    pose proof (own_record_scope h a s this Hwf Ha' Hown). lia.
Qed.

Lemma X7_witness :
  ∃ h' (X X' : JsObject string),
    Metadata.addLabels 4
      [("my_label", None); ("__proto__", Some "x"); ("app", Some "web")]
      family = Some (tt, h') ∧
    Metadata.resolveLabels 2 (Some 1) family = Some (X, family) ∧
    Metadata.resolveLabels 2 (Some 1) h' = Some (X', h') ∧
    ∀ k, Js.own X' k =
           if decide (k = "__proto__") then None
           else match Js.own [("my_label", None); ("__proto__", Some "x");
                              ("app", Some "web")] k with
                | Some (Some v) => Some v
                | Some None => None
                | None => Js.own X k
                end.
Proof.
  refine (X7_addLabels_then_resolve family 4 1 _
            {| labels := None; namespace := Some EmptyString |} _ [1; 0] 2
            (exec_wf _) _ _ _ _ _ _);
    [ vm_compute; reflexivity | vm_compute; reflexivity | reflexivity
    | apply (bool_decide_unpack _); vm_compute; exact I
    | eapply ancestry_step; [reflexivity | reflexivity |];
      eapply ancestry_root; reflexivity
    | simpl; lia ].
Defined.

(** ** [sortByKey] depends on the entries only *)

Lemma keys_elem_own {V} (o : JsObject V) k :
  k ∈ Js.keys o ↔ is_Some (Js.own o k).
Proof.
  split.
  - intros Hk. destruct (Js.own o k) eqn:E; [eauto|]. by apply own_None in E.
  - intros [v Hv]. destruct (decide (k ∈ Js.keys o)) as [|Hk]; [done|].
    apply own_None in Hk. congruence.
Qed.

Lemma fold_set_ext {V} (g1 g2 : string → V) ks (r : JsObject V) :
  (∀ k, k ∈ ks → g1 k = g2 k) →
  fold_left (λ res key, Js.set res key (g1 key)) ks r =
  fold_left (λ res key, Js.set res key (g2 key)) ks r.
Proof.
  revert r. induction ks as [|k ks IH]; intros r Hg; simpl; [done|].
  rewrite (Hg k) by left. apply IH. intros k' Hk'. apply Hg. by right.
Qed.

Lemma sortByKey_ext (o1 o2 : Labels) :
  NoDup (Js.keys o1) → NoDup (Js.keys o2) →
  (∀ k, k ≠ "__proto__" → Js.own o1 k = Js.own o2 k) →
  sortByKey o1 = sortByKey o2.
Proof.
  intros H1 H2 Hown. rewrite !sortByKey_set.
  assert (Hperm : filter (λ k, k ≠ "__proto__") (Js.keys o1)
                  ≡ₚ filter (λ k, k ≠ "__proto__") (Js.keys o2)).
  { apply NoDup_Permutation; [by apply NoDup_filter..|]. intros k.
    rewrite !list_elem_of_filter, !keys_elem_own.
    split; intros [Hk Hin]; (split; [done|]);
      [by rewrite <-Hown | by rewrite Hown]. }
  assert (Hsort : filter (λ k, k ≠ "__proto__") (merge_sort Js.le (Js.keys o1))
                  = filter (λ k, k ≠ "__proto__")
                           (merge_sort Js.le (Js.keys o2))).
  { apply (Sorted_unique Js.le);
      try apply StronglySorted_Sorted, sorted_keys_sorted.
    by rewrite !merge_sort_Permutation. }
  rewrite Hsort. apply fold_set_ext.
  intros k [Hk _]%list_elem_of_filter. unfold get. by rewrite Hown.
Qed.

Lemma fold_insert_lookup {V} (s : JsObject V) (m1 m2 : gmap string V) k :
  m1 !! k = m2 !! k →
  fold_left (λ m kv, <[kv.1:=kv.2]> m) s m1 !! k =
  fold_left (λ m kv, <[kv.1:=kv.2]> m) s m2 !! k.
Proof.
  revert m1 m2. induction s as [|[k' v] s IH]; intros m1 m2 Hm; simpl; [done|].
  apply IH. destruct (decide (k' = k)) as [->|Hne].
  - by rewrite !lookup_insert_eq.
  - by rewrite !lookup_insert_ne.
Qed.

Lemma NoDup_spread2 {V} (a : option (JsObject V)) (b : JsObject V) :
  NoDup (Js.keys (spread2 a b)).
Proof. unfold spread2. apply NoDup_assign, NoDup_assign. constructor. Qed.

Lemma fold_insert_union {V} (s : JsObject V) (m1 m2 : gmap string V) :
  fold_left (λ m kv, <[kv.1:=kv.2]> m) s (m1 ∪ m2) =
  fold_left (λ m kv, <[kv.1:=kv.2]> m) s m1 ∪ m2.
Proof.
  revert m1. induction s as [|[k v] s IH]; intros m1; simpl; [done|].
  by rewrite insert_union_l, IH.
Qed.

Lemma to_map_spread2 {V} (a : option (JsObject V)) (b : JsObject V) :
  Js.to_map (spread2 a b) =
    fold_left (λ m kv, <[kv.1:=kv.2]> m) b
      (fold_left (λ m kv, <[kv.1:=kv.2]> m) (default [] a) ∅).
Proof. unfold spread2. by rewrite !to_map_assign. Qed.

Lemma addLabels_twice h this l1 l2 :
  (let* _ := Metadata.addLabels this l1 in Metadata.addLabels this l2) h
  = Metadata.addLabels this (spread2 (Some l1) l2) h.
Proof.
  unfold bind at 1.
  destruct (Metadata.addLabels this l1 h) as [[[] h1]|] eqn:H1.
  - apply addLabels_inv in H1 as (c & f & Hc & Hf & ->).
    rewrite (addLabels_run h this c f _ Hc Hf).
    erewrite addLabels_run;
      [|by rewrite update_fields_lookup, decide_True by done|done].
    assert (Heq :
      sortByKey (spread2 (Some (sortByKey (spread2 (labels f) l1))) l2)
      = sortByKey (spread2 (labels f) (spread2 (Some l1) l2))).
    { apply sortByKey_ext; [apply NoDup_spread2..|].
      intros k Hk. rewrite <-!to_map_lookup.
      rewrite !to_map_spread2. simpl.
      rewrite (fold_insert_NoDup (sortByKey _)) by apply NoDup_sortByKey.
      rewrite to_map_sortByKey, to_map_spread2, (right_id_L ∅ (∪)).
      rewrite (fold_insert_NoDup (spread2 _ _)) by apply NoDup_spread2.
      rewrite to_map_spread2. simpl. rewrite <-!fold_insert_union.
      rewrite !(left_id_L ∅ (∪)).
      apply fold_insert_lookup. by rewrite lookup_delete_ne. }
    simpl. unfold update_fields. rewrite list_insert_insert_eq.
    by rewrite Heq.
  - symmetry.
    destruct (Metadata.addLabels this (spread2 (Some l1) l2) h)
      as [[[] h2]|] eqn:H2; [|done].
    apply addLabels_inv in H2 as (c & f & Hc & Hf & _).
    by rewrite (addLabels_run h this c f l1 Hc Hf) in H1.
Qed.

(** X8. Two calls of [addLabels] on a record have the same outcome as one
    call with the two inputs merged, the later input winning on common
    keys. *)
Theorem X8_addLabels_twice_is_addLabels_merged h this l1 l2 :
  (let* _ := Metadata.addLabels this l1 in Metadata.addLabels this l2) h
  = Metadata.addLabels this (spread2 (Some l1) l2) h.
Proof. apply addLabels_twice. Qed.

Lemma addLabels_ext h this (l1 l2 : Labels) :
  NoDup (Js.keys l1) → NoDup (Js.keys l2) →
  (∀ k, Js.own l1 k = Js.own l2 k) →
  Metadata.addLabels this l1 h = Metadata.addLabels this l2 h.
Proof.
  intros H1 H2 Hown.
  destruct (Metadata.this_fields this h) as [[[c f] h0]|] eqn:Hthis.
  - apply this_fields_inv in Hthis as (-> & Hc & Hf). simpl in *.
    rewrite !(addLabels_run h this c f _ Hc Hf).
    assert (Heq : sortByKey (spread2 (labels f) l1)
                  = sortByKey (spread2 (labels f) l2)).
    { apply sortByKey_ext; [apply NoDup_spread2..|].
      intros k _. rewrite <-!to_map_lookup. f_equal. unfold spread2.
      rewrite (to_map_assign_NoDup _ l1), (to_map_assign_NoDup _ l2) by done.
      f_equal. apply map_eq. intros k'. by rewrite !to_map_lookup. }
    by rewrite Heq.
  - unfold Metadata.addLabels, bind. by rewrite Hthis.
Qed.

(** X9. The order of two [addLabels] calls on a record does not matter
    when their inputs have no key in common: both orders leave the same
    store. *)
Theorem X9_addLabels_commute_on_distinct_keys h this l1 l2 :
  NoDup (Js.keys l1) → NoDup (Js.keys l2) →
  (∀ k, Js.own l1 k = None ∨ Js.own l2 k = None) →
  (let* _ := Metadata.addLabels this l1 in Metadata.addLabels this l2) h
  = (let* _ := Metadata.addLabels this l2 in Metadata.addLabels this l1) h.
Proof.
  intros H1 H2 Hdisj. rewrite !addLabels_twice.
  apply addLabels_ext; [apply NoDup_spread2..|].
  intros k. rewrite !own_spread2 by done. simpl.
  destruct (Hdisj k) as [Hk|Hk]; rewrite Hk;
    [by destruct (Js.own l2 k) | by destruct (Js.own l1 k)].
Qed.

Lemma X9_witness :
  (let* _ := Metadata.addLabels 3 [("a", Some "1")] in
   Metadata.addLabels 3 [("b", Some "2")]) family
  = (let* _ := Metadata.addLabels 3 [("b", Some "2")] in
     Metadata.addLabels 3 [("a", Some "1")]) family.
Proof.
  apply (X9_addLabels_commute_on_distinct_keys family 3
           [("a", Some "1")] [("b", Some "2")]);
    [apply NoDup_singleton | apply NoDup_singleton|].
  intros k. simpl. destruct (decide ("a" = k)) as [<-|]; [by right | by left].
Defined.

(** X10. [addLabels] is idempotent: a second call with the same labels
    leaves the store as the first call left it. *)
Theorem X10_addLabels_idempotent h this l :
  NoDup (Js.keys l) →
  (let* _ := Metadata.addLabels this l in Metadata.addLabels this l) h
  = Metadata.addLabels this l h.
Proof.
  intros Hl. rewrite addLabels_twice.
  apply addLabels_ext; [apply NoDup_spread2|done|].
  intros k. rewrite own_spread2 by done. simpl. by destruct (Js.own l k).
Qed.

Lemma X10_witness :
  (let* _ := Metadata.addLabels 3 [("a", Some "1")] in
   Metadata.addLabels 3 [("a", Some "1")]) family
  = Metadata.addLabels 3 [("a", Some "1")] family.
Proof.
  apply (X10_addLabels_idempotent family 3 [("a", Some "1")]).
  apply NoDup_singleton.
Defined.

(** ** Namespaces after [addNamespace] *)

(** X11. The last [addNamespace] on a record prevails: two calls leave
    the store that the second call alone leaves; and [addNamespace] and
    [addLabels] on a record can be called in either order. *)
Theorem X11_addNamespace_last_call_prevails h this v1 v2 l :
  (let* _ := Metadata.addNamespace this v1 in Metadata.addNamespace this v2) h
    = Metadata.addNamespace this v2 h ∧
  (let* _ := Metadata.addNamespace this v1 in Metadata.addLabels this l) h
    = (let* _ := Metadata.addLabels this l in Metadata.addNamespace this v1) h.
Proof.
  destruct (Metadata.this_fields this h) as [[[c f] h0]|] eqn:Hthis.
  - apply this_fields_inv in Hthis as (-> & Hc & Hf). simpl in *.
    unfold bind.
    rewrite !(addNamespace_run h this c f _ Hc Hf).
    rewrite (addLabels_run h this c f _ Hc Hf).
    split.
    + erewrite addNamespace_run;
        [|by rewrite update_fields_lookup, decide_True by done|done].
      simpl. unfold update_fields. by rewrite list_insert_insert_eq.
    + erewrite addLabels_run;
        [|by rewrite update_fields_lookup, decide_True by done|done].
      erewrite addNamespace_run;
        [|by rewrite update_fields_lookup, decide_True by done|done].
      simpl. unfold update_fields. by rewrite !list_insert_insert_eq.
  - unfold bind, Metadata.addNamespace, Metadata.addLabels, bind.
    by rewrite Hthis.
Qed.

(** X12. After [addNamespace] with a non-empty string on the record of a
    scope, [resolveNamespace] of that scope returns that string, whatever
    the ancestors have set. *)
Theorem X12_addNamespace_then_resolve h this s c f v path fuel :
  wf_heap h → own_record h s = Some this →
  h !! this = Some c → fields c = Some f → v ≠ EmptyString →
  ancestry h s path → length path ≤ fuel →
  ∃ h', Metadata.addNamespace this (Some v) h = Some (tt, h') ∧
        Metadata.resolveNamespace fuel (Some s) h' = Some (Some v, h').
Proof.
  intros Hwf Hown Hc Hf Hv Hpath Hfuel.
  rewrite (addNamespace_run h this c f _ Hc Hf). simpl.
  eexists. split; [done|].
  destruct (ancestry_head h s path Hpath) as [rest ->].
  rewrite (resolveNamespace_run _ s (s :: rest) fuel);
    [| |by apply update_fields_ancestry|done].
  - rewrite fmap_cons. cbn [first_decision].
    rewrite mutate_namespaceOverride, decide_True by done. simpl.
    by rewrite decide_False.
  - apply update_fields_wf; [done| |done]. simpl.
    intros L HL. by eapply (stored_labels h this c f).
Qed.

Lemma X12_witness :
  ∃ h', Metadata.addNamespace 4 (Some "parent-ns") family = Some (tt, h') ∧
        Metadata.resolveNamespace 2 (Some 1) h' = Some (Some "parent-ns", h').
Proof.
  refine (X12_addNamespace_then_resolve family 4 1 _
            {| labels := None; namespace := Some EmptyString |} "parent-ns"
            [1; 0] 2 (exec_wf _) _ _ _ _ _ _);
    [ vm_compute; reflexivity | vm_compute; reflexivity | reflexivity
    | discriminate
    | eapply ancestry_step; [reflexivity | reflexivity |];
      eapply ancestry_root; reflexivity
    | simpl; lia ].
Defined.

(** ** [Metadata.of] *)

Section attach_record.
Context (h : Heap) (s : ref) (o : Construct).
Context (Hwf : wf_heap h) (Hs : h !! s = Some o).
Context (Hnone : own_record h s = None).

Lemma attach_record_scope a c :
  h !! a = Some c →
  ∃ c', attach h s o Metadata.id empty_record !! a = Some c' ∧
        node_scope c' = node_scope c ∧ fields c' = fields c.
Proof.
  intros Ha. rewrite attach_lookup by done.
  destruct (decide (a = s)) as [->|Hne].
  - simplify_eq. eauto.
  - rewrite decide_False; [eauto|]. apply lookup_lt_Some in Ha. lia.
Qed.

Lemma attach_record_ancestry q path :
  ancestry h q path → ancestry (attach h s o Metadata.id empty_record) q path.
Proof.
  induction 1 as [a c Ha Hroot|a c p path Ha Hp Hpath IH];
    destruct (attach_record_scope a c Ha) as (c' & Hc' & Hsc & _).
  - eapply ancestry_root; [exact Hc'|congruence].
  - eapply (ancestry_step _ a c' p); [exact Hc'|congruence|done].
Qed.

Lemma attach_record_fields r :
  r < length h →
  record_fields (attach h s o Metadata.id empty_record) r = record_fields h r.
Proof.
  intros Hr. destruct (lookup_lt_is_Some_2 h r Hr) as [c Hc].
  destruct (attach_record_scope r c Hc) as (c' & Hc' & _ & Hf).
  unfold record_fields. rewrite Hc', Hc. done.
Qed.

Lemma attach_record_empty_record :
  record_fields (attach h s o Metadata.id empty_record) (length h) = empty_record.
Proof.
  unfold record_fields. rewrite attach_lookup by done.
  rewrite decide_False, decide_True; [done..|].
  apply lookup_lt_Some in Hs. lia.
Qed.

Lemma attach_record_own a :
  a < length h → a ≠ s →
  own_record (attach h s o Metadata.id empty_record) a = own_record h a.
Proof.
  intros Ha Hne. unfold own_record. rewrite attach_lookup by done.
  rewrite decide_False by done. rewrite decide_False by lia. done.
Qed.

Lemma attach_record_own_labels a :
  a < length h →
  own_labels (attach h s o Metadata.id empty_record) a = own_labels h a.
Proof.
  intros Ha. unfold own_labels. destruct (decide (a = s)) as [->|Hne].
  - rewrite attach_own_record, Hnone by done. unfold record_labels. simpl.
    by rewrite attach_record_empty_record.
  - rewrite attach_record_own by done.
    destruct (own_record h a) as [r|] eqn:Hr; [|done].
    destruct (own_record_valid h a r Hwf Hr) as [cr Hcr].
    unfold record_labels. simpl.
    rewrite attach_record_fields; [done|]. by eapply lookup_lt_Some.
Qed.

Lemma attach_record_namespaceOverride a :
  a < length h →
  namespaceOverride (attach h s o Metadata.id empty_record) a = namespaceOverride h a.
Proof.
  intros Ha. unfold namespaceOverride. destruct (decide (a = s)) as [->|Hne].
  - rewrite attach_own_record, Hnone by done. unfold record_namespace. simpl.
    by rewrite attach_record_empty_record.
  - rewrite attach_record_own by done.
    destruct (own_record h a) as [r|] eqn:Hr; [|done].
    destruct (own_record_valid h a r Hwf Hr) as [cr Hcr].
    unfold record_namespace. simpl.
    rewrite attach_record_fields; [done|]. by eapply lookup_lt_Some.
Qed.

End attach_record.

(** X13. Attaching a record changes no resolved value: after
    [Metadata.of] on any scope, [resolveNamespace] and [resolveLabels]
    return, for every scope of the tree, what they returned before. *)
Theorem X13_of_changes_no_resolution h s q path fuel :
  wf_heap h → s < length h → ancestry h q path → length path ≤ fuel →
  ∃ m h' ns (X : JsObject string),
    Metadata.of_ s h = Some (m, h') ∧
    Metadata.resolveNamespace fuel (Some q) h = Some (ns, h) ∧
    Metadata.resolveNamespace fuel (Some q) h' = Some (ns, h') ∧
    Metadata.resolveLabels fuel (Some q) h = Some (X, h) ∧
    Metadata.resolveLabels fuel (Some q) h' = Some (X, h').
Proof.
  intros Hwf Hs Hpath Hfuel.
  destruct (lookup_lt_is_Some_2 h s Hs) as [o Ho].
  destruct (own_record h s) as [m|] eqn:Hown.
  - exists m, h.
    destruct (resolveLabels_run h q path fuel Hwf Hpath Hfuel) as (X & HX & _).
    eexists _, X. split; [by apply of_run_existing|].
    split; [by apply resolveNamespace_run|]. split; [by apply resolveNamespace_run|].
    done.
  - rewrite (of_run_new h s o Ho Hown).
    set (h' := attach h s o Metadata.id _).
    assert (Hwf' : wf_heap h').
    { apply attach_wf; [done| |done]. intros; by simplify_eq/=. }
    assert (Hpath' : ancestry h' q path) by (by apply attach_record_ancestry).
    assert (Hvalid : ∀ a, a ∈ path → a < length h).
    { intros a Ha. destruct (ancestry_elem_valid h q path a Hpath Ha) as [? ?].
      by eapply lookup_lt_Some. }
    destruct (resolveNamespace_same h h' q path fuel fuel)
      as (ns & Hns & Hns'); try done.
    { intros a Ha. apply attach_record_namespaceOverride; auto. }
    destruct (resolveLabels_same h h' q path fuel fuel)
      as (X & HX & HX'); try done.
    { intros a Ha. apply attach_record_own_labels; auto. }
    by exists (length h), h', ns, X.
Qed.

Lemma X13_witness :
  ∃ m h' ns (X : JsObject string),
    Metadata.of_ 2 family = Some (m, h') ∧
    Metadata.resolveNamespace 3 (Some 2) family = Some (ns, family) ∧
    Metadata.resolveNamespace 3 (Some 2) h' = Some (ns, h') ∧
    Metadata.resolveLabels 3 (Some 2) family = Some (X, family) ∧
    Metadata.resolveLabels 3 (Some 2) h' = Some (X, h').
Proof.
  apply (X13_of_changes_no_resolution family 2 2 [2; 1; 0] 3);
    [apply exec_wf | vm_compute; lia | apply family_ancestry | simpl; lia].
Defined.

(** X14. On a scope without a record, [Metadata.of] creates one object:
    a child of the scope under the reserved id, with no children, no
    labels and no namespace; the scope keeps its other children and every
    other object is left as it was. *)
Theorem X14_of_creates_an_empty_record h s o :
  h !! s = Some o → own_record h s = None →
  ∃ h',
    Metadata.of_ s h = Some (length h, h') ∧
    h' !! length h =
      Some {| node_scope := Some s; node_id := Metadata.id;
              node_children := [];
              fields := Some {| labels := None; namespace := None |} |} ∧
    own_record h' s = Some (length h) ∧
    child_count h' s = S (child_count h s) ∧
    (∃ o', h' !! s = Some o' ∧ node_scope o' = node_scope o ∧
           fields o' = fields o ∧
           ∀ id, id ≠ Metadata.id →
                 Js.own (node_children o') id = Js.own (node_children o) id) ∧
    (∀ r c, r ≠ s → h !! r = Some c → h' !! r = Some c).
Proof.
  intros Hs Hnone. rewrite (of_run_new h s o Hs Hnone). eexists.
  split; [done|].
  pose proof (lookup_lt_Some _ _ _ Hs) as Hlt.
  assert (Hid : Js.own (node_children o) Metadata.id = None).
  { unfold own_record in Hnone. by rewrite Hs in Hnone. }
  split; [|split; [|split; [|split]]].
  - rewrite attach_lookup by done.
    rewrite decide_False by lia. by rewrite decide_True.
  - by apply attach_own_record.
  - rewrite attach_child_count by done. by rewrite decide_True.
  - eexists. split; [by rewrite attach_lookup, decide_True by done|].
    simpl. repeat split. intros id Hne. by rewrite own_set, decide_False.
  - intros r c Hne Hr. by apply attach_lookup_old.
Qed.

Lemma X14_witness :
  ∃ h',
    Metadata.of_ 2 family = Some (length family, h') ∧
    h' !! length family =
      Some {| node_scope := Some 2; node_id := Metadata.id;
              node_children := [];
              fields := Some {| labels := None; namespace := None |} |} ∧
    own_record h' 2 = Some (length family) ∧
    child_count h' 2 = S (child_count family 2) ∧
    (∃ o', h' !! 2 = Some o' ∧ node_scope o' = Some 1 ∧
           fields o' = None ∧
           ∀ id, id ≠ Metadata.id →
                 Js.own (node_children o') id = Js.own [] id) ∧
    (∀ r c, r ≠ 2 → family !! r = Some c → h' !! r = Some c).
Proof.
  refine (X14_of_creates_an_empty_record family 2
            {| node_scope := Some 1; node_id := "child";
               node_children := []; fields := None |} _ _);
    [vm_compute; reflexivity | vm_compute; reflexivity].
Defined.

(** ** The order of the stored keys *)

Lemma keys_cons {V} k v (o : JsObject V) :
  Js.keys ((k, v) :: o) = k :: Js.keys o.
Proof. done. Qed.

Lemma filter_keys_insert_index {V} (P : string → Prop)
    `{!∀ k, Decision (P k)} (o : JsObject V) n k v :
  ¬ P k →
  filter P (Js.keys (Js.insert_index o n k v)) = filter P (Js.keys o).
Proof.
  intros Hk.
  induction o as [|[k' v'] o IH]; cbn [Js.insert_index].
  - rewrite keys_cons. by rewrite filter_cons_False.
  - destruct (Js.array_index k') as [n'|]; [destruct (n' <? n)%N|].
    + rewrite !keys_cons, !filter_cons. by rewrite IH.
    + rewrite (keys_cons k v). by rewrite filter_cons_False.
    + rewrite (keys_cons k v). by rewrite filter_cons_False.
Qed.

Lemma filter_keys_set {V} (P : string → Prop) `{!∀ k, Decision (P k)}
    (o : JsObject V) k v :
  (P k ↔ Js.array_index k = None) →
  ∃ e, filter P (Js.keys (Js.set o k v)) = filter P (Js.keys o) ++ e ∧
       e `sublist_of` filter P [k].
Proof.
  intros HP. unfold Js.set. destruct (Js.own o k).
  - exists []. rewrite keys_replace, (right_id_L [] (++)).
    split; [done | apply sublist_nil_l].
  - destruct (Js.array_index k) as [n|] eqn:Hk.
    + exists []. rewrite filter_keys_insert_index, (right_id_L [] (++)).
      * split; [done | apply sublist_nil_l].
      * rewrite HP. done.
    + exists (filter P [k]). unfold Js.keys. rewrite fmap_app, filter_app.
      done.
Qed.

Lemma filter_keys_fold_set {V} (P : string → Prop) `{!∀ k, Decision (P k)}
    (g : string → V) ks (r : JsObject V) :
  (∀ k, P k ↔ Js.array_index k = None) →
  ∃ e, filter P (Js.keys (fold_left (λ res key, Js.set res key (g key)) ks r))
       = filter P (Js.keys r) ++ e ∧
       e `sublist_of` filter P ks.
Proof.
  intros HP. revert r. induction ks as [|k ks IH]; intros r; simpl.
  - exists []. by rewrite (right_id_L [] (++)).
  - destruct (IH (Js.set r k (g k))) as (e & -> & He).
    destruct (filter_keys_set P r k (g k) (HP k)) as (e0 & -> & He0).
    exists (e0 ++ e). rewrite (assoc_L (++)). split; [done|].
    change (k :: ks) with ([k] ++ ks). rewrite filter_app.
    by apply sublist_app.
Qed.

Lemma ordered_fold_set {V} (g : string → V) ks (r : JsObject V) :
  ordered r → ordered (fold_left (λ res key, Js.set res key (g key)) ks r).
Proof.
  revert r. induction ks as [|k ks IH]; intros r Hr; simpl; [done|].
  by apply IH, ordered_set.
Qed.

Lemma sortByKey_order obj :
  ordered (sortByKey obj) ∧
  Js.own (sortByKey obj) "__proto__" = None ∧
  StronglySorted Js.le
    (filter (λ k, Js.array_index k = None) (Js.keys (sortByKey obj))).
Proof.
  split; [rewrite sortByKey_set; apply ordered_fold_set, ordered_nil|].
  split; [apply own_sortByKey_proto|].
  rewrite sortByKey_set.
  destruct (filter_keys_fold_set (λ k, Js.array_index k = None)
              (get obj)
              (filter (λ k, k ≠ "__proto__") (merge_sort Js.le (Js.keys obj)))
              [])
    as (e & -> & He); [done|].
  simpl. eapply StronglySorted_sublist; [done|].
  eapply StronglySorted_sublist; [apply sublist_filter|].
  apply sorted_keys_sorted.
Qed.

Lemma reachable_stored_labels (Φ : Labels → Prop) :
  (∀ obj, Φ (sortByKey obj)) →
  ∀ h, reachable h →
  ∀ m c f L, h !! m = Some c → fields c = Some f → labels f = Some L → Φ L.
Proof.
  intros HΦ h. induction 1 as [|h cl h' Hreach IH Hrun];
    intros m c f L Hm Hf HL; [by rewrite lookup_nil in Hm|].
  assert (Hupd : ∀ this c0 f0 f',
    h !! this = Some c0 → fields c0 = Some f0 →
    h' = update_fields h this c0 f' →
    (∀ L', labels f' = Some L' → labels f0 = Some L' ∨ ∃ obj, L' = sortByKey obj) →
    Φ L).
  { intros this c0 f0 f' Hc0 Hf0 -> Hlab.
    rewrite update_fields_lookup in Hm by done.
    destruct (decide (m = this)) as [->|Hne]; [|exact (IH m c f L Hm Hf HL)].
    simplify_eq/=. destruct (Hlab L HL) as [HL0|[obj ->]]; [|apply HΦ].
    exact (IH this c0 f0 L Hc0 Hf0 HL0). }
  assert (Hatt : ∀ p o id f0,
    h !! p = Some o → h' = attach h p o id f0 →
    (∀ f1, f0 = Some f1 → labels f1 = None) → Φ L).
  { intros p o id f0 Hp -> Hf0. rewrite attach_lookup in Hm by done.
    destruct (decide (m = p)) as [->|Hne]; [|destruct (decide (m = length h))].
    - simplify_eq/=. exact (IH p o f L Hp Hf HL).
    - simplify_eq/=. specialize (Hf0 f eq_refl). congruence.
    - exact (IH m c f L Hm Hf HL). }
  destruct cl as [sc id|s|md l|md l|md v|md]; simpl in Hrun.
  - apply bind_inv in Hrun as (r & h0 & Hc & [_ ->]%ret_inv).
    apply create_inv in Hc as [_ Hc]. destruct sc as [p|].
    + destruct Hc as (o & Hp & _ & ->). by eapply (Hatt p o id None).
    + subst. apply lookup_app_Some in Hm as [Hm|[_ Hm]]; [exact (IH m c f L Hm Hf HL)|].
      apply list_lookup_singleton_Some in Hm as [_ <-]. done.
  - apply bind_inv in Hrun as (r & h0 & Hof & [_ ->]%ret_inv).
    apply of_inv in Hof as [[_ ->]|(_ & _ & o & Ho & ->)];
      [exact (IH m c f L Hm Hf HL)|].
    eapply (Hatt s o); [done..|]. by intros f1 [= <-].
  - apply addLabels_inv in Hrun as (c0 & f0 & Hc0 & Hf0 & ->).
    eapply Hupd; [done..|]. simpl. intros L' [= <-]. right. eauto.
  - apply addLabels_inv in Hrun as (c0 & f0 & Hc0 & Hf0 & ->).
    eapply Hupd; [done..|]. simpl. intros L' [= <-]. right. eauto.
  - apply addNamespace_inv in Hrun as (c0 & f0 & Hc0 & Hf0 & ->).
    eapply Hupd; [done..|]. simpl. intros L' HL'. by left.
  - apply addNamespace_inv in Hrun as (c0 & f0 & Hc0 & Hf0 & ->).
    eapply Hupd; [done..|]. simpl. intros L' HL'. by left.
Qed.

(** X15. In every reachable store the labels stored in a record have
    distinct keys, none of them [__proto__], in this order: the keys that
    are array indices first, in ascending numeric order, then all other
    keys in the ascending order of their UTF-16 code units. *)
Theorem X15_stored_keys_order h m c f L :
  reachable h → h !! m = Some c → fields c = Some f → labels f = Some L →
  NoDup (Js.keys L) ∧
  Js.own L "__proto__" = None ∧
  StronglySorted key_before (Js.keys L) ∧
  StronglySorted Js.le (filter (λ k, Js.array_index k = None) (Js.keys L)).
Proof.
  intros Hh Hm Hf HL.
  pose proof (reachable_stored_labels
                (λ L, ordered L ∧ Js.own L "__proto__" = None ∧
                      StronglySorted Js.le
                        (filter (λ k, Js.array_index k = None) (Js.keys L)))
                sortByKey_order h Hh m c f L Hm Hf HL) as [[? ?] [? ?]].
  done.
Qed.

Lemma X15_witness :
  NoDup (Js.keys [("2", Some "b"); ("10", Some "a"); ("aaaa", None);
                  ("zzzz", Some "1"); ("😀", Some "e"); ("～", Some "w")]) ∧
  Js.own [("2", Some "b"); ("10", Some "a"); ("aaaa", None);
          ("zzzz", Some "1"); ("😀", Some "e"); ("～", Some "w")]
    "__proto__" = None ∧
  StronglySorted key_before
    (Js.keys [("2", Some "b"); ("10", Some "a"); ("aaaa", None);
              ("zzzz", Some "1"); ("😀", Some "e"); ("～", Some "w")]) ∧
  StronglySorted Js.le
    (filter (λ k, Js.array_index k = None)
       (Js.keys [("2", Some "b"); ("10", Some "a"); ("aaaa", None);
                 ("zzzz", Some "1"); ("😀", Some "e"); ("～", Some "w")])).
Proof.
  refine (X15_stored_keys_order
            (exec [NewConstruct None "root"; Of 0;
                   AddLabels 1 [("zzzz", Some "1"); ("10", Some "a");
                                ("～", Some "w"); ("__proto__", Some "p");
                                ("aaaa", None); ("2", Some "b");
                                ("😀", Some "e")]])
            1 _
            {| labels := Some [("2", Some "b"); ("10", Some "a");
                               ("aaaa", None); ("zzzz", Some "1");
                               ("😀", Some "e"); ("～", Some "w")];
               namespace := None |} _ (exec_reachable _) _ _ _);
    [vm_compute; reflexivity | reflexivity | reflexivity].
Defined.

(** ** [filterUndefined] and [sortByKey] on their own *)

Lemma keys_defined_sublist (o : Labels) :
  Js.keys (defined o) `sublist_of` Js.keys o.
Proof.
  unfold Js.keys, defined. induction o as [|[k [v|]] o IH]; simpl.
  - done.
  - by apply sublist_skip.
  - by apply sublist_cons.
Qed.

Lemma ordered_defined (o : Labels) : ordered o → ordered (defined o).
Proof.
  intros [Hnd Hs]. split.
  - eapply sublist_NoDup; [done|apply keys_defined_sublist].
  - eapply StronglySorted_sublist; [apply keys_defined_sublist|done].
Qed.

Lemma ordered_without_proto {V} (o : JsObject V) :
  ordered o → ordered (without_proto o).
Proof.
  intros [Hnd Hs]. unfold ordered. rewrite keys_without_proto. split.
  - by apply NoDup_filter.
  - eapply StronglySorted_sublist; [apply sublist_filter|done].
Qed.

(** X16. On an object in own-property order, [filterUndefined] returns
    the entries that hold a string under a key other than [__proto__], in
    their order: it drops the entries that hold [undefined], and an entry
    under [__proto__], which its assignment does not create. *)
Theorem X16_filterUndefined_keeps_defined_entries (obj : Labels) :
  ordered obj →
  filterUndefined obj = defined (without_proto obj) ∧
  ∀ k, Js.own (filterUndefined obj) k =
         if decide (k = "__proto__") then None
         else match Js.own obj k with
              | Some (Some v) => Some v
              | Some None | None => None
              end.
Proof.
  intros Hobj. split.
  - rewrite filterUndefined_defined.
    by apply assign_nil_ordered, ordered_defined, ordered_without_proto.
  - intros k. apply own_filterUndefined, Hobj.
Qed.

Lemma X16_witness :
  filterUndefined [("2", Some "b"); ("a", None); ("__proto__", Some "p");
                   ("b", Some "c")]
    = [("2", "b"); ("b", "c")] ∧
  ∀ k, Js.own (filterUndefined [("2", Some "b"); ("a", None);
                                ("__proto__", Some "p"); ("b", Some "c")]) k =
         if decide (k = "__proto__") then None
         else match Js.own [("2", Some "b"); ("a", None);
                            ("__proto__", Some "p"); ("b", Some "c")] k with
              | Some (Some v) => Some v
              | Some None | None => None
              end.
Proof.
  apply (X16_filterUndefined_keeps_defined_entries
           [("2", Some "b"); ("a", None); ("__proto__", Some "p");
            ("b", Some "c")]).
  change (ordered (Js.assign [] [("2", Some "b"); ("a", @None string);
                                 ("__proto__", Some "p"); ("b", Some "c")])).
  apply ordered_assign, ordered_nil.
Defined.

(** X17. [sortByKey] reorders the entries and drops none but one under
    [__proto__], which its assignment does not create: the result has the
    other keys of its argument, each once, with the same values; two
    objects with the same entries under the other keys give the same
    result, so sorting a sorted object changes nothing. *)
Theorem X17_sortByKey_reorders_and_drops_proto (obj : Labels) :
  NoDup (Js.keys obj) →
  Js.keys (sortByKey obj) ≡ₚ filter (λ k, k ≠ "__proto__") (Js.keys obj) ∧
  (∀ k, Js.own (sortByKey obj) k =
          if decide (k = "__proto__") then None else Js.own obj k) ∧
  (∀ obj' : Labels, NoDup (Js.keys obj') →
     (∀ k, k ≠ "__proto__" → Js.own obj' k = Js.own obj k) →
     sortByKey obj' = sortByKey obj) ∧
  sortByKey (sortByKey obj) = sortByKey obj.
Proof.
  intros Hobj. split; [|split; [|split]].
  - apply NoDup_Permutation; [apply NoDup_sortByKey|by apply NoDup_filter|].
    intros k. rewrite list_elem_of_filter, !keys_elem_own, own_sortByKey.
    destruct (decide (k = "__proto__")) as [->|Hk].
    + split; [by intros [? ?] | by intros [? _]].
    + tauto.
  - apply own_sortByKey.
  - intros obj' Hobj' Hown. by apply sortByKey_ext.
  - apply sortByKey_ext; [apply NoDup_sortByKey|done|].
    intros k Hk. by rewrite own_sortByKey, decide_False.
Qed.

Lemma X17_witness :
  Js.keys (sortByKey [("zzzz", Some "1"); ("__proto__", Some "p");
                      ("aaaa", None)])
    ≡ₚ filter (λ k, k ≠ "__proto__")
         (Js.keys [("zzzz", Some "1"); ("__proto__", Some "p");
                   ("aaaa", @None string)]) ∧
  (∀ k, Js.own (sortByKey [("zzzz", Some "1"); ("__proto__", Some "p");
                           ("aaaa", None)]) k
        = if decide (k = "__proto__") then None
          else Js.own [("zzzz", Some "1"); ("__proto__", Some "p");
                       ("aaaa", None)] k) ∧
  (∀ obj' : Labels, NoDup (Js.keys obj') →
     (∀ k, k ≠ "__proto__" →
           Js.own obj' k = Js.own [("zzzz", Some "1"); ("__proto__", Some "p");
                                   ("aaaa", None)] k) →
     sortByKey obj' = sortByKey [("zzzz", Some "1"); ("__proto__", Some "p");
                                 ("aaaa", None)]) ∧
  sortByKey (sortByKey [("zzzz", Some "1"); ("__proto__", Some "p");
                        ("aaaa", None)])
    = sortByKey [("zzzz", Some "1"); ("__proto__", Some "p"); ("aaaa", None)].
Proof.
  apply (X17_sortByKey_reorders_and_drops_proto
           [("zzzz", Some "1"); ("__proto__", Some "p"); ("aaaa", None)]).
  apply (bool_decide_unpack _). vm_compute. exact I.
Defined.
